(** * quarto-inline-output: the session execution protocol

    A shallow embedding of the two capture channels of the extension:

    - the side-log channel: [OutputWatcher] (outputWatcher.ts) polls an
      append-only file of framed records, and the notebook controller
      ([QuartoNotebookController], side-log variant) races the watcher's
      promise against a 60 s timer;
    - the direct-scrape channel: [RPseudoterminalSimple]
      (rPseudoterminalSimple.ts) scrapes the stdout of an R child process.

    JavaScript strings are sequences of UTF-16 code units; they are modelled
    as [list N].  A file is a sequence of bytes, decoded as UTF-8 each time
    it is read.  Mutable objects become records threaded through the
    operations; promises are entries of an explicit promise table. *)

From Stdlib Require Import NArith Ascii String DecimalString DecimalN.
From Equations Require Import Equations.
From stdpp Require Import gmap list.

Local Open Scope N_scope.

(** ** JavaScript strings and the string methods the sources call *)

Module JS.

Abbreviation str := (list N).

(** A string literal of the source, as code units (ASCII literals only). *)
Definition lit (s : string) : str := map N_of_ascii (list_ascii_of_string s).

Definition LF : N := 10.
Definition HASH : N := 35.

(** [WhiteSpace] and [LineTerminator] of ECMAScript, the set that
    [String.prototype.trim] strips and that [\s] matches. *)
Definition isWhiteSpace (c : N) : bool :=
  (c =? 9) || (c =? 10) || (c =? 11) || (c =? 12) || (c =? 13) || (c =? 32)
  || (c =? 160) || (c =? 5760) || ((8192 <=? c) && (c <=? 8202))
  || (c =? 8232) || (c =? 8233) || (c =? 8239) || (c =? 8287)
  || (c =? 12288) || (c =? 65279).

(** [\d] and [\w] (no [i] or [u] flag anywhere in the sources). *)
Definition isDigit (c : N) : bool := (48 <=? c) && (c <=? 57).

Definition isWord (c : N) : bool :=
  ((65 <=? c) && (c <=? 90)) || ((97 <=? c) && (c <=? 122))
  || isDigit c || (c =? 95).

Definition isAny (_ : N) : bool := true.
Definition isNot (d : N) (c : N) : bool := negb (c =? d).

Fixpoint trimStart (s : str) : str :=
  match s with
  | c :: t => if isWhiteSpace c then trimStart t else s
  | [] => []
  end.

Definition trimEnd (s : str) : str := rev (trimStart (rev s)).

(** [s.trim()] *)
Definition trim (s : str) : str := trimEnd (trimStart s).

(** [s] minus the prefix [p], when [s.startsWith(p)]. *)
Fixpoint stripPrefix (p s : str) : option str :=
  match p, s with
  | [], _ => Some s
  | a :: p', b :: s' => if a =? b then stripPrefix p' s' else None
  | _ :: _, [] => None
  end.

(** [s.startsWith(p)] *)
Definition startsWith (p s : str) : bool :=
  match stripPrefix p s with Some _ => true | None => false end.

(** [s.includes(p)] *)
Fixpoint includes (p s : str) : bool :=
  startsWith p s || match s with [] => false | _ :: t => includes p t end.

(** [s.replace(p, '')] with a string pattern: the first occurrence goes. *)
Fixpoint removeFirst (p s : str) : str :=
  match stripPrefix p s with
  | Some t => t
  | None => match s with [] => [] | c :: t => c :: removeFirst p t end
  end.

(** [s.split(sep)] for a one-unit separator. *)
Fixpoint split (sep : N) (s : str) : list str :=
  match s with
  | [] => [[]]
  | c :: t =>
      if c =? sep then [] :: split sep t
      else match split sep t with
           | l :: ls => (c :: l) :: ls
           | [] => [[c]]
           end
  end.

(** [ls.join(sep)] *)
Fixpoint join (sep : str) (ls : list str) : str :=
  match ls with
  | [] => []
  | [l] => l
  | l :: ls' => l ++ sep ++ join sep ls'
  end.

(** [n.toString()] for a non-negative integer such as [Date.now()]. *)
Definition toString (n : N) : str := lit (NilEmpty.string_of_uint (N.to_uint n)).

End JS.

(** ** Reading a file as text

    [fs.readFileSync(path, 'utf-8')] decodes the bytes of the file as
    UTF-8.  A byte sequence that is not well-formed is replaced, one
    U+FFFD for each maximal well-formed prefix of a character, and so is
    a character cut short by the end of the file; the result is a string
    of UTF-16 code units. *)

Module Node.
Import JS.

Definition REPLACEMENT : N := 65533.

(** The code units of a code point. *)
Definition utf16 (cp : N) : str :=
  if cp <? 65536 then [cp]
  else [55296 + (cp - 65536) / 1024; 56320 + (cp - 65536) mod 1024].

(** A character that has begun: the continuation bytes still to come,
    the bits gathered, and the bounds of the next byte. *)
Record Pending : Type := mkPending {
  needed : nat;
  bits : N;
  lower : N;
  upper : N
}.

(** A byte met between characters: what it yields at once, and the
    character it begins. *)
Definition utf8Lead (b : N) : str * option Pending :=
  if b <=? 127 then ([b], None)
  else if (194 <=? b) && (b <=? 223) then ([], Some (mkPending 1 (b - 192) 128 191))
  else if (224 <=? b) && (b <=? 239) then
    ([], Some (mkPending 2 (b - 224) (if b =? 224 then 160 else 128)
                         (if b =? 237 then 159 else 191)))
  else if (240 <=? b) && (b <=? 244) then
    ([], Some (mkPending 3 (b - 240) (if b =? 240 then 144 else 128)
                         (if b =? 244 then 143 else 191)))
  else ([REPLACEMENT], None).

Fixpoint utf8DecodeFrom (pending : option Pending) (bytes : list N) : str :=
  match bytes with
  | [] => match pending with Some _ => [REPLACEMENT] | None => [] end
  | b :: rest =>
      match pending with
      | None =>
          let '(out, p) := utf8Lead b in out ++ utf8DecodeFrom p rest
      | Some p =>
          if (lower p <=? b) && (b <=? upper p) then
            let bits' := bits p * 64 + (b - 128) in
            match needed p with
            | S (S n) => utf8DecodeFrom (Some (mkPending (S n) bits' 128 191)) rest
            | _ => utf16 bits' ++ utf8DecodeFrom None rest
            end
          else
            let '(out, p') := utf8Lead b in
            REPLACEMENT :: out ++ utf8DecodeFrom p' rest
      end
  end.

(** [buffer.toString('utf-8')] *)
Definition utf8Decode (bytes : list N) : str := utf8DecodeFrom None bytes.

End Node.

(** ** Regular expressions

    A backtracking matcher with the priorities of ECMAScript: alternatives
    left to right, greedy quantifiers longest first, lazy ones shortest
    first.  Every quantified atom in the sources is a character class, so
    the quantifiers are over classes. *)

Module Regex.
Import JS.

Inductive regex : Type :=
| Lit (l : str)                  (* literal text *)
| Cls (p : N -> bool)            (* one code unit of a class *)
| Seq (r1 r2 : regex)            (* r1 r2 *)
| Alt (r1 r2 : regex)            (* r1|r2 *)
| Opt (r : regex)                (* r? *)
| Star (p : N -> bool)           (* [p]* *)
| Plus (p : N -> bool)           (* [p]+ *)
| LazyStar (p : N -> bool)       (* [p]*? *)
| Group (i : nat) (r : regex)    (* the i-th capturing group *)
| Eos.                           (* $ without the m flag *)

(** Captures by group number. *)
Abbreviation captures := (gmap nat str).

Section Matcher.
Context {R : Type}.

Fixpoint star_greedy (p : N -> bool) (s : str) (k : str -> option R) : option R :=
  match s with
  | c :: t =>
      if p c then
        match star_greedy p t k with
        | Some r => Some r
        | None => k s
        end
      else k s
  | [] => k []
  end.

Fixpoint star_lazy (p : N -> bool) (s : str) (k : str -> option R) : option R :=
  match k s with
  | Some r => Some r
  | None =>
      match s with
      | c :: t => if p c then star_lazy p t k else None
      | [] => None
      end
  end.

(** [rmatch r s caps k]: match [r] at the head of [s], then hand the
    rest of the input and the captures to the continuation [k];
    a [None] from [k] makes the matcher backtrack. *)
Fixpoint rmatch (r : regex) (s : str) (caps : captures)
         (k : str -> captures -> option R) : option R :=
  match r with
  | Lit l =>
      match stripPrefix l s with
      | Some t => k t caps
      | None => None
      end
  | Cls p =>
      match s with
      | c :: t => if p c then k t caps else None
      | [] => None
      end
  | Seq r1 r2 => rmatch r1 s caps (fun s' caps' => rmatch r2 s' caps' k)
  | Alt r1 r2 =>
      match rmatch r1 s caps k with
      | Some x => Some x
      | None => rmatch r2 s caps k
      end
  | Opt r1 =>
      match rmatch r1 s caps k with
      | Some x => Some x
      | None => k s caps
      end
  | Star p => star_greedy p s (fun s' => k s' caps)
  | Plus p =>
      match s with
      | c :: t => if p c then star_greedy p t (fun s' => k s' caps) else None
      | [] => None
      end
  | LazyStar p => star_lazy p s (fun s' => k s' caps)
  | Group i r1 =>
      rmatch r1 s caps
        (fun s' caps' => k s' (<[i := take (length s - length s') s]> caps'))
  | Eos =>
      match s with
      | [] => k [] caps
      | _ :: _ => None
      end
  end.
End Matcher.

(** A match: its text ([match[0]]), its groups, and the input after it. *)
Record Match : Type := mkMatch {
  matched : str;
  groups : captures;
  after : str
}.

(** The match of [r] anchored at the head of [s]. *)
Definition matchAt (r : regex) (s : str) : option Match :=
  rmatch r s ∅
    (fun s' caps => Some (mkMatch (take (length s - length s') s) caps s')).

(** The leftmost match of [r] in [s], with its index. *)
Fixpoint search (r : regex) (s : str) : option (nat * Match) :=
  match matchAt r s with
  | Some m => Some (O, m)
  | None =>
      match s with
      | [] => None
      | _ :: t =>
          match search r t with
          | Some (i, m) => Some (S i, m)
          | None => None
          end
      end
  end.

(** [re.test(s)] / [s.match(re) !== null] for a regex without flags. *)
Definition test (r : regex) (s : str) : bool :=
  match search r s with Some _ => true | None => false end.

(** [g i m]: the text of group [i], or [''] when it did not take part. *)
Definition group (i : nat) (m : Match) : str := default [] (groups m !! i).

(** [s.replace(re, '')] with the [g] flag.  The scan goes left to right;
    [skip] counts the units of the current match still to be dropped.
    An empty match removes nothing and the scan moves on by one unit. *)
Fixpoint removeAllFrom (r : regex) (s : str) (skip : nat) : str :=
  match s with
  | [] => []
  | c :: t =>
      match skip with
      | S k => removeAllFrom r t k
      | O =>
          match matchAt r s with
          | Some m =>
              match length (matched m) with
              | O => c :: removeAllFrom r t 0
              | S k => removeAllFrom r t k
              end
          | None => c :: removeAllFrom r t 0
          end
      end
  end.

Definition removeAll (r : regex) (s : str) : str := removeAllFrom r s 0.

Declare Scope regex_scope.
Delimit Scope regex_scope with re.
Infix ">>" := Seq (at level 60, right associativity) : regex_scope.

End Regex.

(** Where a match lies in its input: the continuation is only ever handed a
    suffix of the input, so a match splits its input in two.  The loops
    below that run a regex over a shrinking input terminate by this. *)

Section MatchSplits.
Import JS Regex.
Context {R : Type}.

Lemma stripPrefix_app (l s t : str) :
  stripPrefix l s = Some t -> s = l ++ t.
Proof.
  revert s; induction l as [|a l IH]; intros [|b s]; simpl; try congruence.
  destruct (N.eqb_spec a b); [|congruence].
  intros H. subst b. f_equal. now apply IH.
Qed.

Lemma stripPrefix_here (l t : str) : stripPrefix l (l ++ t) = Some t.
Proof. induction l as [|a l IH]; simpl; [reflexivity|]. now rewrite N.eqb_refl. Qed.

Lemma star_greedy_suffix p (s : str) (k : str -> option R) x :
  star_greedy p s k = Some x ->
  exists pre s', s = pre ++ s' /\ k s' = Some x.
Proof.
  induction s as [|c t IH]; simpl.
  - intros H. now exists [], [].
  - destruct (p c); [|intros H; now exists [], (c :: t)].
    destruct (star_greedy p t k) eqn:E.
    + intros H. destruct (IH H) as (pre & s' & -> & Hk).
      now exists (c :: pre), s'.
    + intros H. now exists [], (c :: t).
Qed.

Lemma star_lazy_suffix p (s : str) (k : str -> option R) x :
  star_lazy p s k = Some x ->
  exists pre s', s = pre ++ s' /\ k s' = Some x.
Proof.
  induction s as [|c t IH]; simpl.
  - destruct (k []) eqn:E; [|congruence]. intros H. exists [], []. split; [reflexivity|congruence].
  - destruct (k (c :: t)) eqn:E.
    + intros H. exists [], (c :: t). split; [reflexivity|congruence].
    + destruct (p c); [|congruence].
      intros H. destruct (IH H) as (pre & s' & -> & Hk).
      now exists (c :: pre), s'.
Qed.

Lemma rmatch_suffix (r : regex) :
  forall (s : str) caps (k : str -> captures -> option R) x,
    rmatch r s caps k = Some x ->
    exists pre s' caps', s = pre ++ s' /\ k s' caps' = Some x.
Proof.
  induction r as [l|p|r1 IH1 r2 IH2|r1 IH1 r2 IH2|r1 IH1|p|p|p|i r1 IH1|];
    intros s caps k x; simpl.
  - destruct (stripPrefix l s) as [t|] eqn:E; [|congruence].
    intros H. apply stripPrefix_app in E. now exists l, t, caps.
  - destruct s as [|c t]; [congruence|]. destruct (p c); [|congruence].
    intros H. now exists [c], t, caps.
  - intros H. destruct (IH1 _ _ _ _ H) as (pre1 & s1 & caps1 & -> & H1).
    destruct (IH2 _ _ _ _ H1) as (pre2 & s2 & caps2 & -> & H2).
    exists (pre1 ++ pre2), s2, caps2. split; [now rewrite <- app_assoc|assumption].
  - destruct (rmatch r1 s caps k) eqn:E.
    + intros H. apply (IH1 s caps k). congruence.
    + apply IH2.
  - destruct (rmatch r1 s caps k) eqn:E.
    + intros H. apply (IH1 s caps k). congruence.
    + intros H. now exists [], s, caps.
  - intros H. apply star_greedy_suffix in H as (pre & s' & -> & H).
    now exists pre, s', caps.
  - destruct s as [|c t]; [congruence|]. destruct (p c); [|congruence].
    intros H. apply star_greedy_suffix in H as (pre & s' & -> & H).
    now exists (c :: pre), s', caps.
  - intros H. apply star_lazy_suffix in H as (pre & s' & -> & H).
    now exists pre, s', caps.
  - intros H. destruct (IH1 _ _ _ _ H) as (pre & s' & caps' & -> & H1).
    eauto.
  - destruct s; [|congruence]. intros H. now exists [], [], caps.
Qed.
End MatchSplits.

Lemma matchAt_split (r : Regex.regex) (s : JS.str) (m : Regex.Match) :
  Regex.matchAt r s = Some m -> s = Regex.matched m ++ Regex.after m.
Proof.
  unfold Regex.matchAt. intros H.
  apply rmatch_suffix in H as (pre & s' & caps' & -> & H).
  injection H as <-. simpl.
  rewrite length_app, Nat.add_sub, take_app_length. reflexivity.
Qed.

Lemma search_split (r : Regex.regex) (s : JS.str) i (m : Regex.Match) :
  Regex.search r s = Some (i, m) ->
  s = take i s ++ Regex.matched m ++ Regex.after m /\ (i <= length s)%nat.
Proof.
  revert i; induction s as [|c t IH]; intros i; simpl.
  - destruct (Regex.matchAt r []) eqn:E; [|congruence].
    intros H; injection H as <- <-. split; [|lia].
    now apply matchAt_split in E.
  - destruct (Regex.matchAt r (c :: t)) eqn:E.
    + intros H; injection H as <- <-. split; [|simpl; lia].
      now apply matchAt_split in E.
    + destruct (Regex.search r t) as [[j m']|] eqn:E'; [|congruence].
      intros H; injection H as <- <-.
      destruct (IH _ eq_refl) as [IH1 IH2]. split; [|simpl; lia].
      simpl. f_equal. exact IH1.
Qed.

Lemma search_matchAt (r : Regex.regex) (s : JS.str) i (m : Regex.Match) :
  Regex.search r s = Some (i, m) -> Regex.matchAt r (drop i s) = Some m.
Proof.
  revert i; induction s as [|c t IH]; intros i; simpl.
  - destruct (Regex.matchAt r []) eqn:E; [|congruence].
    intros H; injection H as <- <-. exact E.
  - destruct (Regex.matchAt r (c :: t)) eqn:E.
    + intros H; injection H as <- <-. exact E.
    + destruct (Regex.search r t) as [[j m']|] eqn:E'; [|congruence].
      intros H; injection H as <- <-. simpl. now apply IH.
Qed.

(** A regex that opens with a non-empty literal never matches the empty
    string, so a loop that resumes after each match makes progress. *)
Lemma search_matched_nonempty (c : N) (l : JS.str) (r : Regex.regex) (s : JS.str) i m :
  Regex.search (Regex.Seq (Regex.Lit (c :: l)) r) s = Some (i, m) ->
  Regex.matched m <> [].
Proof.
  intros H. apply search_matchAt in H.
  unfold Regex.matchAt in H. cbn [Regex.rmatch] in H.
  destruct (JS.stripPrefix (c :: l) (drop i s)) as [t|] eqn:E; [|congruence].
  apply stripPrefix_app in E.
  apply rmatch_suffix in H as (pre & s' & caps' & -> & H).
  injection H as <-. simpl in *. rewrite E.
  intros Hnil. apply (f_equal length) in Hnil.
  rewrite length_take in Hnil. simpl in Hnil.
  rewrite !length_app in Hnil. lia.
Qed.

Lemma search_after_shorter (c : N) (l : JS.str) (r : Regex.regex) (s : JS.str) i m :
  Regex.search (Regex.Seq (Regex.Lit (c :: l)) r) s = Some (i, m) ->
  (length (Regex.after m) < length s)%nat.
Proof.
  intros H. pose proof (search_matched_nonempty _ _ _ _ _ _ H) as Hne.
  apply search_split in H as [Hs Hi].
  apply (f_equal length) in Hs. rewrite !length_app, length_take in Hs.
  destruct (Regex.matched m); [congruence|]. simpl in Hs. lia.
Qed.

(** ** The side-log channel: outputWatcher.ts *)

Module OutputWatcher.
Import JS Regex.

Record CellOutput : Type := mkCellOutput {
  type : str;
  content : str;
  cellId : str
}.

Record YamlOptions : Type := mkYamlOptions {
  echo : bool;
  message : bool;
  warning : bool;
  error : bool
}.

(** [Partial<YamlOptions>]: [None] is an absent key. *)
Record PartialYamlOptions : Type := mkPartialYamlOptions {
  echo_opt : option bool;
  message_opt : option bool;
  warning_opt : option bool;
  error_opt : option bool
}.

Definition defaultYamlOptions : YamlOptions :=
  {| echo := true; message := true; warning := true; error := true |}.

(** [{ ...base, ...over }] *)
Definition spread (base : YamlOptions) (over : PartialYamlOptions) : YamlOptions :=
  {| echo := default (echo base) (echo_opt over);
     message := default (message base) (message_opt over);
     warning := default (warning base) (warning_opt over);
     error := default (error base) (error_opt over) |}.

(** The closure [(outputs) => resolve(this.filterOutputs(outputs, options))]
    that [waitForCell] registers: the promise it resolves and the options
    it captured. *)
Record Callback : Type := mkCallback {
  cb_promise : nat;
  cb_options : YamlOptions
}.

(** The watcher object.  [settled] is the table of the promises handed out
    by [waitForCell] that have been resolved, with their values. *)
Record Watcher : Type := mkWatcher {
  lastPosition : nat;
  pendingContent : str;
  cellOutputs : gmap str (list CellOutput);
  cellCallbacks : gmap str Callback;
  settled : gmap nat (list CellOutput);
  nextPromise : nat
}.

Definition newWatcher : Watcher :=
  {| lastPosition := 0; pendingContent := []; cellOutputs := ∅;
     cellCallbacks := ∅; settled := ∅; nextPromise := 0 |}.

(** [resolve(v)]: a promise settles once, later calls do nothing. *)
Definition resolve (p : nat) (v : list CellOutput)
           (tbl : gmap nat (list CellOutput)) : gmap nat (list CellOutput) :=
  match tbl !! p with
  | Some _ => tbl
  | None => <[p := v]> tbl
  end.

(** [start()]: the positions are reset; the two maps are kept. *)
Definition start (w : Watcher) : Watcher :=
  {| lastPosition := 0; pendingContent := [];
     cellOutputs := cellOutputs w; cellCallbacks := cellCallbacks w;
     settled := settled w; nextPromise := nextPromise w |}.

Definition filterOutputs (outputs : list CellOutput) (options : YamlOptions)
  : list CellOutput :=
  List.filter (fun output =>
    if decide (type output = lit "MESSAGE") then message options
    else if decide (type output = lit "WARNING") then warning options
    else if decide (type output = lit "ERROR") then error options
    else if decide (type output = lit "CELL_START") then false
    else if decide (type output = lit "CELL_END") then false
    else true) outputs.

Definition waitForCell (id : str) (yamlOptions : PartialYamlOptions)
           (w : Watcher) : Watcher * nat :=
  let options := spread defaultYamlOptions yamlOptions in
  let p := nextPromise w in
  let complete :=
    match cellOutputs w !! id with
    | Some existing =>
        if existsb (fun o => bool_decide (type o = lit "CELL_END")) existing
        then Some existing else None
    | None => None
    end in
  match complete with
  | Some existing =>
      ({| lastPosition := lastPosition w; pendingContent := pendingContent w;
          cellOutputs := cellOutputs w; cellCallbacks := cellCallbacks w;
          settled := resolve p (filterOutputs existing options) (settled w);
          nextPromise := S p |}, p)
  | None =>
      ({| lastPosition := lastPosition w; pendingContent := pendingContent w;
          cellOutputs := cellOutputs w;
          cellCallbacks := <[id := mkCallback p options]> (cellCallbacks w);
          settled := settled w;
          nextPromise := S p |}, p)
  end.

(** [/###(\w+):([^#]+)###\n([\s\S]*?)\n###END###/g] *)
Definition blockRegex : regex :=
  Seq (Lit (lit "###"))
 (Seq (Group 1 (Plus isWord))
 (Seq (Lit (lit ":"))
 (Seq (Group 2 (Plus (isNot HASH)))
 (Seq (Lit (lit "###" ++ [LF]))
 (Seq (Group 3 (LazyStar isAny))
      (Lit (LF :: lit "###END###"))))))).

(** The [output] object built from a match. *)
Definition blockOutput (m : Match) : CellOutput :=
  {| type := group 1 m;
     content := trim (group 3 m);
     cellId := trim (group 2 m) |}.

(** The body of the [while] loop after [output] is built: store it, and
    on CELL_END call and delete the cell's callback. *)
Definition storeOutput (output : CellOutput) (w : Watcher) : Watcher :=
  let outputs := default [] (cellOutputs w !! cellId output) ++ [output] in
  let stored := <[cellId output := outputs]> (cellOutputs w) in
  if decide (type output = lit "CELL_END") then
    match cellCallbacks w !! cellId output with
    | Some callback =>
        {| lastPosition := lastPosition w; pendingContent := pendingContent w;
           cellOutputs := stored;
           cellCallbacks := delete (cellId output) (cellCallbacks w);
           settled := resolve (cb_promise callback)
                        (filterOutputs outputs (cb_options callback)) (settled w);
           nextPromise := nextPromise w |}
    | None =>
        {| lastPosition := lastPosition w; pendingContent := pendingContent w;
           cellOutputs := stored; cellCallbacks := cellCallbacks w;
           settled := settled w; nextPromise := nextPromise w |}
    end
  else
    {| lastPosition := lastPosition w; pendingContent := pendingContent w;
       cellOutputs := stored; cellCallbacks := cellCallbacks w;
       settled := settled w; nextPromise := nextPromise w |}.

Lemma blockRegex_progress (rest : str) i m :
  search blockRegex rest = Some (i, m) -> (length (after m) < length rest)%nat.
Proof. exact (search_after_shorter HASH [HASH; HASH] _ rest i m). Qed.

Definition inspect {A} (a : A) : {b : A | a = b} := exist _ a eq_refl.

(** [while ((match = blockRegex.exec(pending)) !== null) { ... }]: [rest]
    is the input from [lastIndex] on, [log] the outputs parsed so far.
    The result carries the input left after the last match, which is
    [pending.slice(lastMatchEnd)] (all of it when nothing matched). *)
Equations? blockLoop (rest : str) (w : Watcher) (log : list CellOutput)
  : Watcher * list CellOutput * str by wf (length rest) lt :=
  blockLoop rest w log with inspect (search blockRegex rest) := {
    | exist _ (Some (_, m)) _ =>
        blockLoop (after m) (storeOutput (blockOutput m) w) (log ++ [blockOutput m])
    | exist _ None _ => (w, log, rest) }.
Proof. eapply blockRegex_progress. eassumption. Qed.

(** [processNewOutput()], on the file as read ([None]: the file does not
    exist or cannot be read).  Returns the outputs parsed by this call, in
    order, next to the new state. *)
Definition processNewOutput (file : option str) (w : Watcher)
  : Watcher * list CellOutput :=
  match file with
  | None => (w, [])
  | Some fileContent =>
      let newContent := drop (lastPosition w) fileContent in
      let position := length fileContent in
      match newContent with
      | [] =>
          ({| lastPosition := position; pendingContent := pendingContent w;
              cellOutputs := cellOutputs w; cellCallbacks := cellCallbacks w;
              settled := settled w; nextPromise := nextPromise w |}, [])
      | _ :: _ =>
          let pending := pendingContent w ++ newContent in
          let w1 :=
            {| lastPosition := position; pendingContent := pending;
               cellOutputs := cellOutputs w; cellCallbacks := cellCallbacks w;
               settled := settled w; nextPromise := nextPromise w |} in
          match trim pending with
          | [] => (w1, [])
          | _ :: _ =>
              let '(w2, log, rest) := blockLoop pending w1 [] in
              ({| lastPosition := lastPosition w2; pendingContent := rest;
                  cellOutputs := cellOutputs w2; cellCallbacks := cellCallbacks w2;
                  settled := settled w2; nextPromise := nextPromise w2 |}, log)
          end
      end
  end.

Definition clearCellOutput (id : str) (w : Watcher) : Watcher :=
  {| lastPosition := lastPosition w; pendingContent := pendingContent w;
     cellOutputs := delete id (cellOutputs w); cellCallbacks := cellCallbacks w;
     settled := settled w; nextPromise := nextPromise w |}.

(** *** cellOutputsToNotebookOutput *)

(** The file system, as far as the extension reads and deletes image
    files: a path holds the bytes of a file. *)
Abbreviation FS := (gmap str (list N)).

Inductive NotebookCellOutputItem : Type :=
| ItemText (value mime : str)           (* NotebookCellOutputItem.text(value, mime) *)
| ItemData (data : list N) (mime : str) (* new NotebookCellOutputItem(data, mime) *)
| ItemError (message : str).            (* NotebookCellOutputItem.error(new Error(message)) *)

(** [new vscode.NotebookCellOutput(items)] *)
Record NotebookCellOutput : Type := mkNotebookCellOutput {
  items : list NotebookCellOutputItem
}.

(** One turn of the [for] loop: what is pushed for [output].  The file
    system is handed back as the loop leaves it; the PLOT case reads the
    file ([readFileSync] throws when it cannot, and the [catch] pushes
    nothing). *)
Definition notebookOutputOf (output : CellOutput) (fs : FS)
  : list NotebookCellOutput * FS :=
  if bool_decide (type output = lit "OUTPUT")
     || bool_decide (type output = lit "MESSAGE")
     || bool_decide (type output = lit "WARNING")
     || bool_decide (type output = lit "ERROR")
  then
    let mimeType :=
      if bool_decide (type output = lit "ERROR")
      then lit "application/vnd.code.notebook.stderr" else lit "text/plain" in
    ([mkNotebookCellOutput [ItemText (content output) mimeType]], fs)
  else if bool_decide (type output = lit "PLOT") then
    match fs !! content output with
    | Some imageData => ([mkNotebookCellOutput [ItemData imageData (lit "image/png")]], fs)
    | None => ([], fs)
    end
  else if bool_decide (type output = lit "HTML") then
    ([mkNotebookCellOutput [ItemText (content output) (lit "text/html")]], fs)
  else ([], fs).

Fixpoint cellOutputsToNotebookOutput (outputs : list CellOutput) (fs : FS)
  : list NotebookCellOutput * FS :=
  match outputs with
  | [] => ([], fs)
  | output :: rest =>
      let '(here, fs1) := notebookOutputOf output fs in
      let '(more, fs2) := cellOutputsToNotebookOutput rest fs1 in
      (here ++ more, fs2)
  end.

End OutputWatcher.

(** ** The notebook controller of the side-log channel

    [QuartoNotebookController] in its side-log variant: it owns an
    [OutputWatcher], sends [.quarto_eval_cell(...)] to a terminal and races
    the watcher's promise against a 60 s timer. *)

Module QuartoNotebookController.
Import JS Regex OutputWatcher.

Record Controller : Type := mkController {
  outputWatcher : Watcher;
  terminalInput : list str;   (* the texts given to terminal.sendText, in order *)
  rSetupSourced : bool;
  executionOrder : nat
}.

Definition newController : Controller :=
  {| outputWatcher := newWatcher; terminalInput := [];
     rSetupSourced := false; executionOrder := 0 |}.

Definition QUOTE : N := 34.
Definition BACKSLASH : N := 92.

(** [s.replace(/c/g, by)] for a one-unit pattern. *)
Definition replaceUnit (c : N) (by_ : str) (s : str) : str :=
  flat_map (fun x => if x =? c then by_ else [x]) s.

(** [source("<outputDir>/quarto_setup.R")] *)
Definition sourceCommand (outputDir : str) : str :=
  lit "source(" ++ [QUOTE]
  ++ replaceUnit BACKSLASH (lit "/") (outputDir ++ lit "/quarto_setup.R")
  ++ [QUOTE] ++ lit ")".

(** *** ensureRSetup

    What the environment shows to one call: whether [getOrCreateTerminal]
    had to create a terminal, whether the terminal has exited, whether
    the ready file exists on entry, and then one [ReadyPoll] per turn of
    the waiting loop. *)
Record ReadyPoll : Type := mkReadyPoll {
  readyExists : bool;       (* fs.existsSync(readyFile) in the loop condition *)
  elapsed : N;              (* Date.now() - startTime, in ms *)
  readyAfterRetry : bool    (* fs.existsSync(readyFile) after the retry's 5 s *)
}.

Record SetupEnv : Type := mkSetupEnv {
  terminalCreated : bool;
  terminalExited : bool;
  readyAtEntry : bool;
  polls : list ReadyPoll
}.

Inductive SetupOutcome : Type :=
| SetupReturned                 (* the promise of ensureRSetup resolved *)
| SetupThrew (message : str)    (* it rejected *)
| SetupWaiting.                 (* it is still in the loop when the polls end *)

Definition setupTimeout : N := 30000.

(** The [while (!fs.existsSync(readyFile))] loop. *)
Fixpoint waitReady (outputDir : str) (ps : list ReadyPoll) (sent : list str)
  : SetupOutcome * list str :=
  match ps with
  | [] => (SetupWaiting, sent)
  | p :: ps' =>
      if readyExists p then (SetupReturned, sent)
      else if setupTimeout <? elapsed p then
        let sent' := sent ++ [sourceCommand outputDir] in
        if readyAfterRetry p then waitReady outputDir ps' sent'
        else (SetupThrew
                (lit "Timeout waiting for R setup to complete. Make sure R is running in the terminal."),
              sent')
      else waitReady outputDir ps' sent
  end.

(** The setup script's text and the setup and ready files themselves are
    left out: the ready file is seen through [SetupEnv]. *)
Definition ensureRSetup (outputDir : str) (env : SetupEnv) (c : Controller)
  : Controller * SetupOutcome :=
  let sourced0 := if terminalCreated env then false else rSetupSourced c in
  let sourced1 := if sourced0 && terminalExited env then false else sourced0 in
  let sourced2 := if sourced1 && negb (readyAtEntry env) then false else sourced1 in
  if sourced2 then
    ({| outputWatcher := outputWatcher c; terminalInput := terminalInput c;
        rSetupSourced := true; executionOrder := executionOrder c |}, SetupReturned)
  else
    let w := start (outputWatcher c) in
    let sent := terminalInput c ++ [sourceCommand outputDir] in
    let '(outcome, sent') := waitReady outputDir (polls env) sent in
    ({| outputWatcher := w; terminalInput := sent';
        rSetupSourced := match outcome with SetupReturned => true | _ => false end;
        executionOrder := executionOrder c |}, outcome).

(** *** executeSingleCell *)

(** [`cell_${Date.now()}_${Math.random().toString(36).substr(2, 9)}`]:
    [now] is the clock reading and [rnd] the nine base-36 digits drawn. *)
Definition cellIdOf (now : N) (rnd : str) : str :=
  lit "cell_" ++ toString now ++ lit "_" ++ rnd.

Definition escapeCode (code : str) : str :=
  replaceUnit LF (lit "\n")
    (replaceUnit QUOTE [BACKSLASH; QUOTE]
       (replaceUnit BACKSLASH [BACKSLASH; BACKSLASH] code)).

Definition evalCommand (code cellId : str) : str :=
  lit ".quarto_eval_cell(" ++ [QUOTE] ++ escapeCode code ++ [QUOTE]
  ++ lit ", " ++ [QUOTE] ++ cellId ++ [QUOTE] ++ lit ")".

(** What happens while [Promise.race] is awaited: the watcher's interval
    polls the file, or the 60 s timer fires. *)
Inductive Event : Type :=
| Poll (file : option str)
| Timeout.

Inductive Settlement : Type :=
| Resolved (outputs : list CellOutput)
| Rejected (message : str).

(** [Promise.race([waitForCell(...), timeoutPromise])]: the first of the
    two to settle wins; [None] when neither has settled when the events
    end. *)
Fixpoint race (events : list Event) (p : nat) (w : Watcher)
  : Watcher * option Settlement :=
  match settled w !! p with
  | Some outputs => (w, Some (Resolved outputs))
  | None =>
      match events with
      | [] => (w, None)
      | Poll file :: events' => race events' p (fst (processNewOutput file w))
      | Timeout :: _ => (w, Some (Rejected (lit "Execution timeout")))
      end
  end.

(** The cell execution object: the output last set by [replaceOutput] and
    the argument of [end], once called. *)
Record Execution : Type := mkExecution {
  order : nat;
  replaced : list NotebookCellOutput;
  ended : option bool
}.

Definition failed (n : nat) (message : str) : Execution :=
  {| order := n; replaced := [mkNotebookCellOutput [ItemError message]];
     ended := Some false |}.

Definition allOptions (o : YamlOptions) : PartialYamlOptions :=
  {| echo_opt := Some (echo o); message_opt := Some (message o);
     warning_opt := Some (warning o); error_opt := Some (error o) |}.

Definition executeSingleCell (outputDir : str) (env : SetupEnv) (now : N) (rnd : str)
           (code : str) (yamlOptions : YamlOptions) (events : list Event)
           (c : Controller) (fs : FS) : Controller * Execution * FS :=
  let n := S (executionOrder c) in
  let '(c1, outcome) := ensureRSetup outputDir env c in
  let c1 := {| outputWatcher := outputWatcher c1; terminalInput := terminalInput c1;
               rSetupSourced := rSetupSourced c1; executionOrder := n |} in
  match outcome with
  | SetupWaiting => (c1, mkExecution n [] None, fs)
  | SetupThrew message => (c1, failed n message, fs)
  | SetupReturned =>
      let cellId := cellIdOf now rnd in
      let w1 := clearCellOutput cellId (outputWatcher c1) in
      let sent := terminalInput c1 ++ [evalCommand code cellId] in
      let '(w2, p) := waitForCell cellId (allOptions yamlOptions) w1 in
      let '(w3, settlement) := race events p w2 in
      let c3 := {| outputWatcher := w3; terminalInput := sent;
                   rSetupSourced := rSetupSourced c1; executionOrder := n |} in
      match settlement with
      | None => (c3, mkExecution n [] None, fs)
      | Some (Rejected message) => (c3, failed n message, fs)
      | Some (Resolved outputs) =>
          let '(notebookOutputs, fs') := cellOutputsToNotebookOutput outputs fs in
          (c3, mkExecution n notebookOutputs (Some true), fs')
      end
  end.

End QuartoNotebookController.


Lemma removeFirst_length (x a b : JS.str) :
  (length (JS.removeFirst x (a ++ x ++ b)) + length x = length (a ++ x ++ b))%nat.
Proof.
  induction a as [|c a IH].
  - cbn [app]. destruct (x ++ b) as [|y t] eqn:E.
    + destruct x; [reflexivity|discriminate].
    + cbn [JS.removeFirst]. rewrite <- E, stripPrefix_here, length_app. lia.
  - change ((c :: a) ++ x ++ b) with (c :: (a ++ x ++ b)). cbn [JS.removeFirst].
    destruct (JS.stripPrefix x (c :: a ++ x ++ b)) as [t|] eqn:E.
    + apply stripPrefix_app in E. rewrite E, length_app. lia.
    + cbn [length]. lia.
Qed.

(** Removing the text of a match from the buffer it was found in makes
    the buffer shorter: the two [exec] loops of [parseOutputBuffer] end. *)
Lemma removeFirst_match_shorter (c : N) (l : JS.str) (r : Regex.regex)
      (buffer : JS.str) (lastIndex i : nat) (m : Regex.Match) :
  Regex.search (Regex.Seq (Regex.Lit (c :: l)) r) (drop lastIndex buffer) = Some (i, m) ->
  (length (JS.removeFirst (Regex.matched m) buffer) < length buffer)%nat.
Proof.
  intros H. pose proof (search_matched_nonempty _ _ _ _ _ _ H) as Hne.
  apply search_split in H as [Hs _].
  assert (buffer = (take lastIndex buffer ++ take i (drop lastIndex buffer))
                   ++ Regex.matched m ++ Regex.after m) as E.
  { rewrite <- app_assoc, <- Hs. now rewrite take_drop. }
  pose proof (removeFirst_length (Regex.matched m)
                (take lastIndex buffer ++ take i (drop lastIndex buffer))
                (Regex.after m)) as L.
  rewrite <- E in L. destruct (Regex.matched m); [congruence|]. simpl in L. lia.
Qed.

(** ** The direct-scrape channel: rPseudoterminalSimple.ts *)

Module RPseudoterminalSimple.
Import JS Regex.
Local Open Scope regex_scope.

Abbreviation FS := (gmap str (list N)).

Inductive OutputType : Type := text | html | image | error.

Record OutputData : Type := mkOutputData {
  type : OutputType;
  content : str;
  mimeType : option str
}.

(** The pseudoterminal object.  Next to the fields of the class:
    [hasStdin] says that [open] has spawned R ([this.rProcess?.stdin] is
    there) and [stdin] lists what was written to it; [waiting] holds the
    [executeCode] calls suspended at [await this.readyPromise]; [timers]
    counts the 3 s timers set by [executeCode] that have not fired;
    [settled] is the table of resolved [executeCode] promises.  The
    terminal display ([writeEmitter]) is left out. *)
Record Pty : Type := mkPty {
  hasStdin : bool;
  stdin : list str;
  outputBuffer : str;
  isExecuting : bool;
  pendingResolve : option nat;
  currentOutputs : list OutputData;
  isReady : bool;
  currentEndMarker : option str;
  waiting : list (nat * str);
  timers : nat;
  settled : gmap nat (list OutputData);
  nextPromise : nat
}.

Definition newPty : Pty :=
  {| hasStdin := false; stdin := []; outputBuffer := []; isExecuting := false;
     pendingResolve := None; currentOutputs := []; isReady := false;
     currentEndMarker := None; waiting := []; timers := 0;
     settled := ∅; nextPromise := 0 |}.

Definition commandMarker : str := lit ".quarto_exec_id_".
Definition endMarker : str := lit "_complete".
Definition htmlStartMarker : str := lit "###QUARTO_HTML_START###".
Definition htmlEndMarker : str := lit "###QUARTO_HTML_END###".

Definition QUOTE : N := 34.

(** [imageData.toString('base64')] *)
Definition base64Alphabet : str :=
  lit "ABCDEFGHIJKLMNOPQRSTUVWXYZabcdefghijklmnopqrstuvwxyz0123456789+/".

Definition base64Digit (n : N) : N := nth (N.to_nat n) base64Alphabet 0.

Fixpoint base64 (bytes : list N) : str :=
  match bytes with
  | [] => []
  | [a] =>
      [base64Digit (a / 4); base64Digit ((a mod 4) * 16); 61; 61]
  | [a; b] =>
      [base64Digit (a / 4); base64Digit ((a mod 4) * 16 + b / 16);
       base64Digit ((b mod 16) * 4); 61]
  | a :: b :: c :: rest =>
      [base64Digit (a / 4); base64Digit ((a mod 4) * 16 + b / 16);
       base64Digit ((b mod 16) * 4 + c / 64); base64Digit (c mod 64)]
      ++ base64 rest
  end.

(** *** parseOutputBuffer *)

(** [/>\s*\.quarto_exec_id_\d+(_complete)?\s*<-\s*TRUE\s*\n?/g] *)
Definition markerEchoRegex : regex :=
  Lit (lit ">") >> Star isWhiteSpace >> Lit (lit ".quarto_exec_id_") >> Plus isDigit
  >> Opt (Group 1 (Lit (lit "_complete"))) >> Star isWhiteSpace >> Lit (lit "<-")
  >> Star isWhiteSpace >> Lit (lit "TRUE") >> Star isWhiteSpace >> Opt (Lit [LF]).

(** [/>\s*\.quarto_capture_(plots|html)\(expression\(\{\s*\n?/g] *)
Definition wrapperEchoRegex : regex :=
  Lit (lit ">") >> Star isWhiteSpace >> Lit (lit ".quarto_capture_")
  >> Group 1 (Alt (Lit (lit "plots")) (Lit (lit "html")))
  >> Lit (lit "(expression({") >> Star isWhiteSpace >> Opt (Lit [LF]).

(** [/>\s*\+\s*\}\)\)\s*\n?/g] *)
Definition wrapperCloseRegex : regex :=
  Lit (lit ">") >> Star isWhiteSpace >> Lit (lit "+") >> Star isWhiteSpace
  >> Lit (lit "}))") >> Star isWhiteSpace >> Opt (Lit [LF]).

(** [/\.quarto_exec_id_\d+(_complete)?\s*<-\s*TRUE/] *)
Definition markerLineRegex : regex :=
  Lit (lit ".quarto_exec_id_") >> Plus isDigit
  >> Opt (Group 1 (Lit (lit "_complete"))) >> Star isWhiteSpace >> Lit (lit "<-")
  >> Star isWhiteSpace >> Lit (lit "TRUE").

(** [/^>\s*$/], matched at the head of the line only. *)
Definition barePromptRegex : regex := Lit (lit ">") >> Star isWhiteSpace >> Eos.

(** [/###QUARTO_PLOT###([^#]+)###END_PLOT###/g] *)
Definition plotRegex : regex :=
  Lit (lit "###QUARTO_PLOT###") >> Group 1 (Plus (isNot HASH)) >> Lit (lit "###END_PLOT###").

(** [new RegExp(`${htmlStartMarker}([\\s\\S]*?)${htmlEndMarker}`, 'g')] *)
Definition htmlRegex : regex :=
  Lit htmlStartMarker >> Group 1 (LazyStar isAny) >> Lit htmlEndMarker.

(** The lines that the first [for] loop keeps. *)
Definition keepLine (line : str) : bool :=
  if test markerLineRegex line then false
  else if startsWith (lit "> ") line || startsWith (lit "+ ") line
          || bool_decide (is_Some (matchAt barePromptRegex line)) then false
  else negb (bool_decide (trim line = [])).

(** The body of the plot loop: read the file, push the image, unlink. *)
Definition readPlot (plotPath : str) (outputs : list OutputData) (fs : FS)
  : list OutputData * FS :=
  match fs !! plotPath with
  | Some imageData =>
      (outputs ++ [mkOutputData image (base64 imageData) (Some (lit "image/png"))],
       delete plotPath fs)
  | None => (outputs, fs)
  end.

Definition inspect {A} (a : A) : {b : A | a = b} := exist _ a eq_refl.

(** [while ((plotMatch = plotRegex.exec(buffer)) !== null) { ... }]: the
    regex keeps its [lastIndex] while the loop body cuts the match out of
    [buffer]. *)
Equations? plotLoop (buffer : str) (lastIndex : nat) (outputs : list OutputData)
           (fs : FS) : str * list OutputData * FS by wf (length buffer) lt :=
  plotLoop buffer lastIndex outputs fs
    with inspect (search plotRegex (drop lastIndex buffer)) := {
    | exist _ (Some (i, m)) _ =>
        plotLoop (removeFirst (matched m) buffer)
                 (lastIndex + i + length (matched m))
                 (fst (readPlot (trim (group 1 m)) outputs fs))
                 (snd (readPlot (trim (group 1 m)) outputs fs))
    | exist _ None _ => (buffer, outputs, fs) }.
Proof.
  eapply (removeFirst_match_shorter HASH (lit "##QUARTO_PLOT###")). eassumption.
Qed.

Equations? htmlLoop (buffer : str) (lastIndex : nat) (outputs : list OutputData)
  : str * list OutputData by wf (length buffer) lt :=
  htmlLoop buffer lastIndex outputs
    with inspect (search htmlRegex (drop lastIndex buffer)) := {
    | exist _ (Some (i, m)) _ =>
        htmlLoop (removeFirst (matched m) buffer)
                 (lastIndex + i + length (matched m))
                 (outputs ++ [mkOutputData html (trim (group 1 m)) (Some (lit "text/html"))])
    | exist _ None _ => (buffer, outputs) }.
Proof.
  eapply (removeFirst_match_shorter HASH (lit "##QUARTO_HTML_START###")). eassumption.
Qed.

(** What is pushed for the text left after the plots and the HTML. *)
Definition remainingText (buffer : str) : list OutputData :=
  match buffer with
  | [] => []
  | _ :: _ =>
      if includes (lit "Error:") buffer || includes (lit "Error in") buffer then
        [mkOutputData error buffer None]
      else
        let cleanedLines :=
          List.filter
            (fun line => negb (bool_decide (line = lit ">"))
                         && negb (bool_decide (line = lit "+"))
                         && negb (bool_decide (trim line = [])))
            (split LF buffer) in
        match cleanedLines with
        | [] => []
        | _ :: _ => [mkOutputData text (join [LF] cleanedLines) None]
        end
  end.

(** [parseOutputBuffer] on [this.outputBuffer] and [this.currentOutputs]
    (the buffer is emptied by the caller below). *)
Definition parseOutputBuffer (outputBuffer : str) (currentOutputs : list OutputData)
           (fs : FS) : list OutputData * FS :=
  let buffer := removeAll markerEchoRegex outputBuffer in
  let buffer := removeAll wrapperEchoRegex buffer in
  let buffer := removeAll wrapperCloseRegex buffer in
  let outputLines := List.filter keepLine (split LF buffer) in
  let buffer := trim (join [LF] outputLines) in
  let '(buffer, outputs, fs') := plotLoop buffer 0 currentOutputs fs in
  let '(buffer, outputs) := htmlLoop buffer 0 outputs in
  (outputs ++ remainingText (trim buffer), fs').

(** *** The methods *)

Definition finishExecution (st : Pty) (fs : FS) : Pty * FS :=
  if negb (isExecuting st) then (st, fs)
  else
    let '(outputs, fs') := parseOutputBuffer (outputBuffer st) (currentOutputs st) fs in
    ({| hasStdin := hasStdin st; stdin := stdin st; outputBuffer := [];
        isExecuting := false; pendingResolve := None; currentOutputs := outputs;
        isReady := isReady st; currentEndMarker := currentEndMarker st;
        waiting := waiting st; timers := timers st;
        settled := match pendingResolve st with
                   | Some p =>
                       match settled st !! p with
                       | Some _ => settled st
                       | None => <[p := outputs]> (settled st)
                       end
                   | None => settled st
                   end;
        nextPromise := nextPromise st |}, fs').

Definition checkForCommandEnd (st : Pty) (fs : FS) : Pty * FS :=
  match currentEndMarker st with
  | Some marker =>
      if negb (bool_decide (marker = [])) && includes marker (outputBuffer st)
      then finishExecution st fs else (st, fs)
  | None => (st, fs)
  end.

Definition appendBuffer (chunk : str) (st : Pty) : Pty :=
  {| hasStdin := hasStdin st; stdin := stdin st;
     outputBuffer := outputBuffer st ++ chunk;
     isExecuting := isExecuting st; pendingResolve := pendingResolve st;
     currentOutputs := currentOutputs st; isReady := isReady st;
     currentEndMarker := currentEndMarker st; waiting := waiting st;
     timers := timers st; settled := settled st; nextPromise := nextPromise st |}.

(** The [data] handler of stdout. *)
Definition onStdout (chunk : str) (st : Pty) (fs : FS) : Pty * FS :=
  if isExecuting st then checkForCommandEnd (appendBuffer chunk st) fs else (st, fs).

(** The [data] handler of stderr. *)
Definition onStderr (chunk : str) (st : Pty) (fs : FS) : Pty * FS :=
  if isExecuting st then (appendBuffer chunk st, fs) else (st, fs).

Definition write (data : list str) (st : Pty) : Pty :=
  {| hasStdin := hasStdin st; stdin := stdin st ++ data;
     outputBuffer := outputBuffer st;
     isExecuting := isExecuting st; pendingResolve := pendingResolve st;
     currentOutputs := currentOutputs st; isReady := isReady st;
     currentEndMarker := currentEndMarker st; waiting := waiting st;
     timers := timers st; settled := settled st; nextPromise := nextPromise st |}.

Definition handleInput (data : str) (st : Pty) : Pty :=
  if hasStdin st && negb (isExecuting st) then write [data] st else st.

Definition needsHtmlWrapper (code : str) : bool :=
  includes (lit "gt()") code || includes (lit "htmlwidgets") code
  || includes (lit "plotly") code || includes (lit "DT::datatable") code.

Definition needsPlotWrapper (code : str) : bool :=
  includes (lit "plot(") code || includes (lit "ggplot(") code
  || includes (lit "hist(") code || includes (lit "boxplot(") code
  || includes (lit "barplot(") code || includes (lit "scatter") code.

(** [Date.now().toString()] *)
Definition execId (now : N) : str := toString now.

Definition startMarkerOf (now : N) : str := commandMarker ++ execId now.
Definition endMarkerOf (now : N) : str := startMarkerOf now ++ endMarker.

(** The three writes of [executeCode] to R's stdin. *)
Definition instrumented (now : N) (code : str) : list str :=
  [ startMarkerOf now ++ lit " <- TRUE" ++ [LF];
    (if needsPlotWrapper code then
       lit ".quarto_capture_plots(expression({" ++ [LF] ++ code ++ [LF] ++ lit "}))" ++ [LF]
     else if needsHtmlWrapper code then
       lit ".quarto_capture_html(expression({" ++ [LF] ++ code ++ [LF] ++ lit "}))" ++ [LF]
     else code ++ [LF]);
    endMarkerOf now ++ lit " <- TRUE" ++ [LF] ].

(** The executor of the promise that [executeCode] returns, run once
    [readyPromise] is resolved; [p] is that promise and [now] the clock. *)
Definition executeBody (now : N) (code : str) (p : nat) (st : Pty) : Pty :=
  {| hasStdin := hasStdin st;
     stdin := if hasStdin st then stdin st ++ instrumented now code else stdin st;
     outputBuffer := [];
     isExecuting := true;
     pendingResolve := Some p;
     currentOutputs := [];
     isReady := isReady st;
     currentEndMarker :=
       if hasStdin st then Some (endMarkerOf now) else currentEndMarker st;
     waiting := waiting st;
     timers := S (timers st);
     settled := settled st;
     nextPromise := nextPromise st |}.

(** [executeCode(code)]: the call returns promise [nextPromise st]; its
    body runs at once when the session is ready and waits otherwise. *)
Definition executeCode (now : N) (code : str) (st : Pty) : Pty :=
  let p := nextPromise st in
  let st1 :=
    {| hasStdin := hasStdin st; stdin := stdin st; outputBuffer := outputBuffer st;
       isExecuting := isExecuting st; pendingResolve := pendingResolve st;
       currentOutputs := currentOutputs st; isReady := isReady st;
       currentEndMarker := currentEndMarker st;
       waiting := if isReady st then waiting st else waiting st ++ [(p, code)];
       timers := timers st; settled := settled st; nextPromise := S p |} in
  if isReady st then executeBody now code p st1 else st1.

(** [open()]: R is spawned and [setupREnvironment] sources the setup
    script (the text of the script, the setup file and the directory of
    temporary files in its path are left out). *)
Definition setupCommand : str :=
  lit "source(" ++ [QUOTE] ++ lit "quarto_setup.R" ++ [QUOTE] ++ lit ", echo = FALSE)" ++ [LF].

Definition open (st : Pty) : Pty :=
  {| hasStdin := true; stdin := stdin st ++ [setupCommand];
     outputBuffer := outputBuffer st;
     isExecuting := isExecuting st; pendingResolve := pendingResolve st;
     currentOutputs := currentOutputs st; isReady := isReady st;
     currentEndMarker := currentEndMarker st; waiting := waiting st;
     timers := timers st; settled := settled st; nextPromise := nextPromise st |}.

(** The 1500 ms timer of [setupREnvironment]: [isReady] is set and
    [readyResolve] lets the waiting [executeCode] calls run, in order,
    within the same turn ([now] is the clock during that turn). *)
Definition markReady (now : N) (st : Pty) : Pty :=
  let st1 :=
    {| hasStdin := hasStdin st; stdin := stdin st; outputBuffer := outputBuffer st;
       isExecuting := isExecuting st; pendingResolve := pendingResolve st;
       currentOutputs := currentOutputs st; isReady := true;
       currentEndMarker := currentEndMarker st; waiting := [];
       timers := timers st; settled := settled st; nextPromise := nextPromise st |} in
  fold_left (fun s '(p, code) => executeBody now code p s) (waiting st) st1.

(** The 3000 ms timer of an [executeCode] body. *)
Definition execTimer (st : Pty) (fs : FS) : Pty * FS :=
  match timers st with
  | O => (st, fs)
  | S n =>
      finishExecution
        {| hasStdin := hasStdin st; stdin := stdin st; outputBuffer := outputBuffer st;
           isExecuting := isExecuting st; pendingResolve := pendingResolve st;
           currentOutputs := currentOutputs st; isReady := isReady st;
           currentEndMarker := currentEndMarker st; waiting := waiting st;
           timers := n; settled := settled st; nextPromise := nextPromise st |} fs
  end.

(** What can happen to a pseudoterminal, one turn of the event loop each. *)
Inductive Event : Type :=
| Open
| ReadyTimer (now : N)
| Stdout (chunk : str)
| Stderr (chunk : str)
| HandleInput (data : str)
| ExecuteCode (now : N) (code : str)
| ExecTimer.

Definition step (e : Event) (s : Pty * FS) : Pty * FS :=
  let '(st, fs) := s in
  match e with
  | Open => (open st, fs)
  | ReadyTimer now => (markReady now st, fs)
  | Stdout chunk => onStdout chunk st fs
  | Stderr chunk => onStderr chunk st fs
  | HandleInput data => (handleInput data st, fs)
  | ExecuteCode now code => (executeCode now code st, fs)
  | ExecTimer => execTimer st fs
  end.

Definition run (events : list Event) (s : Pty * FS) : Pty * FS :=
  fold_left (fun s e => step e s) events s.

End RPseudoterminalSimple.

(** * Properties *)

(** ** The block regex is deterministic *)

Section BlockRegex.
Import JS Regex OutputWatcher.

Fixpoint takeWhile (p : N -> bool) (s : str) : str :=
  match s with
  | c :: t => if p c then c :: takeWhile p t else []
  | [] => []
  end.

Fixpoint dropWhile (p : N -> bool) (s : str) : str :=
  match s with
  | c :: t => if p c then dropWhile p t else s
  | [] => []
  end.

Definition END : str := LF :: lit "###END###".

(** The opening tag [###TYPE:ID###\n] at the head of [s]. *)
Definition header (s : str) : option (str * str * str) :=
  match stripPrefix (lit "###") s with
  | None => None
  | Some t =>
      match takeWhile isWord t with
      | [] => None
      | ty =>
          match stripPrefix (lit ":") (dropWhile isWord t) with
          | None => None
          | Some t2 =>
              match takeWhile (isNot HASH) t2 with
              | [] => None
              | id =>
                  match stripPrefix (lit "###" ++ [LF]) (dropWhile (isNot HASH) t2) with
                  | None => None
                  | Some t4 => Some (ty, id, t4)
                  end
              end
          end
      end
  end.

(** The text before the first [\n###END###] of [s], and the text after it. *)
Fixpoint findEnd (s : str) : option (str * str) :=
  match stripPrefix END s with
  | Some a => Some ([], a)
  | None =>
      match s with
      | [] => None
      | c :: t =>
          match findEnd t with
          | Some (b, a) => Some (c :: b, a)
          | None => None
          end
      end
  end.

Definition blockCaptures (ty id body : str) : captures :=
  <[3%nat := body]> (<[2%nat := id]> (<[1%nat := ty]> ∅)).

Definition blockAt (s : str) : option Match :=
  match header s with
  | None => None
  | Some (ty, id, t4) =>
      match findEnd t4 with
      | None => None
      | Some (body, a) =>
          Some (mkMatch
                  (lit "###" ++ ty ++ lit ":" ++ id ++ lit "###" ++ [LF] ++ body ++ END)
                  (blockCaptures ty id body) a)
      end
  end.

Lemma take_drop_while p (s : str) : takeWhile p s ++ dropWhile p s = s.
Proof. induction s as [|c t IH]; simpl; [reflexivity|]. destruct (p c); simpl; congruence. Qed.

Lemma star_greedy_commit {R} p (s : str) (k : str -> option R) :
  (forall c t, p c = true -> k (c :: t) = None) ->
  star_greedy p s k = k (dropWhile p s).
Proof.
  intros Hk. induction s as [|c t IH]; simpl; [reflexivity|].
  destruct (p c) eqn:E; [|reflexivity].
  rewrite IH. destruct (k (dropWhile p t)); [reflexivity|]. now apply Hk.
Qed.

Lemma take_takeWhile p (s : str) :
  take (length s - length (dropWhile p s)) s = takeWhile p s.
Proof.
  rewrite <- (take_drop_while p s) at 1 3.
  rewrite length_app, Nat.add_sub. apply take_app_length.
Qed.

Lemma star_lazy_findEnd {R} (f : str -> str -> R) (s : str) :
  star_lazy isAny s
    (fun s' => match stripPrefix END s' with
               | Some a => Some (f s' a)
               | None => None
               end)
  = match findEnd s with
    | Some (_, a) => Some (f (END ++ a) a)
    | None => None
    end.
Proof.
  induction s as [|c t IH].
  - reflexivity.
  - cbn [star_lazy findEnd].
    destruct (stripPrefix END (c :: t)) as [a|] eqn:E.
    + apply stripPrefix_app in E. now rewrite E.
    + cbn [isAny]. rewrite IH. now destruct (findEnd t) as [[b a]|].
Qed.

Lemma findEnd_split (s body a : str) :
  findEnd s = Some (body, a) -> s = body ++ END ++ a.
Proof.
  revert body; induction s as [|c t IH]; intros body.
  - simpl. congruence.
  - cbn [findEnd]. destruct (stripPrefix END (c :: t)) as [a'|] eqn:E.
    + intros H; injection H as <- <-. now apply stripPrefix_app in E.
    + destruct (findEnd t) as [[b a']|]; [|congruence].
      intros H; injection H as <- <-. simpl. f_equal. now apply IH.
Qed.

Lemma matchAt_blockRegex (s : str) : matchAt blockRegex s = blockAt s.
Proof.
  unfold matchAt, blockAt, header, blockRegex. cbn [rmatch].
  destruct (stripPrefix (lit "###") s) as [t|] eqn:E1; [|reflexivity].
  apply stripPrefix_app in E1. subst s.
  destruct t as [|c t]; [reflexivity|].
  cbn [takeWhile dropWhile]. destruct (isWord c) eqn:Ec; [|reflexivity].
  rewrite star_greedy_commit.
  2:{ intros c' t' Hc'. cbn [stripPrefix lit list_ascii_of_string map].
      destruct (N.eqb_spec (N_of_ascii ":") c'); [|reflexivity].
      subst c'. discriminate. }
  destruct (stripPrefix (lit ":") (dropWhile isWord t)) as [t2|] eqn:E2; [|reflexivity].
  destruct t2 as [|c2 t2]; [reflexivity|].
  cbn [takeWhile dropWhile]. destruct (isNot HASH c2) eqn:Ec2; [|reflexivity].
  rewrite star_greedy_commit.
  2:{ intros c' t' Hc'. unfold isNot in Hc'. cbn [stripPrefix lit list_ascii_of_string map app].
      change (N_of_ascii "#") with HASH.
      destruct (N.eqb_spec HASH c'); [|reflexivity].
      subst c'. now rewrite N.eqb_refl in Hc'. }
  destruct (stripPrefix (lit "###" ++ [LF]) (dropWhile (isNot HASH) t2)) as [t4|] eqn:E4;
    [|reflexivity].
  rewrite (star_lazy_findEnd (fun s' a => mkMatch _ (<[3%nat := take (length t4 - length s') t4]> _) a)).
  destruct (findEnd t4) as [[body a]|] eqn:E5; [|reflexivity].
  apply findEnd_split in E5. apply stripPrefix_app in E2, E4.
  pose proof (take_takeWhile isWord (c :: t)) as G1.
  pose proof (take_takeWhile (isNot HASH) (c2 :: t2)) as G2.
  cbn [takeWhile dropWhile] in G1, G2. rewrite Ec in G1. rewrite Ec2 in G2.
  rewrite G1, G2. unfold blockCaptures.
  assert (take (length t4 - length (END ++ a)) t4 = body) as ->.
  { rewrite E5 at 1 2. rewrite length_app, Nat.add_sub. apply take_app_length. }
  do 2 f_equal.
  assert (lit "###" ++ c :: t
          = (lit "###" ++ (c :: takeWhile isWord t) ++ lit ":"
             ++ (c2 :: takeWhile (isNot HASH) t2) ++ lit "###" ++ [LF] ++ body ++ END)
            ++ a) as ->.
  { rewrite <- (take_drop_while isWord t) at 1. rewrite E2.
    rewrite <- (take_drop_while (isNot HASH) t2) at 1. rewrite E4, E5.
    repeat (rewrite <- ?app_assoc; simpl). reflexivity. }
  rewrite length_app, Nat.add_sub. apply take_app_length.
Qed.
End BlockRegex.

Section BlockStability.
Import JS Regex OutputWatcher.

Lemma stripPrefix_app_r (l s t q : str) :
  stripPrefix l s = Some t -> stripPrefix l (s ++ q) = Some (t ++ q).
Proof.
  intros H. apply stripPrefix_app in H. subst s.
  rewrite <- app_assoc. apply stripPrefix_here.
Qed.

Lemma stripPrefix_None_app (l s q : str) :
  stripPrefix l s = None -> (length l <= length s)%nat ->
  stripPrefix l (s ++ q) = None.
Proof.
  revert s; induction l as [|a l IH]; intros [|b s]; simpl; try congruence; try lia.
  destruct (a =? b); [|reflexivity]. intros H Hl. apply IH; [assumption|lia].
Qed.

Lemma while_app p (t q : str) c r :
  dropWhile p t = c :: r ->
  takeWhile p (t ++ q) = takeWhile p t /\ dropWhile p (t ++ q) = (c :: r) ++ q.
Proof.
  induction t as [|x t IH]; simpl; [congruence|].
  destruct (p x).
  - intros H. destruct (IH H) as [-> ->]. now split.
  - intros H. injection H as -> ->. now split.
Qed.

Lemma header_app (s q ty id t4 : str) :
  header s = Some (ty, id, t4) -> header (s ++ q) = Some (ty, id, t4 ++ q).
Proof.
  unfold header.
  destruct (stripPrefix (lit "###") s) as [t|] eqn:E1; [|congruence].
  rewrite (stripPrefix_app_r _ _ _ q E1).
  destruct (stripPrefix (lit ":") (dropWhile isWord t)) as [t2|] eqn:E2.
  2:{ now destruct (takeWhile isWord t). }
  pose proof E2 as E2'. apply stripPrefix_app in E2'. simpl in E2'.
  destruct (while_app isWord t q _ _ E2') as [-> ->].
  rewrite <- E2'. rewrite (stripPrefix_app_r _ _ _ q E2).
  destruct (takeWhile isWord t) as [|w ty']; [congruence|].
  destruct (stripPrefix (lit "###" ++ [LF]) (dropWhile (isNot HASH) t2)) as [t4'|] eqn:E4.
  2:{ now destruct (takeWhile (isNot HASH) t2). }
  pose proof E4 as E4'. apply stripPrefix_app in E4'. simpl in E4'.
  destruct (while_app (isNot HASH) t2 q _ _ E4') as [-> ->].
  rewrite <- E4'. rewrite (stripPrefix_app_r _ _ _ q E4).
  destruct (takeWhile (isNot HASH) t2); congruence.
Qed.

Lemma findEnd_length (s b a : str) :
  findEnd s = Some (b, a) -> (length END <= length s)%nat.
Proof.
  intros H. apply findEnd_split in H. subst s. rewrite !length_app. lia.
Qed.

Lemma findEnd_app (s q b a : str) :
  findEnd s = Some (b, a) -> findEnd (s ++ q) = Some (b, a ++ q).
Proof.
  revert b; induction s as [|c t IH]; intros b.
  - simpl. congruence.
  - change ((c :: t) ++ q) with (c :: (t ++ q)). cbn [findEnd].
    destruct (stripPrefix END (c :: t)) as [a'|] eqn:E.
    + intros H; injection H as <- <-.
      change (c :: (t ++ q)) with ((c :: t) ++ q).
      now rewrite (stripPrefix_app_r _ _ _ q E).
    + destruct (findEnd t) as [[b' a']|] eqn:E'; [|congruence].
      intros H; injection H as <- <-.
      change (c :: (t ++ q)) with ((c :: t) ++ q).
      rewrite (stripPrefix_None_app _ _ q E).
      * now rewrite (IH _ eq_refl).
      * apply findEnd_length in E'. simpl in *. lia.
Qed.

(** A match found in a text is found unchanged when more text follows. *)
Lemma blockAt_app (s q : str) (m : Match) :
  blockAt s = Some m ->
  blockAt (s ++ q) = Some (mkMatch (matched m) (groups m) (after m ++ q)).
Proof.
  unfold blockAt.
  destruct (header s) as [[[ty id] t4]|] eqn:E; [|congruence].
  rewrite (header_app _ q _ _ _ E).
  destruct (findEnd t4) as [[b a]|] eqn:E'; [|congruence].
  rewrite (findEnd_app _ q _ _ E').
  intros H; injection H as <-. reflexivity.
Qed.

Lemma takeWhile_Forall p (s : str) : Forall (fun c => p c = true) (takeWhile p s).
Proof.
  induction s as [|c t IH]; simpl; [constructor|].
  destruct (p c) eqn:E; constructor; assumption.
Qed.

Lemma while_stop p (l : str) c (r : str) :
  Forall (fun c => p c = true) l -> p c = false ->
  takeWhile p (l ++ c :: r) = l /\ dropWhile p (l ++ c :: r) = c :: r.
Proof.
  intros Hl Hc. induction Hl as [|x l Hx Hl IH]; simpl.
  - now rewrite Hc.
  - rewrite Hx. destruct IH as [-> ->]. now split.
Qed.

Definition headerText (ty id : str) : str :=
  lit "###" ++ ty ++ lit ":" ++ id ++ lit "###" ++ [LF].

Lemma header_spec (s ty id t4 : str) :
  header s = Some (ty, id, t4) ->
  s = headerText ty id ++ t4
  /\ ty <> [] /\ Forall (fun c => isWord c = true) ty
  /\ id <> [] /\ Forall (fun c => isNot HASH c = true) id.
Proof.
  unfold header, headerText.
  destruct (stripPrefix (lit "###") s) as [t|] eqn:E1; [|congruence].
  pose proof (takeWhile_Forall isWord t) as F1.
  pose proof (take_drop_while isWord t) as D1.
  destruct (takeWhile isWord t) as [|w ty'] eqn:T1; [congruence|].
  destruct (stripPrefix (lit ":") (dropWhile isWord t)) as [t2|] eqn:E2; [|congruence].
  pose proof (takeWhile_Forall (isNot HASH) t2) as F2.
  pose proof (take_drop_while (isNot HASH) t2) as D2.
  destruct (takeWhile (isNot HASH) t2) as [|h id'] eqn:T2; [congruence|].
  destruct (stripPrefix (lit "###" ++ [LF]) (dropWhile (isNot HASH) t2)) as [t4'|] eqn:E4;
    [|congruence].
  intros H; injection H as <- <- <-.
  apply stripPrefix_app in E1, E2, E4.
  repeat split; try assumption; try discriminate.
  rewrite E1, <- D1, E2, <- D2, E4.
  repeat (rewrite <- ?app_assoc; simpl). reflexivity.
Qed.

Lemma header_intro (ty id t4 : str) :
  ty <> [] -> Forall (fun c => isWord c = true) ty ->
  id <> [] -> Forall (fun c => isNot HASH c = true) id ->
  header (headerText ty id ++ t4) = Some (ty, id, t4).
Proof.
  intros Hty Fty Hid Fid. unfold header, headerText.
  rewrite <- !app_assoc. rewrite stripPrefix_here.
  destruct (while_stop isWord ty (N_of_ascii ":") (id ++ (lit "###" ++ [LF]) ++ t4) Fty eq_refl)
    as [T1 D1].
  change (lit ":" ++ id ++ lit "###" ++ [LF] ++ t4)
    with (N_of_ascii ":" :: id ++ (lit "###" ++ [LF]) ++ t4).
  rewrite T1, D1.
  destruct ty as [|w ty']; [congruence|].
  change (N_of_ascii ":" :: id ++ (lit "###" ++ [LF]) ++ t4)
    with (lit ":" ++ id ++ (lit "###" ++ [LF]) ++ t4).
  rewrite stripPrefix_here.
  destruct (while_stop (isNot HASH) id HASH (HASH :: HASH :: LF :: t4) Fid eq_refl)
    as [T2 D2].
  change ((lit "###" ++ [LF]) ++ t4) with (HASH :: HASH :: HASH :: LF :: t4).
  rewrite T2, D2.
  destruct id as [|h id']; [congruence|].
  change (HASH :: HASH :: HASH :: LF :: t4) with ((lit "###" ++ [LF]) ++ t4).
  now rewrite stripPrefix_here.
Qed.

(** [s] begins like an opening tag: [###] and one word character. *)
Definition startsHdr (s : str) : bool :=
  match s with
  | a :: b :: c :: w :: _ => (a =? HASH) && (b =? HASH) && (c =? HASH) && isWord w
  | _ => false
  end.

Lemma header_startsHdr (s ty id t4 : str) :
  header s = Some (ty, id, t4) -> startsHdr s = true.
Proof.
  intros H. apply header_spec in H as (-> & Hty & Fty & _).
  destruct ty as [|w ty']; [congruence|].
  inversion Fty as [|? ? Hw _]; subst. simpl. exact Hw.
Qed.

Lemma startsHdr_nonhash (c : N) (t : str) : c <> HASH -> startsHdr (c :: t) = false.
Proof.
  intros Hc. unfold startsHdr.
  destruct t as [|b [|c' [|w t']]]; try reflexivity.
  destruct (N.eqb_spec c HASH); [contradiction|reflexivity].
Qed.

Lemma startsHdr_second (a b : N) (t : str) :
  b <> HASH -> startsHdr (a :: b :: t) = false.
Proof.
  intros Hb. unfold startsHdr. destruct t as [|c [|w t']]; try reflexivity.
  destruct (N.eqb_spec b HASH); [contradiction|]. now rewrite andb_false_r.
Qed.

Lemma startsHdr_third (a b c : N) (t : str) :
  c <> HASH -> startsHdr (a :: b :: c :: t) = false.
Proof.
  intros Hc. unfold startsHdr. destruct t as [|w t']; try reflexivity.
  destruct (N.eqb_spec c HASH); [contradiction|]. now rewrite andb_false_r.
Qed.

Lemma startsHdr_inside (body tail : str) (j : nat) :
  Forall (fun c => c <> HASH) body -> (j < length body)%nat ->
  startsHdr (drop j (body ++ tail)) = false.
Proof.
  intros Hb. revert j. induction Hb as [|x l Hx Hl IH]; intros j Hj; simpl in Hj; [lia|].
  destruct j as [|j]; simpl.
  - now apply startsHdr_nonhash.
  - apply IH. lia.
Qed.

Lemma isWord_nonhash (c : N) : isWord c = true -> c <> HASH.
Proof. intros H ->. discriminate. Qed.

Lemma isNot_nonhash (c : N) : isNot HASH c = true -> c <> HASH.
Proof. unfold isNot. intros H ->. discriminate. Qed.

(** No opening tag begins strictly inside another opening tag. *)
Lemma header_no_overlap (ty id rest : str) (j : nat) :
  ty <> [] -> Forall (fun c => isWord c = true) ty ->
  Forall (fun c => isNot HASH c = true) id ->
  (1 <= j < length (headerText ty id))%nat ->
  startsHdr (drop j (headerText ty id ++ rest)) = false.
Proof.
  intros Hty Fty Fid Hj.
  set (body := ty ++ lit ":" ++ id).
  assert (Forall (fun c => c <> HASH) body) as Fb.
  { unfold body. rewrite !Forall_app. repeat split.
    - eapply Forall_impl; [exact Fty|]. apply isWord_nonhash.
    - repeat constructor. discriminate.
    - eapply Forall_impl; [exact Fid|]. apply isNot_nonhash. }
  assert (headerText ty id ++ rest
          = HASH :: HASH :: HASH :: body ++ (HASH :: HASH :: HASH :: LF :: rest)) as E.
  { unfold headerText, body. repeat (rewrite <- ?app_assoc; simpl). reflexivity. }
  assert (length (headerText ty id) = (3 + length body + 4)%nat) as L.
  { unfold headerText, body. rewrite !length_app. simpl. lia. }
  rewrite E. rewrite L in Hj.
  destruct ty as [|w ty']; [congruence|].
  assert (w <> HASH) as Hw by (inversion Fty; subst; now apply isWord_nonhash).
  destruct j as [|[|[|j]]]; [lia| | |].
  - unfold body. cbn [drop app]. now apply startsHdr_third.
  - unfold body. cbn [drop app]. now apply startsHdr_second.
  - change (drop (S (S (S j))) (HASH :: HASH :: HASH :: body ++ HASH :: HASH :: HASH :: LF :: rest))
      with (drop j (body ++ HASH :: HASH :: HASH :: LF :: rest)).
    destruct (Nat.lt_ge_cases j (length body)) as [Hlt|Hge].
    + now apply startsHdr_inside.
    + rewrite drop_app_ge by assumption.
      remember (j - length body)%nat as k eqn:Hk.
      assert (k < 4)%nat as Hk4 by lia.
      destruct k as [|[|[|[|k]]]]; try lia; simpl; try reflexivity.
      all: destruct rest as [|r1 [|r2 [|r3 rest']]]; reflexivity.
Qed.

Lemma findEnd_complete (x y : str) : findEnd (x ++ END ++ y) <> None.
Proof.
  induction x as [|c x IH].
  - cbn [app]. destruct (END ++ y) as [|e r] eqn:E; [discriminate|].
    cbn [findEnd]. rewrite <- E, stripPrefix_here. discriminate.
  - change ((c :: x) ++ END ++ y) with (c :: (x ++ END ++ y)). cbn [findEnd].
    destruct (stripPrefix END (c :: x ++ END ++ y)); [discriminate|].
    destruct (findEnd (x ++ END ++ y)) as [[b a]|]; [discriminate|contradiction].
Qed.

Lemma blockAt_spec (s : str) (m : Match) :
  blockAt s = Some m ->
  exists ty id body,
    header s = Some (ty, id, body ++ END ++ after m)
    /\ s = headerText ty id ++ body ++ END ++ after m.
Proof.
  unfold blockAt. destruct (header s) as [[[ty id] t4]|] eqn:E; [|congruence].
  destruct (findEnd t4) as [[b a]|] eqn:E'; [|congruence].
  intros H; injection H as <-. cbn [after].
  apply findEnd_split in E'. subst t4.
  exists ty, id, b. split; [reflexivity|].
  now apply header_spec in E as (-> & _).
Qed.

(** A tag that does not complete in [s] cannot complete once more text
    follows, if a later block already completes inside [s]: the later
    block would have to begin inside the tag. *)
Lemma blockAt_None_app (s q : str) (j : nat) (m : Match) :
  blockAt s = None -> (1 <= j)%nat ->
  blockAt (drop j s) = Some m ->
  blockAt (s ++ q) = None.
Proof.
  intros Hs Hj Hm.
  destruct (blockAt (s ++ q)) as [m'|] eqn:Hq; [exfalso|reflexivity].
  assert (j <= length s)%nat as Hjs.
  { destruct (Nat.le_gt_cases j (length s)) as [?|Hgt]; [assumption|].
    rewrite drop_ge in Hm by lia. discriminate. }
  apply blockAt_spec in Hq as (ty & id & body & Hh & Hsq).
  pose proof (header_spec _ _ _ _ Hh) as (_ & Hty & Fty & Hid & Fid).
  pose proof Hm as Hm'.
  apply blockAt_spec in Hm' as (ty2 & id2 & body2 & Hh2 & Hd).
  (* the later block begins at or after the end of the tag *)
  assert (length (headerText ty id) <= j)%nat as Hlen.
  { destruct (Nat.le_gt_cases (length (headerText ty id)) j) as [?|Hlt]; [assumption|].
    exfalso.
    pose proof (header_no_overlap ty id (body ++ END ++ after m') j Hty Fty Fid
                  (conj Hj Hlt)) as Hno.
    rewrite <- Hsq, drop_app_le in Hno by assumption.
    apply (header_app _ q) in Hh2. apply header_startsHdr in Hh2. congruence. }
  (* so the tag lies inside [s], and so does an end marker after it *)
  assert (s = headerText ty id ++ drop (length (headerText ty id)) s) as Es.
  { rewrite <- (take_drop (length (headerText ty id)) s) at 1. f_equal.
    apply (f_equal (take (length (headerText ty id)))) in Hsq.
    rewrite take_app_le in Hsq by lia. rewrite take_app_length in Hsq. exact Hsq. }
  assert (drop (length (headerText ty id)) s
          = take (j - length (headerText ty id)) (drop (length (headerText ty id)) s)
            ++ (headerText ty2 id2 ++ body2) ++ END ++ after m) as Et.
  { rewrite <- (take_drop (j - length (headerText ty id))
                          (drop (length (headerText ty id)) s)) at 1.
    f_equal. rewrite drop_drop.
    replace (length (headerText ty id) + (j - length (headerText ty id)))%nat with j by lia.
    rewrite Hd. now rewrite <- !app_assoc. }
  unfold blockAt in Hs. rewrite Es in Hs.
  rewrite (header_intro ty id _ Hty Fty Hid Fid) in Hs.
  rewrite Et in Hs. rewrite app_assoc in Hs.
  pose proof (findEnd_complete
                (take (j - length (headerText ty id)) (drop (length (headerText ty id)) s)
                 ++ headerText ty2 id2 ++ body2) (after m)) as Hc.
  destruct (findEnd _) as [[b a]|]; [discriminate|contradiction].
Qed.

(** The leftmost block of a text stays the leftmost block, with the same
    captures, when more text is appended. *)
Lemma search_block_app (p q : str) (i : nat) (m : Match) :
  search blockRegex p = Some (i, m) ->
  search blockRegex (p ++ q) = Some (i, mkMatch (matched m) (groups m) (after m ++ q)).
Proof.
  revert i; induction p as [|c t IH]; intros i.
  - cbn [search]. rewrite matchAt_blockRegex. discriminate.
  - change ((c :: t) ++ q) with (c :: (t ++ q)). cbn [search].
    change (c :: (t ++ q)) with ((c :: t) ++ q).
    rewrite !matchAt_blockRegex.
    destruct (blockAt (c :: t)) as [m0|] eqn:E.
    + intros H; injection H as <- <-. now rewrite (blockAt_app _ q _ E).
    + destruct (search blockRegex t) as [[j m1]|] eqn:E1; [|congruence].
      intros H; injection H as <- <-.
      pose proof (search_matchAt _ _ _ _ E1) as Hat. rewrite matchAt_blockRegex in Hat.
      rewrite (blockAt_None_app (c :: t) q (S j) m1 E); [|lia|exact Hat].
      now rewrite (IH _ eq_refl).
Qed.

Lemma blockLoop_Some (rest : str) w log i m :
  search blockRegex rest = Some (i, m) ->
  blockLoop rest w log
  = blockLoop (after m) (storeOutput (blockOutput m) w) (log ++ [blockOutput m]).
Proof.
  intros H. funelim (blockLoop rest w log).
  - rewrite e in H1. injection H1 as <- <-. reflexivity.
  - congruence.
Qed.

Lemma blockLoop_None (rest : str) w log :
  search blockRegex rest = None -> blockLoop rest w log = (w, log, rest).
Proof.
  intros H. funelim (blockLoop rest w log).
  - congruence.
  - reflexivity.
Qed.

(** Induction along the iterations of the loop. *)
Lemma blockLoop_rect (P : str -> Prop) :
  (forall s, (forall i m, search blockRegex s = Some (i, m) -> P (after m)) -> P s) ->
  forall s, P s.
Proof.
  intros step s. remember (length s) as n eqn:Hn. revert s Hn.
  induction n as [n IH] using lt_wf_ind. intros s ->.
  apply step. intros i m Hm. apply (IH (length (after m))); [|reflexivity].
  now apply blockRegex_progress in Hm.
Qed.

(** The loop on [p ++ q] is the loop on [p] followed by the loop on what
    [p] left over and [q]. *)
Lemma blockLoop_app (p q : str) :
  forall w log,
    blockLoop (p ++ q) w log
    = let '(w1, log1, r1) := blockLoop p w log in blockLoop (r1 ++ q) w1 log1.
Proof.
  induction p as [p IH] using blockLoop_rect. intros w log.
  destruct (search blockRegex p) as [[i m]|] eqn:E.
  - rewrite (blockLoop_Some p _ _ _ _ E).
    rewrite (blockLoop_Some (p ++ q) _ _ _ _ (search_block_app _ q _ _ E)).
    apply (IH _ _ eq_refl).
  - now rewrite (blockLoop_None p _ _ E).
Qed.

Lemma blockLoop_log (s : str) :
  forall w log,
    blockLoop s w log
    = let '(w1, log1, r1) := blockLoop s w [] in (w1, log ++ log1, r1).
Proof.
  induction s as [s IH] using blockLoop_rect. intros w log.
  destruct (search blockRegex s) as [[i m]|] eqn:E.
  - rewrite !(blockLoop_Some s _ _ _ _ E).
    rewrite (IH _ _ eq_refl _ (log ++ _)), (IH _ _ eq_refl _ ([] ++ _)).
    destruct (blockLoop (after m) _ []) as [[w1 log1] r1].
    now rewrite <- app_assoc.
  - rewrite !(blockLoop_None s _ _ E). now rewrite app_nil_r.
Qed.

Lemma blockLoop_rest (s : str) :
  forall w log, search blockRegex (snd (blockLoop s w log)) = None.
Proof.
  induction s as [s IH] using blockLoop_rect. intros w log.
  destruct (search blockRegex s) as [[i m]|] eqn:E.
  - rewrite (blockLoop_Some s _ _ _ _ E). apply (IH _ _ eq_refl).
  - now rewrite (blockLoop_None s _ _ E).
Qed.

(** The watcher with its read position and pending text replaced. *)
Definition withBuffer (pos : nat) (pending : str) (w : Watcher) : Watcher :=
  {| lastPosition := pos; pendingContent := pending;
     cellOutputs := cellOutputs w; cellCallbacks := cellCallbacks w;
     settled := settled w; nextPromise := nextPromise w |}.

Lemma storeOutput_withBuffer o pos pending w :
  storeOutput o (withBuffer pos pending w) = withBuffer pos pending (storeOutput o w).
Proof.
  unfold storeOutput, withBuffer. cbn [cellOutputs cellCallbacks settled nextPromise].
  destruct (decide (type o = lit "CELL_END")); [|reflexivity].
  destruct (cellCallbacks w !! cellId o); reflexivity.
Qed.

Lemma blockLoop_withBuffer (s : str) pos pending :
  forall w log,
    blockLoop s (withBuffer pos pending w) log
    = let '(w1, log1, r1) := blockLoop s w log in (withBuffer pos pending w1, log1, r1).
Proof.
  induction s as [s IH] using blockLoop_rect. intros w log.
  destruct (search blockRegex s) as [[i m]|] eqn:E.
  - rewrite !(blockLoop_Some s _ _ _ _ E), storeOutput_withBuffer. apply (IH _ _ eq_refl).
  - now rewrite !(blockLoop_None s _ _ E).
Qed.

Lemma trimStart_nil (s : str) :
  trimStart s = [] -> Forall (fun c => isWhiteSpace c = true) s.
Proof.
  induction s as [|c t IH]; simpl; [constructor|].
  destruct (isWhiteSpace c) eqn:E; [|discriminate]. intros H. constructor; auto.
Qed.

Lemma trimStart_head (s : str) c t :
  trimStart s = c :: t -> isWhiteSpace c = false.
Proof.
  induction s as [|x s IH]; simpl; [discriminate|].
  destruct (isWhiteSpace x) eqn:E; [assumption|]. intros H. injection H as <- _. exact E.
Qed.

Lemma trim_nil (s : str) :
  trim s = [] -> Forall (fun c => isWhiteSpace c = true) s.
Proof.
  unfold trim, trimEnd. intros H. apply trimStart_nil.
  destruct (trimStart s) as [|c t] eqn:E; [reflexivity|exfalso].
  apply trimStart_head in E.
  apply (f_equal (@rev N)) in H. rewrite rev_involutive in H. simpl in H.
  apply trimStart_nil in H. rewrite Forall_app in H. destruct H as [_ H].
  inversion H; subst. congruence.
Qed.

Lemma search_block_nonhash (s : str) :
  Forall (fun c => c <> HASH) s -> search blockRegex s = None.
Proof.
  induction 1 as [|c t Hc Ht IH].
  - cbn [search]. now rewrite matchAt_blockRegex.
  - cbn [search]. rewrite matchAt_blockRegex, IH.
    unfold blockAt, header. cbn [stripPrefix lit list_ascii_of_string map].
    change (N_of_ascii "#") with HASH.
    destruct (N.eqb_spec HASH c); [congruence|reflexivity].
Qed.

Lemma search_block_blank (s : str) : trim s = [] -> search blockRegex s = None.
Proof.
  intros H. apply search_block_nonhash. apply trim_nil in H.
  eapply Forall_impl; [exact H|]. intros c Hc ->. discriminate.
Qed.

(** One poll, seen through the loop alone: the two early returns of
    [processNewOutput] agree with what the loop would have done. *)
Lemma processNewOutput_blockLoop (fileContent : str) (w : Watcher) :
  search blockRegex (pendingContent w) = None ->
  processNewOutput (Some fileContent) w
  = let '(w1, log, rest) :=
      blockLoop (pendingContent w ++ drop (lastPosition w) fileContent) w [] in
    (withBuffer (length fileContent) rest w1, log).
Proof.
  intros Hp. unfold processNewOutput.
  destruct (drop (lastPosition w) fileContent) as [|c new] eqn:E.
  - rewrite app_nil_r, (blockLoop_None _ _ _ Hp). reflexivity.
  - destruct (trim (pendingContent w ++ c :: new)) as [|x y] eqn:T.
    + rewrite (blockLoop_None _ _ _ (search_block_blank _ T)). reflexivity.
    + change (mkWatcher (length fileContent) (pendingContent w ++ c :: new)
                (cellOutputs w) (cellCallbacks w) (settled w) (nextPromise w))
        with (withBuffer (length fileContent) (pendingContent w ++ c :: new) w).
      rewrite blockLoop_withBuffer.
      destruct (blockLoop (pendingContent w ++ c :: new) w []) as [[w1 log] rest].
      reflexivity.
Qed.

(** *** Polling a growing file *)

(** The side-log file is append-only.  [pollAll seen chunks w] runs one
    [processNewOutput] after each chunk of bytes is appended to the file,
    which already holds the bytes [seen], and collects the outputs parsed
    by every poll.  Each poll reads the whole file and decodes it. *)
Fixpoint pollAll (seen : list N) (chunks : list (list N)) (w : Watcher)
  : Watcher * list CellOutput :=
  match chunks with
  | [] => (w, [])
  | c :: cs =>
      let '(w1, log1) := processNewOutput (Some (Node.utf8Decode (seen ++ c))) w in
      let '(w2, log2) := pollAll (seen ++ c) cs w1 in
      (w2, log1 ++ log2)
  end.

(** Every read ends between two characters: the text of each read is the
    text of the read before followed by the text of the new bytes. *)
Fixpoint wholeCharacters (seen : list N) (chunks : list (list N)) : bool :=
  match chunks with
  | [] => true
  | c :: cs =>
      bool_decide (Node.utf8Decode (seen ++ c) = Node.utf8Decode seen ++ Node.utf8Decode c)
      && wholeCharacters (seen ++ c) cs
  end.

Lemma wholeCharacters_decode (chunks : list (list N)) :
  forall seen,
    wholeCharacters seen chunks = true ->
    Node.utf8Decode (seen ++ concat chunks)
    = Node.utf8Decode seen ++ concat (map Node.utf8Decode chunks).
Proof.
  induction chunks as [|c cs IH]; intros seen H; cbn [concat map].
  - now rewrite !app_nil_r.
  - cbn [wholeCharacters] in H. apply andb_true_iff in H as [H1 H2].
    apply bool_decide_eq_true in H1.
    rewrite app_assoc, (IH _ H2), H1. now rewrite <- app_assoc.
Qed.

Lemma pollAll_blockLoop (chunks : list (list N)) :
  forall seen w,
    wholeCharacters seen chunks = true ->
    lastPosition w = length (Node.utf8Decode seen) ->
    search blockRegex (pendingContent w) = None ->
    pollAll seen chunks w
    = let '(w1, log, rest) :=
        blockLoop (pendingContent w ++ concat (map Node.utf8Decode chunks)) w [] in
      (withBuffer (length (Node.utf8Decode (seen ++ concat chunks))) rest w1, log).
Proof.
  induction chunks as [|c cs IH]; intros seen w Hwhole Hpos Hp.
  - cbn [pollAll concat map]. rewrite !app_nil_r, (blockLoop_None _ _ _ Hp).
    destruct w; simpl in *; subst; reflexivity.
  - cbn [wholeCharacters] in Hwhole. apply andb_true_iff in Hwhole as [Hc Hcs].
    apply bool_decide_eq_true in Hc.
    cbn [pollAll concat map].
    rewrite (processNewOutput_blockLoop _ _ Hp), Hpos, Hc, drop_app_length.
    rewrite (app_assoc (pendingContent w)),
      (blockLoop_app (pendingContent w ++ Node.utf8Decode c)
                     (concat (map Node.utf8Decode cs))).
    pose proof (blockLoop_rest (pendingContent w ++ Node.utf8Decode c) w []) as Hrest.
    destruct (blockLoop (pendingContent w ++ Node.utf8Decode c) w []) as [[w1 log1] r1].
    cbn [snd] in Hrest. cbv beta iota zeta.
    rewrite <- Hc.
    rewrite (IH (seen ++ c)
               (withBuffer (length (Node.utf8Decode (seen ++ c))) r1 w1) Hcs eq_refl Hrest).
    cbn [pendingContent withBuffer].
    change (mkWatcher (length (Node.utf8Decode (seen ++ c))) r1 (cellOutputs w1)
              (cellCallbacks w1) (settled w1) (nextPromise w1))
      with (withBuffer (length (Node.utf8Decode (seen ++ c))) r1 w1).
    rewrite blockLoop_withBuffer, (blockLoop_log _ w1 log1).
    destruct (blockLoop (r1 ++ concat (map Node.utf8Decode cs)) w1 []) as [[w2 log2] r2].
    now rewrite <- !app_assoc.
Qed.

(** Chunk-boundary invariance, for any text at all: when every read ends
    between two characters, polling after each append parses the same
    outputs and reaches the same watcher state as one poll of the whole
    file. *)
Lemma pollAll_single_read (chunks : list (list N)) (w : Watcher) :
  wholeCharacters [] chunks = true ->
  lastPosition w = 0%nat -> pendingContent w = [] ->
  pollAll [] chunks w = processNewOutput (Some (Node.utf8Decode (concat chunks))) w.
Proof.
  intros Hwhole Hpos Hp.
  assert (search blockRegex (pendingContent w) = None) as Hs.
  { rewrite Hp. cbn [search]. now rewrite matchAt_blockRegex. }
  pose proof (wholeCharacters_decode chunks [] Hwhole) as Hd.
  change (Node.utf8Decode []) with (@nil N) in Hd. cbn [app] in Hd.
  rewrite (pollAll_blockLoop chunks [] w Hwhole Hpos Hs).
  rewrite (processNewOutput_blockLoop _ _ Hs), Hpos, drop_0. cbn [app].
  now rewrite Hd.
Qed.

(** *** Well-formed record streams *)

(** A frame as the session-side helper [write_output] appends it. *)
Record Frame : Type := mkFrame {
  f_type : str;
  f_id : str;
  f_content : str
}.

Definition encodeFrame (f : Frame) : str :=
  lit "###" ++ f_type f ++ lit ":" ++ f_id f ++ lit "###" ++ [LF]
  ++ f_content f ++ [LF] ++ lit "###END###" ++ [LF].

Definition stream (frames : list Frame) : str := concat (map encodeFrame frames).

(** The type is a word, the id is non-empty and free of [#], and the
    content does not contain the end marker. *)
Definition wellFormed (f : Frame) : bool :=
  negb (bool_decide (f_type f = [])) && forallb isWord (f_type f)
  && negb (bool_decide (f_id f = [])) && forallb (isNot HASH) (f_id f)
  && negb (includes END (f_content f)).

(** The record a frame stands for. *)
Definition frameOutput (f : Frame) : CellOutput :=
  {| type := f_type f; content := trim (f_content f); cellId := trim (f_id f) |}.

Lemma END_overlap (x a : str) :
  x <> [] -> (length x < length END)%nat -> stripPrefix END (x ++ END ++ a) = None.
Proof.
  intros Hx Hl. destruct (stripPrefix END (x ++ END ++ a)) as [r|] eqn:E; [exfalso|reflexivity].
  apply stripPrefix_app in E.
  assert ((x ++ END ++ a) !! length x = Some LF) as H1.
  { rewrite lookup_app_r by lia. now rewrite Nat.sub_diag. }
  rewrite E, lookup_app_l in H1 by assumption.
  destruct x as [|x0 x]; [congruence|]. cbn [length] in *.
  remember (length x) as k eqn:Hk. clear Hk E.
  do 9 (destruct k as [|k]; [vm_compute in H1; discriminate|]).
  vm_compute in Hl. lia.
Qed.

Lemma findEnd_content (c a : str) :
  includes END c = false -> findEnd (c ++ END ++ a) = Some (c, a).
Proof.
  induction c as [|x c IH]; intros H.
  - cbn [app]. destruct (END ++ a) as [|e r] eqn:E; [discriminate|].
    cbn [findEnd]. now rewrite <- E, stripPrefix_here.
  - cbn [includes] in H. apply orb_false_iff in H as [H1 H2].
    change ((x :: c) ++ END ++ a) with (x :: (c ++ END ++ a)). cbn [findEnd].
    change (x :: (c ++ END ++ a)) with ((x :: c) ++ END ++ a).
    assert (stripPrefix END ((x :: c) ++ END ++ a) = None) as ->.
    { destruct (Nat.le_gt_cases (length END) (length (x :: c))) as [Hge|Hlt].
      - apply stripPrefix_None_app; [|assumption].
        unfold startsWith in H1. now destruct (stripPrefix END (x :: c)).
      - now apply END_overlap. }
    now rewrite (IH H2).
Qed.

Lemma forallb_Forall' (p : N -> bool) (l : str) :
  forallb p l = true -> Forall (fun c => p c = true) l.
Proof. intros H. apply Forall_forall. intros c Hc. rewrite forallb_forall in H. apply H. now apply list_elem_of_In. Qed.

Lemma blockAt_frame (f : Frame) (rest : str) :
  wellFormed f = true ->
  blockAt (encodeFrame f ++ rest)
  = Some (mkMatch (headerText (f_type f) (f_id f) ++ f_content f ++ END)
                  (blockCaptures (f_type f) (f_id f) (f_content f))
                  (LF :: rest)).
Proof.
  unfold wellFormed. rewrite !andb_true_iff, !negb_true_iff, !bool_decide_eq_false.
  intros [[[[Hty Fty] Hid] Fid] Hc].
  apply forallb_Forall' in Fty, Fid.
  assert (encodeFrame f ++ rest
          = headerText (f_type f) (f_id f) ++ f_content f ++ END ++ LF :: rest) as ->.
  { unfold encodeFrame, headerText, END. repeat (rewrite <- ?app_assoc; cbn [app]). reflexivity. }
  unfold blockAt. rewrite (header_intro _ _ _ Hty Fty Hid Fid).
  rewrite (findEnd_content _ _ Hc). unfold headerText.
  repeat (rewrite <- ?app_assoc; cbn [app]). reflexivity.
Qed.

Lemma blockOutput_frame (f : Frame) text a :
  blockOutput (mkMatch text (blockCaptures (f_type f) (f_id f) (f_content f)) a)
  = frameOutput f.
Proof. reflexivity. Qed.

Lemma search_frame (f : Frame) (rest : str) :
  wellFormed f = true ->
  exists i text,
    search blockRegex (encodeFrame f ++ rest)
    = Some (i, mkMatch text (blockCaptures (f_type f) (f_id f) (f_content f)) (LF :: rest)).
Proof.
  intros H. exists 0%nat. eexists.
  destruct (encodeFrame f ++ rest) as [|c t] eqn:E; [discriminate|].
  cbn [search]. rewrite matchAt_blockRegex, <- E, (blockAt_frame _ _ H). reflexivity.
Qed.

Lemma search_LF_frame (f : Frame) (rest : str) :
  wellFormed f = true ->
  exists i text,
    search blockRegex (LF :: encodeFrame f ++ rest)
    = Some (i, mkMatch text (blockCaptures (f_type f) (f_id f) (f_content f)) (LF :: rest)).
Proof.
  intros H. destruct (search_frame f rest H) as (i & text & E).
  exists (S i), text. cbn [search]. rewrite matchAt_blockRegex, E. reflexivity.
Qed.

(** The loop over a well-formed stream parses exactly its frames, in
    order, whether it starts at a frame or at the newline that closes the
    previous one. *)
Lemma blockLoop_stream (frames : list Frame) :
  Forall (fun f => wellFormed f = true) frames ->
  forall pre w log, pre = [] \/ pre = [LF] ->
    snd (fst (blockLoop (pre ++ stream frames) w log)) = log ++ map frameOutput frames
    /\ snd (blockLoop (pre ++ stream frames) w log)
       = match frames with [] => pre | _ :: _ => [LF] end.
Proof.
  induction 1 as [|f fs Hf Hfs IH]; intros pre w log Hpre.
  - cbn [stream map concat]. rewrite !app_nil_r.
    rewrite (blockLoop_None pre).
    + now split.
    + destruct Hpre as [-> | ->]; apply search_block_nonhash; repeat constructor; discriminate.
  - cbn [stream map concat]. fold (stream fs).
    assert (exists i text,
               search blockRegex (pre ++ encodeFrame f ++ stream fs)
               = Some (i, mkMatch text (blockCaptures (f_type f) (f_id f) (f_content f))
                                  ([LF] ++ stream fs))) as (i & text & E).
    { destruct Hpre as [-> | ->]; [apply search_frame|apply search_LF_frame]; assumption. }
    rewrite (blockLoop_Some _ _ _ _ _ E). cbn [after]. rewrite blockOutput_frame.
    destruct (IH [LF] (storeOutput (frameOutput f) w) (log ++ [frameOutput f]) (or_intror eq_refl))
      as [IH1 IH2].
    rewrite IH1, IH2. split.
    + now rewrite <- app_assoc.
    + now destruct fs.
Qed.

Lemma single_read_frames (frames : list Frame) (w : Watcher) :
  lastPosition w = 0%nat -> pendingContent w = [] ->
  Forall (fun f => wellFormed f = true) frames ->
  snd (processNewOutput (Some (stream frames)) w) = map frameOutput frames.
Proof.
  intros Hpos Hp Hwf.
  assert (search blockRegex (pendingContent w) = None) as Hs.
  { rewrite Hp. cbn [search]. now rewrite matchAt_blockRegex. }
  rewrite (processNewOutput_blockLoop _ _ Hs), Hpos, Hp, drop_0.
  destruct (blockLoop_stream frames Hwf [] w [] (or_introl eq_refl)) as [H1 _].
  destruct (blockLoop ([] ++ stream frames) w []) as [[w1 log] rest]. exact H1.
Qed.

End BlockStability.

(** ** The presentation filter *)

Section PresentationFilter.
Import JS Regex OutputWatcher.

Lemma filterOutputs_In (outputs : list CellOutput) (options : YamlOptions) (o : CellOutput) :
  In o (filterOutputs outputs options)
  <-> In o outputs
      /\ (type o = lit "MESSAGE" -> message options = true)
      /\ (type o = lit "WARNING" -> warning options = true)
      /\ (type o = lit "ERROR" -> error options = true)
      /\ type o <> lit "CELL_START"
      /\ type o <> lit "CELL_END".
Proof.
  unfold filterOutputs. rewrite filter_In.
  split; intros [Hin H]; (split; [exact Hin|]).
  - repeat case_decide; subst; repeat split; try congruence;
      intros E; rewrite E in *; try discriminate; try congruence.
  - destruct H as (Hm & Hw & He & Hs & Hend).
    repeat case_decide; auto.
Qed.

(** The warning scenario: one cell writes a WARNING and an OUTPUT record,
    and the caller waits with [{warning: false}]. *)
Definition warningStream : str :=
  stream [ mkFrame (lit "CELL_START") (lit "c1") [];
           mkFrame (lit "WARNING") (lit "c1") (lit "NAs introduced by coercion");
           mkFrame (lit "OUTPUT") (lit "c1") (lit "[1] NA");
           mkFrame (lit "CELL_END") (lit "c1") [] ].

Definition warningsOff : PartialYamlOptions :=
  {| echo_opt := None; message_opt := None; warning_opt := Some false; error_opt := None |}.

Definition warningScenario : option (list CellOutput) :=
  let '(w1, p) := waitForCell (lit "c1") warningsOff newWatcher in
  let '(w2, _) := processNewOutput (Some warningStream) w1 in
  settled w2 !! p.

(** Each record is judged on its own: the filter of a concatenation is
    the concatenation of the filters. *)
Lemma filterOutputs_app (a b : list CellOutput) (options : YamlOptions) :
  filterOutputs (a ++ b) options = filterOutputs a options ++ filterOutputs b options.
Proof. unfold filterOutputs. apply List.filter_app. Qed.

(** The records of one type, in order. *)
Definition ofType (k : str) (outputs : list CellOutput) : list CellOutput :=
  List.filter (fun o => bool_decide (type o = k)) outputs.

Lemma ofType_filterOutputs (k : str) (kept : bool) (outputs : list CellOutput)
      (options : YamlOptions) :
  (forall o, type o = k -> filterOutputs [o] options = if kept then [o] else []) ->
  ofType k (filterOutputs outputs options) = if kept then ofType k outputs else [].
Proof.
  intros Hk. induction outputs as [|o outputs IH]; [now destruct kept|].
  change (o :: outputs) with ([o] ++ outputs).
  rewrite filterOutputs_app. unfold ofType in *. rewrite List.filter_app, IH.
  destruct (decide (type o = k)) as [E|E].
  - rewrite (Hk o E). destruct kept; [|reflexivity].
    cbn [List.filter app]. now rewrite bool_decide_eq_true_2.
  - assert (List.filter (fun o0 => bool_decide (type o0 = k)) (filterOutputs [o] options) = [])
      as ->.
    { unfold filterOutputs. cbn [List.filter].
      destruct (if decide (type o = lit "MESSAGE") then _ else _); [|reflexivity].
      cbn [List.filter]. now rewrite bool_decide_eq_false_2. }
    cbn [List.filter app]. rewrite bool_decide_eq_false_2 by assumption.
    now destruct kept.
Qed.

(** What the filter does to a single record. *)
Lemma filterOutputs_one (o : CellOutput) (options : YamlOptions) :
  (type o = lit "MESSAGE" -> filterOutputs [o] options = if message options then [o] else [])
  /\ (type o = lit "WARNING" -> filterOutputs [o] options = if warning options then [o] else [])
  /\ (type o = lit "ERROR" -> filterOutputs [o] options = if error options then [o] else [])
  /\ (type o = lit "CELL_START" \/ type o = lit "CELL_END" -> filterOutputs [o] options = [])
  /\ (type o <> lit "MESSAGE" -> type o <> lit "WARNING" -> type o <> lit "ERROR" ->
      type o <> lit "CELL_START" -> type o <> lit "CELL_END" ->
      filterOutputs [o] options = [o]).
Proof.
  unfold filterOutputs. cbn [List.filter].
  repeat split; intros; repeat case_decide; try congruence; try reflexivity.
  all: try (destruct H as [H|H]; rewrite H in *; try discriminate; congruence).
  all: try (rewrite H in *; discriminate).
Qed.

(** C5: the presentation filter judges each record on its own, keeping
    order and multiplicity: it distributes over concatenation, and on a
    single record it drops a MESSAGE, WARNING or ERROR exactly when the
    policy excludes that kind (and drops the two cell markers), and keeps
    every other record.  So the OUTPUT, PLOT and HTML records of the
    result are those of the input, each as often and in the same order,
    whatever the policy, and likewise the records of a kind the policy
    admits; of a kind it excludes none is left.  Under [{warning: false}]
    a cell with one WARNING and one OUTPUT record delivers the OUTPUT
    alone, which becomes one text item. *)
Theorem filterOutputs_policy :
  (forall a b options,
      filterOutputs (a ++ b) options = filterOutputs a options ++ filterOutputs b options)
  /\ (forall o options,
         type o = lit "OUTPUT" \/ type o = lit "PLOT" \/ type o = lit "HTML" ->
         filterOutputs [o] options = [o])
  /\ (forall o options,
         (type o = lit "MESSAGE" ->
          filterOutputs [o] options = if message options then [o] else [])
         /\ (type o = lit "WARNING" ->
             filterOutputs [o] options = if warning options then [o] else [])
         /\ (type o = lit "ERROR" ->
             filterOutputs [o] options = if error options then [o] else []))
  /\ (forall outputs options k,
         k = lit "OUTPUT" \/ k = lit "PLOT" \/ k = lit "HTML" ->
         ofType k (filterOutputs outputs options) = ofType k outputs)
  /\ (forall outputs options,
         ofType (lit "MESSAGE") (filterOutputs outputs options)
         = (if message options then ofType (lit "MESSAGE") outputs else [])
         /\ ofType (lit "WARNING") (filterOutputs outputs options)
            = (if warning options then ofType (lit "WARNING") outputs else [])
         /\ ofType (lit "ERROR") (filterOutputs outputs options)
            = (if error options then ofType (lit "ERROR") outputs else []))
  /\ (forall outputs options, sublist (filterOutputs outputs options) outputs)
  /\ warningScenario
     = Some [ mkCellOutput (lit "OUTPUT") (lit "[1] NA") (lit "c1") ]
  /\ fst (cellOutputsToNotebookOutput
            [ mkCellOutput (lit "OUTPUT") (lit "[1] NA") (lit "c1") ] ∅)
     = [ mkNotebookCellOutput [ItemText (lit "[1] NA") (lit "text/plain")] ].
Proof.
  assert (forall o options,
             type o = lit "OUTPUT" \/ type o = lit "PLOT" \/ type o = lit "HTML" ->
             filterOutputs [o] options = [o]) as Hpayload.
  { intros o options Hty. apply (filterOutputs_one o options).
    all: destruct Hty as [E|[E|E]]; rewrite E; discriminate. }
  split; [exact filterOutputs_app|]. split; [exact Hpayload|].
  split; [|split; [|split; [|split; [|split]]]].
  - intros o options. destruct (filterOutputs_one o options) as (H1 & H2 & H3 & _).
    repeat split; assumption.
  - intros outputs options k Hk. apply (ofType_filterOutputs k true).
    intros o E. apply Hpayload. now rewrite E.
  - intros outputs options. repeat split.
    + apply ofType_filterOutputs. intros o. apply (filterOutputs_one o options).
    + apply ofType_filterOutputs. intros o. apply (filterOutputs_one o options).
    + apply ofType_filterOutputs. intros o. apply (filterOutputs_one o options).
  - intros outputs options. unfold filterOutputs.
    induction outputs as [|x l IH]; simpl; [constructor|].
    match goal with |- context [if ?b then _ else _] => destruct b end;
      now constructor.
  - vm_compute. reflexivity.
  - vm_compute. reflexivity.
Qed.
End PresentationFilter.

(** ** Cell markers never reach a caller *)

Section CellMarkers.
Import JS Regex OutputWatcher.

(** The calls a controller makes on its watcher, and the polls of the
    watcher's interval. *)
Inductive WatcherOp : Type :=
| OpStart
| OpWaitForCell (id : str) (yamlOptions : PartialYamlOptions)
| OpProcessNewOutput (file : option str)
| OpClearCellOutput (id : str).

Definition applyOp (op : WatcherOp) (w : Watcher) : Watcher :=
  match op with
  | OpStart => start w
  | OpWaitForCell id yamlOptions => fst (waitForCell id yamlOptions w)
  | OpProcessNewOutput file => fst (processNewOutput file w)
  | OpClearCellOutput id => clearCellOutput id w
  end.

Definition runOps (ops : list WatcherOp) (w : Watcher) : Watcher :=
  fold_left (fun w op => applyOp op w) ops w.

Definition noMarker (o : CellOutput) : Prop :=
  type o <> lit "CELL_START" /\ type o <> lit "CELL_END".

(** Every value a promise of [waitForCell] was resolved with is free of
    cell markers. *)
Definition deliveredClean (w : Watcher) : Prop :=
  forall p outputs, settled w !! p = Some outputs -> Forall noMarker outputs.

Lemma filterOutputs_noMarker outputs options :
  Forall noMarker (filterOutputs outputs options).
Proof.
  apply Forall_forall. intros o Ho. apply list_elem_of_In, filterOutputs_In in Ho.
  unfold noMarker. tauto.
Qed.

Lemma resolve_clean p outputs options tbl :
  (forall q v, tbl !! q = Some v -> Forall noMarker v) ->
  forall q v, resolve p (filterOutputs outputs options) tbl !! q = Some v ->
              Forall noMarker v.
Proof.
  intros Htbl q v. unfold resolve. destruct (tbl !! p) eqn:E; [apply Htbl|].
  destruct (decide (p = q)) as [->|Hne].
  - rewrite lookup_insert_eq. intros H; injection H as <-. apply filterOutputs_noMarker.
  - rewrite lookup_insert_ne by assumption. apply Htbl.
Qed.

Lemma storeOutput_clean o w : deliveredClean w -> deliveredClean (storeOutput o w).
Proof.
  intros Hw. unfold storeOutput.
  destruct (decide (type o = lit "CELL_END")); [|exact Hw].
  destruct (cellCallbacks w !! cellId o) as [cb|]; [|exact Hw].
  unfold deliveredClean. cbn [settled]. now apply resolve_clean.
Qed.

Lemma blockLoop_clean (s : str) :
  forall w log, deliveredClean w -> deliveredClean (fst (fst (blockLoop s w log))).
Proof.
  induction s as [s IH] using blockLoop_rect. intros w log Hw.
  destruct (search blockRegex s) as [[i m]|] eqn:E.
  - rewrite (blockLoop_Some s _ _ _ _ E). apply (IH _ _ eq_refl). now apply storeOutput_clean.
  - now rewrite (blockLoop_None s _ _ E).
Qed.

Lemma processNewOutput_clean file w :
  deliveredClean w -> deliveredClean (fst (processNewOutput file w)).
Proof.
  intros Hw. unfold processNewOutput. destruct file as [fileContent|]; [|exact Hw].
  destruct (drop (lastPosition w) fileContent) as [|c new]; [exact Hw|].
  destruct (trim (pendingContent w ++ c :: new)); [exact Hw|].
  match goal with |- context [blockLoop ?s ?w0 ?l] =>
    pose proof (blockLoop_clean s w0 l Hw) as H;
    destruct (blockLoop s w0 l) as [[w2 log] rest] end.
  exact H.
Qed.

Lemma waitForCell_clean id yamlOptions w :
  deliveredClean w -> deliveredClean (fst (waitForCell id yamlOptions w)).
Proof.
  intros Hw. unfold waitForCell.
  destruct (cellOutputs w !! id) as [existing|]; [|exact Hw].
  destruct (existsb _ existing); [|exact Hw].
  unfold deliveredClean. cbn [fst settled]. now apply resolve_clean.
Qed.

Lemma runOps_clean ops : forall w, deliveredClean w -> deliveredClean (runOps ops w).
Proof.
  induction ops as [|op ops IH]; intros w Hw; [exact Hw|].
  apply IH. destruct op; cbn [applyOp].
  - exact Hw.
  - now apply waitForCell_clean.
  - now apply processNewOutput_clean.
  - exact Hw.
Qed.

(** C6: whatever the controller and the polls do to a watcher, a list
    delivered through a [waitForCell] promise never holds a CELL_START or
    CELL_END record. *)
Theorem no_cell_marker_delivered (ops : list WatcherOp) (p : nat)
        (outputs : list CellOutput) (o : CellOutput) :
  settled (runOps ops newWatcher) !! p = Some outputs ->
  In o outputs ->
  type o <> lit "CELL_START" /\ type o <> lit "CELL_END".
Proof.
  intros Hp Ho.
  assert (deliveredClean newWatcher) as H0.
  { intros q v. cbn [settled newWatcher]. rewrite lookup_empty. discriminate. }
  pose proof (runOps_clean ops newWatcher H0 p outputs Hp) as Hall.
  rewrite Forall_forall in Hall. apply Hall. now apply list_elem_of_In.
Qed.
End CellMarkers.

Definition markerOps : list WatcherOp :=
  [ OpStart;
    OpClearCellOutput (JS.lit "c1");
    OpWaitForCell (JS.lit "c1") warningsOff;
    OpProcessNewOutput (Some (take 60 warningStream));
    OpProcessNewOutput (Some warningStream) ].

Lemma no_cell_marker_delivered_witness :
  OutputWatcher.type (OutputWatcher.mkCellOutput (JS.lit "OUTPUT") (JS.lit "[1] NA") (JS.lit "c1"))
  <> JS.lit "CELL_START"
  /\ OutputWatcher.type (OutputWatcher.mkCellOutput (JS.lit "OUTPUT") (JS.lit "[1] NA") (JS.lit "c1"))
     <> JS.lit "CELL_END".
Proof.
  apply (no_cell_marker_delivered markerOps 0%nat
           [OutputWatcher.mkCellOutput (JS.lit "OUTPUT") (JS.lit "[1] NA") (JS.lit "c1")]).
  - vm_compute. reflexivity.
  - simpl. left. reflexivity.
Defined.

(** ** The correlation table of the side-log channel *)

Section CorrelationTable.
Import JS Regex OutputWatcher QuartoNotebookController.

(** One cell run by the side-log controller: the ready file is there at
    the first poll of the setup loop, the clock reads 1700000000000 and
    the random digits are [k3x9q2m1z]. *)
Definition sampleDir : str := lit "/tmp/quarto-inline".

Definition sampleEnv : SetupEnv :=
  {| terminalCreated := true; terminalExited := false; readyAtEntry := false;
     polls := [ mkReadyPoll true 100 false ] |}.

Definition sampleId : str := cellIdOf 1700000000000 (lit "k3x9q2m1z").

Definition sampleCell (events : list Event) : Controller * Execution * FS :=
  executeSingleCell sampleDir sampleEnv 1700000000000 (lit "k3x9q2m1z")
    (lit "x <- 1; print(x)") defaultYamlOptions events newController ∅.

(** The side log of that cell: complete, and cut before CELL_END. *)
Definition sampleLog : str :=
  lit "###CELL_START:cell_1700000000000_k3x9q2m1z###" ++ [LF] ++ [LF] ++ lit "###END###" ++ [LF]
  ++ lit "###OUTPUT:cell_1700000000000_k3x9q2m1z###" ++ [LF] ++ lit "[1] 1" ++ [LF]
  ++ lit "###END###" ++ [LF]
  ++ lit "###CELL_END:cell_1700000000000_k3x9q2m1z###" ++ [LF] ++ [LF] ++ lit "###END###" ++ [LF].

Definition sampleLogCut : str := take 120 sampleLog.


(** The entries outlive their requests.  After a cell completed, its
    accumulated outputs are still in [cellOutputs]; after a cell timed
    out, its resolver is still in [cellCallbacks]. *)
Lemma correlation_entry_not_deleted :
  (let '(c, e, _) := sampleCell [Poll (Some sampleLog)] in
   ended e = Some true
   /\ cellOutputs (outputWatcher c) !! sampleId <> None)
  /\ (let '(c, e, _) := sampleCell [Poll (Some sampleLogCut); Timeout] in
      ended e = Some false
      /\ cellCallbacks (outputWatcher c) !! sampleId <> None).
Proof. vm_compute. repeat split; discriminate. Qed.

Lemma race_timeout (events : list Event) (p : nat) (w : Watcher) :
  settled w !! p = None ->
  race (Timeout :: events) p w = (w, Some (Rejected (lit "Execution timeout"))).
Proof. intros H. cbn [race]. now rewrite H. Qed.

Lemma storeOutput_keeps_entry o w id l :
  cellOutputs w !! id = Some l ->
  exists l', cellOutputs (storeOutput o w) !! id = Some (l ++ l').
Proof.
  intros H.
  assert (exists l', <[cellId o := default [] (cellOutputs w !! cellId o) ++ [o]]>
                       (cellOutputs w) !! id = Some (l ++ l')) as Hstored.
  { destruct (decide (cellId o = id)) as [->|Hne].
    - rewrite lookup_insert_eq, H. now exists [o].
    - rewrite lookup_insert_ne by assumption. exists []. now rewrite app_nil_r. }
  unfold storeOutput. destruct (decide _); [|exact Hstored].
  destruct (cellCallbacks w !! cellId o); exact Hstored.
Qed.

Lemma blockLoop_keeps_entry (s : str) id :
  forall w log l,
    cellOutputs w !! id = Some l ->
    exists l', cellOutputs (fst (fst (blockLoop s w log))) !! id = Some (l ++ l').
Proof.
  induction s as [s IH] using blockLoop_rect. intros w log l Hw.
  destruct (search blockRegex s) as [[i m]|] eqn:E.
  - rewrite (blockLoop_Some s _ _ _ _ E).
    destruct (storeOutput_keeps_entry (blockOutput m) w id l Hw) as [l1 H1].
    destruct (IH _ _ eq_refl _ (log ++ [blockOutput m]) _ H1) as [l2 H2].
    exists (l1 ++ l2). now rewrite app_assoc.
  - rewrite (blockLoop_None s _ _ E). exists []. now rewrite app_nil_r.
Qed.

(** No poll removes an entry of [cellOutputs]. *)
Lemma processNewOutput_keeps_entry file w id l :
  cellOutputs w !! id = Some l ->
  exists l', cellOutputs (fst (processNewOutput file w)) !! id = Some (l ++ l').
Proof.
  intros Hw.
  assert (exists l', cellOutputs w !! id = Some (l ++ l')) as Hsame.
  { exists []. now rewrite app_nil_r. }
  unfold processNewOutput. destruct file as [fileContent|]; [|exact Hsame].
  destruct (drop (lastPosition w) fileContent) as [|c new]; [exact Hsame|].
  destruct (trim (pendingContent w ++ c :: new)); [exact Hsame|].
  match goal with |- context [blockLoop ?s ?w0 ?l0] =>
    pose proof (blockLoop_keeps_entry s id w0 l0 l Hw) as H;
    destruct (blockLoop s w0 l0) as [[w2 log] rest] end.
  exact H.
Qed.

(** C9, as the code has it: when CELL_END for a cell arrives while a
    resolver is registered for it, the resolver is called with the
    filtered outputs and removed from [cellCallbacks], so a second
    CELL_END for that cell resolves nothing; the accumulated outputs stay
    in [cellOutputs], also through later polls.  A timeout leaves the
    watcher as it is, resolver included. *)
Theorem completion_and_timeout_entries (w : Watcher) (callback : Callback) (o : CellOutput) :
  type o = lit "CELL_END" ->
  cellCallbacks w !! cellId o = Some callback ->
  settled w !! cb_promise callback = None ->
  let w' := storeOutput o w in
  let accumulated := default [] (cellOutputs w !! cellId o) ++ [o] in
  cellCallbacks w' !! cellId o = None
  /\ settled w' !! cb_promise callback
     = Some (filterOutputs accumulated (cb_options callback))
  /\ cellOutputs w' !! cellId o = Some accumulated
  /\ (forall file, exists more,
         cellOutputs (fst (processNewOutput file w')) !! cellId o
         = Some (accumulated ++ more))
  /\ (forall o2, type o2 = lit "CELL_END" -> cellId o2 = cellId o ->
                 settled (storeOutput o2 w') = settled w')
  /\ (forall events, race (Timeout :: events) (cb_promise callback) w
                     = (w, Some (Rejected (lit "Execution timeout")))).
Proof.
  intros Hty Hcb Hp. cbv zeta.
  assert (cellOutputs (storeOutput o w) !! cellId o
          = Some (default [] (cellOutputs w !! cellId o) ++ [o])) as Hacc.
  { unfold storeOutput. rewrite Hcb.
    destruct (decide (type o = lit "CELL_END")); [|contradiction].
    cbn [cellOutputs]. apply lookup_insert_eq. }
  split; [|split; [|split; [exact Hacc|split; [|split]]]].
  - unfold storeOutput. rewrite Hcb.
    destruct (decide (type o = lit "CELL_END")); [|contradiction].
    cbn [cellCallbacks]. apply lookup_delete_eq.
  - unfold storeOutput. rewrite Hcb.
    destruct (decide (type o = lit "CELL_END")); [|contradiction].
    cbn [settled]. unfold resolve. rewrite Hp. apply lookup_insert_eq.
  - intros file. now apply processNewOutput_keeps_entry.
  - intros o2 Hty2 Hid2. unfold storeOutput at 1.
    destruct (decide (type o2 = lit "CELL_END")); [|contradiction].
    rewrite Hid2. unfold storeOutput. rewrite Hcb.
    destruct (decide (type o = lit "CELL_END")); [|contradiction].
    cbn [cellCallbacks]. rewrite lookup_delete_eq. reflexivity.
  - intros events. now apply race_timeout.
Qed.
End CorrelationTable.

Lemma completion_and_timeout_entries_witness :
  let w := fst (OutputWatcher.waitForCell sampleId
                  (QuartoNotebookController.allOptions OutputWatcher.defaultYamlOptions)
                  OutputWatcher.newWatcher) in
  let o := OutputWatcher.mkCellOutput (JS.lit "CELL_END") [] sampleId in
  OutputWatcher.cellCallbacks (OutputWatcher.storeOutput o w) !! sampleId = None
  /\ OutputWatcher.cellOutputs (OutputWatcher.storeOutput o w) !! sampleId = Some [o].
Proof.
  intros w o.
  destruct (completion_and_timeout_entries w
              (OutputWatcher.mkCallback 0 OutputWatcher.defaultYamlOptions) o)
    as (H1 & _ & H3 & _); [reflexivity|vm_compute; reflexivity|reflexivity|].
  split; [exact H1|exact H3].
Defined.

(** ** The pseudoterminal: promises, time-outs and overlapping calls *)

Section Pseudoterminal.
Import JS Regex RPseudoterminalSimple.

(** Promise numbers are handed out in order: what is pending, waiting or
    settled was handed out before. *)
Definition wellNumbered (st : Pty) : Prop :=
  (forall q, pendingResolve st = Some q -> (q < nextPromise st)%nat)
  /\ (forall q code, In (q, code) (waiting st) -> (q < nextPromise st)%nat)
  /\ (forall q v, settled st !! q = Some v -> (q < nextPromise st)%nat).

(** Promise [q] was handed out and no resolver for it is left. *)
Definition orphan (q : nat) (st : Pty) : Prop :=
  pendingResolve st <> Some q
  /\ (forall code, ~ In (q, code) (waiting st))
  /\ (q < nextPromise st)%nat.

Lemma finishExecution_settled st fs q :
  pendingResolve st <> Some q ->
  settled (fst (finishExecution st fs)) !! q = settled st !! q.
Proof.
  intros Hq. unfold finishExecution. destruct (isExecuting st); [|reflexivity].
  cbn [negb]. destruct (parseOutputBuffer _ _ _) as [outputs fs'].
  cbn [fst settled]. destruct (pendingResolve st) as [p|]; [|reflexivity].
  destruct (settled st !! p); [reflexivity|].
  apply lookup_insert_ne. congruence.
Qed.

Lemma finishExecution_fields st fs :
  let st' := fst (finishExecution st fs) in
  nextPromise st' = nextPromise st /\ waiting st' = waiting st
  /\ (pendingResolve st' = pendingResolve st \/ pendingResolve st' = None)
  /\ isReady st' = isReady st /\ hasStdin st' = hasStdin st /\ stdin st' = stdin st.
Proof.
  unfold finishExecution. destruct (isExecuting st); cbn [negb].
  - destruct (parseOutputBuffer _ _ _) as [outputs fs']. cbn. tauto.
  - cbn. tauto.
Qed.

Lemma checkForCommandEnd_settled st fs q :
  pendingResolve st <> Some q ->
  settled (fst (checkForCommandEnd st fs)) !! q = settled st !! q.
Proof.
  intros Hq. unfold checkForCommandEnd. destruct (currentEndMarker st); [|reflexivity].
  destruct (_ && _); [|reflexivity]. now apply finishExecution_settled.
Qed.

Lemma checkForCommandEnd_fields st fs :
  let st' := fst (checkForCommandEnd st fs) in
  nextPromise st' = nextPromise st /\ waiting st' = waiting st
  /\ (pendingResolve st' = pendingResolve st \/ pendingResolve st' = None)
  /\ isReady st' = isReady st /\ hasStdin st' = hasStdin st /\ stdin st' = stdin st.
Proof.
  unfold checkForCommandEnd. destruct (currentEndMarker st); [|cbn; tauto].
  destruct (_ && _); [|cbn; tauto]. apply finishExecution_fields.
Qed.

Lemma resumeAll_fields now (ws : list (nat * str)) :
  forall st,
    let st' := fold_left (fun s '(p, code) => executeBody now code p s) ws st in
    nextPromise st' = nextPromise st /\ waiting st' = waiting st
    /\ settled st' = settled st
    /\ (pendingResolve st' = pendingResolve st
        \/ exists p code, In (p, code) ws /\ pendingResolve st' = Some p).
Proof.
  induction ws as [|[p code] ws IH]; intros st; cbn [fold_left].
  - tauto.
  - destruct (IH (executeBody now code p st)) as (H1 & H2 & H3 & H4).
    cbn [executeBody nextPromise waiting settled pendingResolve] in H1, H2, H3, H4.
    repeat split; try assumption.
    right. destruct H4 as [H4|(p' & code' & Hin & H4)].
    + exists p, code. split; [now left|exact H4].
    + exists p', code'. split; [now right|exact H4].
Qed.

Lemma step_orphan (e : Event) (q : nat) (st : Pty) (fs : FS) :
  orphan q st ->
  orphan q (fst (step e (st, fs)))
  /\ settled (fst (step e (st, fs))) !! q = settled st !! q.
Proof.
  intros (Hp & Hw & Hn). destruct e as [|now|chunk|chunk|data|now code|]; cbn [step fst].
  - unfold orphan, open. cbn. tauto.
  - unfold markReady.
    match goal with |- context [fold_left ?f ?ws ?s0] =>
      destruct (resumeAll_fields now ws s0) as (H1 & H2 & H3 & H4) end.
    cbn [nextPromise waiting settled pendingResolve] in H1, H2, H3, H4.
    unfold orphan. rewrite H1, H2, H3. repeat split; try assumption.
    + destruct H4 as [H4|(p & code & Hin & H4)]; rewrite H4; [assumption|].
      intros E; injection E as ->. exact (Hw _ Hin).
    + intros code [].
  - unfold onStdout. destruct (isExecuting st); [|now repeat split].
    pose proof (checkForCommandEnd_fields (appendBuffer chunk st) fs) as (H1 & H2 & H3 & _).
    cbn [appendBuffer nextPromise waiting pendingResolve] in H1, H2, H3.
    split.
    + unfold orphan. rewrite H1, H2. repeat split; try assumption.
      destruct H3 as [-> | ->]; [assumption|discriminate].
    + now rewrite checkForCommandEnd_settled.
  - unfold onStderr. destruct (isExecuting st); now repeat split.
  - unfold handleInput. destruct (_ && _); now repeat split.
  - unfold executeCode. destruct (isReady st); unfold orphan; cbn.
    + repeat split; try assumption; try lia. intros E; injection E as E. lia.
    + repeat split; try assumption; try lia.
      intros code' Hin. apply in_app_or in Hin as [Hin|[Hin|[]]]; [exact (Hw _ Hin)|].
      injection Hin as E _. lia.
  - unfold execTimer. destruct (timers st) as [|n]; [now repeat split|].
    match goal with |- context [finishExecution ?s0 fs] =>
      pose proof (finishExecution_fields s0 fs) as (H1 & H2 & H3 & _);
      pose proof (finishExecution_settled s0 fs q) as H4 end.
    cbn [nextPromise waiting pendingResolve settled] in H1, H2, H3, H4.
    split.
    + unfold orphan. rewrite H1, H2. repeat split; try assumption.
      destruct H3 as [-> | ->]; [assumption|discriminate].
    + now apply H4.
Qed.

(** A promise without a resolver is never settled by what happens later. *)
Lemma run_orphan (events : list Event) :
  forall q st fs,
    orphan q st ->
    settled (fst (run events (st, fs))) !! q = settled st !! q.
Proof.
  unfold run. induction events as [|e events IH]; intros q st fs Ho; [reflexivity|].
  cbn [fold_left].
  destruct (step_orphan e q st fs Ho) as [Ho' Hs].
  destruct (step e (st, fs)) as [st' fs'] eqn:E. cbn [fst] in Ho', Hs.
  rewrite (IH q st' fs' Ho'). exact Hs.
Qed.

Lemma finishExecution_wellNumbered st fs :
  wellNumbered st -> wellNumbered (fst (finishExecution st fs)).
Proof.
  intros (Hp & Hw & Hs). unfold finishExecution. destruct (isExecuting st); [|now repeat split].
  cbn [negb]. destruct (parseOutputBuffer _ _ _) as [outputs fs'].
  repeat split; cbn [fst pendingResolve waiting settled nextPromise]; try assumption.
  - intros q E. discriminate.
  - intros q v. destruct (pendingResolve st) as [p|] eqn:E; [|apply Hs].
    destruct (settled st !! p); [apply Hs|].
    destruct (decide (p = q)) as [->|Hne].
    + intros _. now apply Hp.
    + rewrite lookup_insert_ne by assumption. apply Hs.
Qed.

Lemma step_wellNumbered (e : Event) (st : Pty) (fs : FS) :
  wellNumbered st -> wellNumbered (fst (step e (st, fs))).
Proof.
  intros Hwn. pose proof Hwn as (Hp & Hw & Hs).
  destruct e as [|now|chunk|chunk|data|now code|]; cbn [step fst].
  - exact Hwn.
  - unfold markReady.
    match goal with |- context [fold_left ?f ?ws ?s0] =>
      destruct (resumeAll_fields now ws s0) as (H1 & H2 & H3 & H4) end.
    cbn [nextPromise waiting settled pendingResolve] in H1, H2, H3, H4.
    unfold wellNumbered. rewrite H1, H2, H3. repeat split; try assumption.
    + intros q. destruct H4 as [H4|(p & code & Hin & H4)]; rewrite H4; [apply Hp|].
      intros E; injection E as <-. exact (Hw _ _ Hin).
    + intros q code [].
  - unfold onStdout. destruct (isExecuting st); [|exact Hwn].
    unfold checkForCommandEnd. cbn [appendBuffer currentEndMarker].
    destruct (currentEndMarker st); [|exact Hwn].
    destruct (_ && _); [|exact Hwn]. now apply finishExecution_wellNumbered.
  - unfold onStderr. destruct (isExecuting st); exact Hwn.
  - unfold handleInput. destruct (_ && _); exact Hwn.
  - unfold executeCode. destruct (isReady st); unfold wellNumbered; cbn.
    + repeat split.
      * intros q E; injection E as <-. lia.
      * intros q code' Hin. specialize (Hw _ _ Hin). lia.
      * intros q v Hq. specialize (Hs _ _ Hq). lia.
    + repeat split.
      * intros q E. specialize (Hp _ E). lia.
      * intros q code' Hin. apply in_app_or in Hin as [Hin|[Hin|[]]].
        -- specialize (Hw _ _ Hin). lia.
        -- injection Hin as <- _. lia.
      * intros q v Hq. specialize (Hs _ _ Hq). lia.
  - unfold execTimer. destruct (timers st); [exact Hwn|].
    now apply finishExecution_wellNumbered.
Qed.

Lemma run_wellNumbered (events : list Event) :
  forall st fs, wellNumbered st -> wellNumbered (fst (run events (st, fs))).
Proof.
  unfold run. induction events as [|e events IH]; intros st fs Hwn; [exact Hwn|].
  cbn [fold_left]. pose proof (step_wellNumbered e st fs Hwn) as H.
  destruct (step e (st, fs)) as [st' fs']. now apply IH.
Qed.

Lemma newPty_wellNumbered : wellNumbered newPty.
Proof.
  repeat split; cbn; try discriminate; try tauto.
Qed.

Lemma reachable_fresh (history : list Event) (fs0 : FS) (st : Pty) (fs : FS) :
  run history (newPty, fs0) = (st, fs) ->
  wellNumbered st /\ settled st !! nextPromise st = None.
Proof.
  intros H. pose proof (run_wellNumbered history newPty fs0 newPty_wellNumbered) as Hwn.
  rewrite H in Hwn. cbn [fst] in Hwn. split; [exact Hwn|].
  destruct Hwn as (_ & _ & Hs).
  destruct (settled st !! nextPromise st) eqn:E; [|reflexivity].
  apply Hs in E. lia.
Qed.

Lemma startsWith_app (p a b : str) :
  startsWith p a = true -> startsWith p (a ++ b) = true.
Proof.
  unfold startsWith. destruct (stripPrefix p a) as [t|] eqn:E; [|discriminate].
  now rewrite (stripPrefix_app_r _ _ _ b E).
Qed.

Lemma includes_app_false (p a b : str) :
  includes p (a ++ b) = false -> includes p a = false.
Proof.
  induction a as [|c a IH].
  - cbn [app includes]. destruct b as [|y b].
    + trivial.
    + cbn [includes]. intros H. apply orb_false_iff in H as [H _].
      rewrite orb_false_r. destruct (startsWith p []) eqn:E; [|reflexivity].
      apply (startsWith_app _ _ (y :: b)) in E. cbn [app] in E. congruence.
  - change ((c :: a) ++ b) with (c :: (a ++ b)). cbn [includes].
    intros H. apply orb_false_iff in H as [H1 H2].
    rewrite (IH H2), orb_false_r.
    destruct (startsWith p (c :: a)) eqn:E; [|reflexivity].
    apply (startsWith_app _ _ b) in E. cbn [app] in E. congruence.
Qed.

Lemma executeCode_ready now code st :
  isReady st = true -> hasStdin st = true ->
  executeCode now code st
  = {| hasStdin := true; stdin := stdin st ++ instrumented now code;
       outputBuffer := []; isExecuting := true;
       pendingResolve := Some (nextPromise st); currentOutputs := [];
       isReady := true; currentEndMarker := Some (endMarkerOf now);
       waiting := waiting st; timers := S (timers st);
       settled := settled st; nextPromise := S (nextPromise st) |}.
Proof.
  intros Hr Hs. unfold executeCode, executeBody. rewrite Hr. cbn. rewrite Hs. reflexivity.
Qed.

(** *** Side log: a time-out rejects *)

Lemma resolve_mono p v tbl q x :
  tbl !! q = Some x -> OutputWatcher.resolve p v tbl !! q = Some x.
Proof.
  intros H. unfold OutputWatcher.resolve. destruct (tbl !! p) eqn:E; [exact H|].
  rewrite lookup_insert_ne; [exact H|]. congruence.
Qed.

Lemma storeOutput_mono o w q x :
  OutputWatcher.settled w !! q = Some x ->
  OutputWatcher.settled (OutputWatcher.storeOutput o w) !! q = Some x.
Proof.
  intros H. unfold OutputWatcher.storeOutput.
  destruct (decide _); [|exact H].
  destruct (OutputWatcher.cellCallbacks w !! OutputWatcher.cellId o); [|exact H].
  cbn [OutputWatcher.settled]. now apply resolve_mono.
Qed.

Lemma blockLoop_mono (s : str) q x :
  forall w log,
    OutputWatcher.settled w !! q = Some x ->
    OutputWatcher.settled (fst (fst (OutputWatcher.blockLoop s w log))) !! q = Some x.
Proof.
  induction s as [s IH] using blockLoop_rect. intros w log Hw.
  destruct (search OutputWatcher.blockRegex s) as [[i m]|] eqn:E.
  - rewrite (blockLoop_Some s _ _ _ _ E). apply (IH _ _ eq_refl). now apply storeOutput_mono.
  - now rewrite (blockLoop_None s _ _ E).
Qed.

(** A settled promise stays settled. *)
Lemma processNewOutput_mono file w q x :
  OutputWatcher.settled w !! q = Some x ->
  OutputWatcher.settled (fst (OutputWatcher.processNewOutput file w)) !! q = Some x.
Proof.
  intros Hw. unfold OutputWatcher.processNewOutput. destruct file as [fileContent|]; [|exact Hw].
  destruct (drop _ fileContent) as [|c new]; [exact Hw|].
  destruct (trim _); [exact Hw|].
  match goal with |- context [OutputWatcher.blockLoop ?s ?w0 ?l] =>
    pose proof (blockLoop_mono s q x w0 l Hw) as H;
    destruct (OutputWatcher.blockLoop s w0 l) as [[w2 log] rest] end.
  exact H.
Qed.

(** The polls of the watcher's interval, one file reading each. *)
Definition pollFiles (files : list (option str)) (w : OutputWatcher.Watcher)
  : OutputWatcher.Watcher :=
  fold_left (fun w file => fst (OutputWatcher.processNewOutput file w)) files w.

Lemma pollFiles_mono (files : list (option str)) q x :
  forall w,
    OutputWatcher.settled w !! q = Some x ->
    OutputWatcher.settled (pollFiles files w) !! q = Some x.
Proof.
  unfold pollFiles. induction files as [|file files IH]; intros w Hw; [exact Hw|].
  cbn [fold_left]. apply IH. now apply processNewOutput_mono.
Qed.



(** *** Overlapping calls *)

(** A session that is ready takes a first request at clock 2000; a second
    call comes at clock 2500, before any output of the first. *)
Definition busySession : Pty :=
  fst (run [Open; ReadyTimer 1500; ExecuteCode 2000 (lit "Sys.sleep(2); 1")] (newPty, ∅)).

(** The second call does not wait: the session is executing, the first
    promise (number 0) is unsettled, and the second call's code is on R's
    stdin at once. *)
Lemma second_call_overlaps_first :
  isExecuting busySession = true
  /\ settled busySession !! 0%nat = None
  /\ let st' := executeCode 2500 (lit "print(2)") busySession in
     stdin st' = stdin busySession ++ instrumented 2500 (lit "print(2)")
     /\ settled st' !! 0%nat = None.
Proof. vm_compute. repeat split; reflexivity. Qed.

(** Once the session is ready, no call is left waiting. *)
Lemma step_waiting_empty (e : Event) (s0 : Pty) (fs1 : FS) :
  (isReady s0 = true -> waiting s0 = []) ->
  isReady (fst (step e (s0, fs1))) = true -> waiting (fst (step e (s0, fs1))) = [].
Proof.
  intros H0. destruct e as [|now0|chunk|chunk|data|now0 code0|]; cbn [step fst].
  - exact H0.
  - intros _. unfold markReady.
    match goal with |- context [fold_left ?f ?ws ?x] =>
      destruct (resumeAll_fields now0 ws x) as (_ & -> & _) end.
    reflexivity.
  - unfold onStdout. destruct (isExecuting s0); [|exact H0].
    pose proof (checkForCommandEnd_fields (appendBuffer chunk s0) fs1)
      as (_ & Hwt & _ & Hr & _).
    cbn [appendBuffer waiting isReady] in Hwt, Hr. rewrite Hwt, Hr. exact H0.
  - unfold onStderr. destruct (isExecuting s0); exact H0.
  - unfold handleInput. destruct (_ && _); exact H0.
  - unfold executeCode. destruct (isReady s0) eqn:Er; cbn.
    + intros _. now apply H0.
    + discriminate.
  - unfold execTimer. destruct (timers s0); [exact H0|].
    match goal with |- context [finishExecution ?x fs1] =>
      pose proof (finishExecution_fields x fs1) as (_ & Hwt & _ & Hr & _) end.
    cbn [waiting isReady] in Hwt, Hr. rewrite Hwt, Hr. exact H0.
Qed.

Lemma run_waiting_empty (events : list Event) :
  forall s0 fs1,
    (isReady s0 = true -> waiting s0 = []) ->
    isReady (fst (run events (s0, fs1))) = true ->
    waiting (fst (run events (s0, fs1))) = [].
Proof.
  unfold run. induction events as [|e events IH]; intros s0 fs1 H0; [exact H0|].
  cbn [fold_left]. pose proof (step_waiting_empty e s0 fs1 H0) as H.
  destruct (step e (s0, fs1)) as [s0' fs1']. now apply IH.
Qed.

(** C3, as the code has it: [executeCode] does not queue behind a running
    request.  A call made while a request is executing writes its code to
    the session at once and takes over the buffer and the resolver; the
    promise of the request it displaced is unsettled then and is never
    settled afterwards. *)
Theorem executeCode_does_not_wait
        (history : list Event) (fs0 : FS) (st : Pty) (fs : FS)
        (now : N) (code : str) (q : nat) :
  run history (newPty, fs0) = (st, fs) ->
  isReady st = true -> hasStdin st = true ->
  isExecuting st = true -> pendingResolve st = Some q -> settled st !! q = None ->
  let st' := executeCode now code st in
  stdin st' = stdin st ++ instrumented now code
  /\ outputBuffer st' = []
  /\ pendingResolve st' = Some (nextPromise st)
  /\ pendingResolve st' <> Some q
  /\ (forall later fs', settled (fst (run later (st', fs'))) !! q = None).
Proof.
  intros Hrun Hready Hstdin Hex Hq Hs st'.
  destruct (reachable_fresh _ _ _ _ Hrun) as [(Hp & _ & _) _].
  specialize (Hp _ Hq).
  pose proof (run_waiting_empty history newPty fs0 (fun _ => eq_refl)) as Hempty.
  rewrite Hrun in Hempty. cbn [fst] in Hempty. specialize (Hempty Hready).
  assert (orphan q st') as Ho.
  { subst st'. rewrite executeCode_ready by assumption. unfold orphan. cbn. repeat split.
    - intros E; injection E as E. lia.
    - rewrite Hempty. intros code' [].
    - lia. }
  assert (forall later fs', settled (fst (run later (st', fs'))) !! q = None) as Hlater.
  { intros later fs'. rewrite (run_orphan later q st' fs' Ho).
    subst st'. now rewrite executeCode_ready by assumption. }
  refine (conj _ (conj _ (conj _ (conj _ Hlater))));
    subst st'; rewrite executeCode_ready by assumption; cbn; try reflexivity.
  intros E; injection E as E. lia.
Qed.

(** *** Execution ids *)

(** Two calls in the same millisecond, neither awaited; then R echoes the
    first request up to its end marker. *)
Definition echoOfFirst : str :=
  lit "> .quarto_exec_id_1700000000000 <- TRUE" ++ [LF]
  ++ lit "> 1" ++ [LF] ++ lit "[1] 1" ++ [LF]
  ++ lit "> .quarto_exec_id_1700000000000_complete <- TRUE" ++ [LF].

Definition sameMillisecond : list Event :=
  [ Open; ReadyTimer 1500;
    ExecuteCode 1700000000000 (lit "1");
    ExecuteCode 1700000000000 (lit "2") ].

(** C7 at the failing input: both requests carry the id 1700000000000, so
    the end marker of the first request completes the second one, which
    resolves with the first request's output; the first never resolves. *)
Lemma same_millisecond_same_id :
  currentEndMarker (fst (run (take 3 sameMillisecond) (newPty, ∅)))
  = currentEndMarker (fst (run sameMillisecond (newPty, ∅)))
  /\ (let st := fst (run (sameMillisecond ++ [Stdout echoOfFirst]) (newPty, ∅)) in
      settled st !! 1%nat = Some [ mkOutputData text (lit "[1] 1") None ]
      /\ settled st !! 0%nat = None).
Proof. vm_compute. repeat split; reflexivity. Qed.

(** The id is the clock reading and nothing else. *)
Lemma endMarker_of_clock now code p st :
  hasStdin st = true ->
  currentEndMarker (executeBody now code p st)
  = Some (commandMarker ++ toString now ++ endMarker).
Proof.
  intros H. unfold executeBody. cbn [currentEndMarker]. rewrite H.
  unfold endMarkerOf, startMarkerOf, execId. now rewrite <- app_assoc.
Qed.

Lemma lit_inj (a b : string) : lit a = lit b -> a = b.
Proof.
  unfold lit. intros H.
  assert (list_ascii_of_string a = list_ascii_of_string b) as H'.
  { revert H. generalize (list_ascii_of_string a) (list_ascii_of_string b).
    induction l as [|x l IH]; intros [|y l']; simpl; try discriminate; [reflexivity|].
    intros E. injection E as E1 E2. f_equal; [|now apply IH].
    rewrite <- (ascii_N_embedding x), <- (ascii_N_embedding y). now rewrite E1. }
  rewrite <- (string_of_list_ascii_of_string a), <- (string_of_list_ascii_of_string b).
  now rewrite H'.
Qed.

Lemma toString_inj (a b : N) : toString a = toString b -> a = b.
Proof.
  unfold toString. intros H. apply lit_inj in H.
  assert (N.to_uint a = N.to_uint b) as H'.
  { pose proof (NilEmpty.usu (N.to_uint a)) as Ha.
    pose proof (NilEmpty.usu (N.to_uint b)) as Hb.
    rewrite H in Ha. congruence. }
  rewrite <- (DecimalN.Unsigned.of_to a), <- (DecimalN.Unsigned.of_to b). now rewrite H'.
Qed.

(** Two requests carry the same end marker exactly when their clock
    readings are equal. *)
Lemma endMarkerOf_inj (a b : N) : endMarkerOf a = endMarkerOf b <-> a = b.
Proof.
  split; [|now intros ->].
  unfold endMarkerOf, startMarkerOf, execId. intros H.
  apply app_inv_tail, app_inv_head in H. now apply toString_inj.
Qed.
(** *** Readiness *)

(** The pseudoterminal is ready 1500 ms after [open], with no output of
    the session seen at all. *)
Lemma ready_after_fixed_delay :
  isReady (fst (run [Open; ReadyTimer 1500] (newPty, ∅))) = true.
Proof. reflexivity. Qed.

Lemma resumeAll_isReady now (ws : list (nat * str)) :
  forall st,
    isReady (fold_left (fun s '(p, code) => executeBody now code p s) ws st) = isReady st.
Proof.
  induction ws as [|[p code] ws IH]; intros st; cbn [fold_left]; [reflexivity|].
  now rewrite IH.
Qed.

Lemma waitReady_returned dir (ps : list QuartoNotebookController.ReadyPoll) :
  forall sent,
    fst (QuartoNotebookController.waitReady dir ps sent)
    = QuartoNotebookController.SetupReturned ->
    exists poll, In poll ps /\ QuartoNotebookController.readyExists poll = true.
Proof.
  induction ps as [|p ps IH]; intros sent; cbn [QuartoNotebookController.waitReady fst].
  - discriminate.
  - destruct (QuartoNotebookController.readyExists p) eqn:E.
    + intros _. exists p. split; [now left|exact E].
    + destruct (_ <? _).
      * destruct (QuartoNotebookController.readyAfterRetry p); [|discriminate].
        intros H. destruct (IH _ H) as (poll & Hin & Hr). exists poll. split; [now right|exact Hr].
      * intros H. destruct (IH _ H) as (poll & Hin & Hr). exists poll. split; [now right|exact Hr].
Qed.

(** C8, as the code has it: the side-log controller takes the session as
    set up only when the ready file was seen, on entry if the setup had
    been done before, or else by a turn of the waiting loop; the
    pseudoterminal is ready as soon as its 1500 ms timer fires. *)
Theorem setup_ready_signal (outputDir : str)
        (env : QuartoNotebookController.SetupEnv)
        (c : QuartoNotebookController.Controller) :
  QuartoNotebookController.rSetupSourced
    (fst (QuartoNotebookController.ensureRSetup outputDir env c)) = true ->
  ((QuartoNotebookController.rSetupSourced c = true
    /\ QuartoNotebookController.terminalCreated env = false
    /\ QuartoNotebookController.terminalExited env = false
    /\ QuartoNotebookController.readyAtEntry env = true)
   \/ (exists poll,
          In poll (QuartoNotebookController.polls env)
          /\ QuartoNotebookController.readyExists poll = true))
  /\ (forall now st, isReady (markReady now st) = true).
Proof.
  intros H. split.
  - unfold QuartoNotebookController.ensureRSetup in H.
    destruct (QuartoNotebookController.terminalCreated env) eqn:Ec;
      destruct (QuartoNotebookController.rSetupSourced c) eqn:Es;
      destruct (QuartoNotebookController.terminalExited env) eqn:Ex;
      destruct (QuartoNotebookController.readyAtEntry env) eqn:Er;
      cbn [andb negb] in H; try (left; tauto);
      right;
      destruct (QuartoNotebookController.waitReady _ _ _) as [outcome sent'] eqn:Ew;
      cbn [fst QuartoNotebookController.rSetupSourced] in H;
      destruct outcome; try discriminate;
      eapply (waitReady_returned outputDir); erewrite Ew; reflexivity.
  - intros now st. unfold markReady. now rewrite resumeAll_isReady.
Qed.

(** *** The user's input *)

(** What the user types while a request is executing is dropped. *)
Lemma input_dropped_while_executing :
  hasStdin busySession = true
  /\ stdin (handleInput (lit "ls()" ++ [LF]) busySession) = stdin busySession.
Proof. vm_compute. split; reflexivity. Qed.

(** C10, as the code has it: input typed into the terminal goes to R's
    stdin when no request is executing; while one is executing it is
    discarded, leaving no trace in the pseudoterminal. *)
Theorem handleInput_forwarding (data : str) (st : Pty) :
  hasStdin st = true ->
  (isExecuting st = false -> stdin (handleInput data st) = stdin st ++ [data])
  /\ (isExecuting st = true -> handleInput data st = st).
Proof.
  intros H. unfold handleInput. rewrite H.
  split; intros E; rewrite E; reflexivity.
Qed.

End Pseudoterminal.

Lemma executeCode_does_not_wait_witness :
  let st' := RPseudoterminalSimple.executeCode 2500 (JS.lit "print(2)") busySession in
  RPseudoterminalSimple.pendingResolve st' = Some 1%nat
  /\ RPseudoterminalSimple.settled
       (fst (RPseudoterminalSimple.run
               [RPseudoterminalSimple.Stdout (JS.lit ".quarto_exec_id_2000_complete <- TRUE");
                RPseudoterminalSimple.Stdout (JS.lit ".quarto_exec_id_2500_complete <- TRUE");
                RPseudoterminalSimple.ExecTimer; RPseudoterminalSimple.ExecTimer]
               (st', ∅)))
     !! 0%nat = None.
Proof.
  intros st'.
  destruct (executeCode_does_not_wait
              [RPseudoterminalSimple.Open; RPseudoterminalSimple.ReadyTimer 1500;
               RPseudoterminalSimple.ExecuteCode 2000 (JS.lit "Sys.sleep(2); 1")]
              ∅ busySession ∅ 2500 (JS.lit "print(2)") 0%nat)
    as (_ & _ & H3 & _ & H); try reflexivity.
  split; [exact H3|apply H].
Defined.

Lemma setup_ready_signal_witness :
  QuartoNotebookController.rSetupSourced
    (fst (QuartoNotebookController.ensureRSetup sampleDir sampleEnv
            QuartoNotebookController.newController)) = true
  /\ exists poll,
       In poll (QuartoNotebookController.polls sampleEnv)
       /\ QuartoNotebookController.readyExists poll = true.
Proof.
  split; [reflexivity|].
  destruct (setup_ready_signal sampleDir sampleEnv QuartoNotebookController.newController)
    as [[H|H] _]; [reflexivity| |exact H].
  destruct H as (H & _). discriminate.
Defined.

Lemma handleInput_forwarding_witness :
  RPseudoterminalSimple.handleInput (JS.lit "ls()") busySession = busySession.
Proof.
  destruct (handleInput_forwarding (JS.lit "ls()") busySession) as [_ H];
    [reflexivity|].
  apply H. reflexivity.
Defined.

(** ** Plot files *)

Section PlotFiles.
Import JS Regex OutputWatcher.

Definition plotFile : str := lit "/tmp/quarto-inline/plots/plot_c1_101500.123.png".
Definition pngBytes : list N := [137; 80; 78; 71; 13; 10; 26; 10].

(** The side-log classification never deletes a file. *)
Lemma cellOutputsToNotebookOutput_keeps_files (outputs : list CellOutput) (fs : FS) :
  snd (cellOutputsToNotebookOutput outputs fs) = fs.
Proof.
  induction outputs as [|o outputs IH]; cbn [cellOutputsToNotebookOutput]; [reflexivity|].
  assert (snd (notebookOutputOf o fs) = fs) as H.
  { unfold notebookOutputOf. repeat (destruct (_ || _) || destruct (bool_decide _)
                                     || destruct (_ !! _)); reflexivity. }
  destruct (notebookOutputOf o fs) as [here fs1]. cbn [snd] in H. subst fs1.
  destruct (cellOutputsToNotebookOutput outputs fs) as [more fs2]. exact IH.
Qed.

(** A PLOT record of an existing file becomes one image item with the
    bytes of the file. *)
Lemma plot_record_side_log (o : CellOutput) (fs : FS) (bytes : list N) :
  type o = lit "PLOT" -> fs !! content o = Some bytes ->
  cellOutputsToNotebookOutput [o] fs
  = ([mkNotebookCellOutput [ItemData bytes (lit "image/png")]], fs).
Proof.
  intros Hty Hfs. cbn [cellOutputsToNotebookOutput]. unfold notebookOutputOf.
  rewrite Hty, Hfs. reflexivity.
Qed.

(** C4 at the failing input, on the side log: the PLOT record yields the
    image with the bytes of the file, and the file is still there. *)
Lemma plot_file_survives_side_log :
  let fs : FS := {[ plotFile := pngBytes ]} in
  let '(notebookOutputs, fs') :=
    cellOutputsToNotebookOutput [mkCellOutput (lit "PLOT") plotFile (lit "c1")] fs in
  notebookOutputs = [mkNotebookCellOutput [ItemData pngBytes (lit "image/png")]]
  /\ fs' !! plotFile = Some pngBytes.
Proof. vm_compute. split; reflexivity. Qed.

(** The sibling path: the scrape channel reads the file named by the plot
    marker, encodes it and unlinks it. *)
Lemma plot_file_unlinked_scrape :
  RPseudoterminalSimple.parseOutputBuffer
    (lit "###QUARTO_PLOT###" ++ plotFile ++ lit "###END_PLOT###" ++ [LF]) []
    {[ plotFile := pngBytes ]}
  = ([RPseudoterminalSimple.mkOutputData RPseudoterminalSimple.image
        (lit "iVBORw0KGgo=") (Some (lit "image/png"))], ∅).
Proof. vm_compute. reflexivity. Qed.
End PlotFiles.

(** * Further properties of the side log *)

Section SideLog.
Import JS Regex OutputWatcher.

(** ** A settled promise keeps its value *)




(** ** Polling an unchanged file *)

Lemma blockLoop_lastPosition (s : str) :
  forall w log, lastPosition (fst (fst (blockLoop s w log))) = lastPosition w.
Proof.
  induction s as [s IH] using blockLoop_rect. intros w log.
  destruct (search blockRegex s) as [[i m]|] eqn:E.
  - rewrite (blockLoop_Some s _ _ _ _ E), (IH _ _ eq_refl).
    unfold storeOutput. destruct (decide _); [|reflexivity].
    destruct (cellCallbacks w !! _); reflexivity.
  - now rewrite (blockLoop_None s _ _ E).
Qed.

Lemma processNewOutput_lastPosition (fileContent : str) (w : Watcher) :
  lastPosition (fst (processNewOutput (Some fileContent) w)) = length fileContent.
Proof.
  unfold processNewOutput.
  destruct (drop _ fileContent) as [|c new]; [reflexivity|].
  destruct (trim _); [reflexivity|].
  match goal with |- context [blockLoop ?s ?w0 ?l] =>
    pose proof (blockLoop_lastPosition s w0 l) as H;
    destruct (blockLoop s w0 l) as [[w2 log] rest] end.
  exact H.
Qed.

(** A poll that finds the file no longer than the position already read
    parses nothing and changes nothing but the position, which falls back
    to the length of the file. *)
Lemma processNewOutput_nothing_new (fileContent : str) (w : Watcher) :
  (length fileContent <= lastPosition w)%nat ->
  processNewOutput (Some fileContent) w
  = (withBuffer (length fileContent) (pendingContent w) w, []).
Proof.
  intros H. unfold processNewOutput. rewrite drop_ge by exact H. reflexivity.
Qed.

(** X2: A second poll of the same file content delivers no record again and
    leaves the watcher as the first poll left it: stored lists, callbacks,
    settled promises and the retained partial block. *)
Theorem repoll_is_idempotent (fileContent : str) (w : Watcher) :
  let w1 := fst (processNewOutput (Some fileContent) w) in
  processNewOutput (Some fileContent) w1 = (w1, []).
Proof.
  intros w1. rewrite processNewOutput_nothing_new.
  - pose proof (processNewOutput_lastPosition fileContent w) as H. fold w1 in H.
    destruct w1; cbn in *. subst. reflexivity.
  - unfold w1. now rewrite processNewOutput_lastPosition.
Qed.

End SideLog.

Section Isolation.
Import JS Regex OutputWatcher.

(** Every stored list holds records of its own key only. *)
Definition storedById (w : Watcher) : Prop :=
  forall id l, cellOutputs w !! id = Some l -> Forall (fun o => cellId o = id) l.

(** Promise numbers in use are below [nextPromise]. *)
Definition numbered (w : Watcher) : Prop :=
  (forall id cb, cellCallbacks w !! id = Some cb -> (cb_promise cb < nextPromise w)%nat)
  /\ (forall q v, settled w !! q = Some v -> (q < nextPromise w)%nat).

(** Promise [p] was handed out for cell [id]: only the callback of [id]
    can resolve it, and a value it has is made of records of [id]. *)
Definition handedOutFor (p : nat) (id : str) (w : Watcher) : Prop :=
  (p < nextPromise w)%nat
  /\ (forall id' cb, cellCallbacks w !! id' = Some cb -> cb_promise cb = p -> id' = id)
  /\ (forall v, settled w !! p = Some v -> Forall (fun o => cellId o = id) v).

Lemma filterOutputs_Forall (P : CellOutput -> Prop) outputs options :
  Forall P outputs -> Forall P (filterOutputs outputs options).
Proof.
  rewrite !Forall_forall. intros H o Ho. apply H.
  apply list_elem_of_In. apply list_elem_of_In in Ho.
  unfold filterOutputs in Ho. apply filter_In in Ho. tauto.
Qed.

Lemma storeOutput_storedById o w : storedById w -> storedById (storeOutput o w).
Proof.
  intros Hw.
  assert (forall id l,
    <[cellId o := default [] (cellOutputs w !! cellId o) ++ [o]]> (cellOutputs w) !! id
    = Some l -> Forall (fun o => cellId o = id) l) as H.
  { intros id l. destruct (decide (cellId o = id)) as [<-|Hne].
    - rewrite lookup_insert_eq. intros E; injection E as <-.
      apply Forall_app. split; [|now constructor].
      destruct (cellOutputs w !! cellId o) as [l0|] eqn:E0; [|constructor].
      now apply Hw.
    - rewrite lookup_insert_ne by assumption. apply Hw. }
  unfold storeOutput. destruct (decide _); [|exact H].
  destruct (cellCallbacks w !! cellId o); exact H.
Qed.

Lemma blockLoop_storedById (s : str) :
  forall w log, storedById w -> storedById (fst (fst (blockLoop s w log))).
Proof.
  induction s as [s IH] using blockLoop_rect. intros w log Hw.
  destruct (search blockRegex s) as [[i m]|] eqn:E.
  - rewrite (blockLoop_Some s _ _ _ _ E). apply (IH _ _ eq_refl).
    now apply storeOutput_storedById.
  - now rewrite (blockLoop_None s _ _ E).
Qed.

Lemma applyOp_storedById op w : storedById w -> storedById (applyOp op w).
Proof.
  intros Hw. destruct op as [|id yamlOptions|file|id]; cbn [applyOp].
  - exact Hw.
  - unfold waitForCell. destruct (cellOutputs w !! id) as [existing|]; [|exact Hw].
    destruct (existsb _ existing); exact Hw.
  - unfold processNewOutput. destruct file as [fileContent|]; [|exact Hw].
    destruct (drop _ fileContent) as [|c new]; [exact Hw|].
    destruct (trim _); [exact Hw|].
    match goal with |- context [blockLoop ?s ?w0 ?l] =>
      pose proof (blockLoop_storedById s w0 l Hw) as H;
      destruct (blockLoop s w0 l) as [[w2 log] rest] end.
    exact H.
  - intros id' l. unfold clearCellOutput. cbn [cellOutputs].
    destruct (decide (id = id')) as [->|Hne].
    + rewrite lookup_delete_eq. discriminate.
    + rewrite lookup_delete_ne by assumption. apply Hw.
Qed.

Lemma storeOutput_numbered o w : numbered w -> numbered (storeOutput o w).
Proof.
  intros [Hc Hs]. unfold storeOutput. destruct (decide _); [|split; assumption].
  destruct (cellCallbacks w !! cellId o) as [cb|] eqn:E; [|split; assumption].
  split; cbn [cellCallbacks settled nextPromise].
  - intros id cb'. destruct (decide (cellId o = id)) as [->|Hne].
    + rewrite lookup_delete_eq. discriminate.
    + rewrite lookup_delete_ne by assumption. apply Hc.
  - intros q v. unfold resolve. destruct (settled w !! cb_promise cb); [apply Hs|].
    destruct (decide (cb_promise cb = q)) as [<-|Hne].
    + intros _. now apply (Hc _ _ E).
    + rewrite lookup_insert_ne by assumption. apply Hs.
Qed.

Lemma blockLoop_numbered (s : str) :
  forall w log, numbered w -> numbered (fst (fst (blockLoop s w log))).
Proof.
  induction s as [s IH] using blockLoop_rect. intros w log Hw.
  destruct (search blockRegex s) as [[i m]|] eqn:E.
  - rewrite (blockLoop_Some s _ _ _ _ E). apply (IH _ _ eq_refl).
    now apply storeOutput_numbered.
  - now rewrite (blockLoop_None s _ _ E).
Qed.

Lemma waitForCell_numbered id yamlOptions w :
  numbered w -> numbered (fst (waitForCell id yamlOptions w)).
Proof.
  intros [Hc Hs]. unfold waitForCell.
  assert (numbered
    {| lastPosition := lastPosition w; pendingContent := pendingContent w;
       cellOutputs := cellOutputs w;
       cellCallbacks := <[id := mkCallback (nextPromise w)
                                  (spread defaultYamlOptions yamlOptions)]> (cellCallbacks w);
       settled := settled w; nextPromise := S (nextPromise w) |}) as Hreg.
  { split; cbn [cellCallbacks settled nextPromise].
    - intros id' cb. destruct (decide (id = id')) as [->|Hne].
      + rewrite lookup_insert_eq. intros E; injection E as <-. cbn. lia.
      + rewrite lookup_insert_ne by assumption. intros E. specialize (Hc _ _ E). lia.
    - intros q v E. specialize (Hs _ _ E). lia. }
  destruct (cellOutputs w !! id) as [existing|]; [|exact Hreg].
  destruct (existsb _ existing); [|exact Hreg].
  split; cbn [fst cellCallbacks settled nextPromise].
  - intros id' cb E. specialize (Hc _ _ E). lia.
  - intros q v. unfold resolve. destruct (settled w !! nextPromise w) eqn:E0.
    + intros E. specialize (Hs _ _ E). lia.
    + destruct (decide (nextPromise w = q)) as [<-|Hne]; [lia|].
      rewrite lookup_insert_ne by assumption. intros E. specialize (Hs _ _ E). lia.
Qed.

Lemma applyOp_numbered op w : numbered w -> numbered (applyOp op w).
Proof.
  intros Hw. destruct op as [|id yamlOptions|file|id]; cbn [applyOp].
  - exact Hw.
  - now apply waitForCell_numbered.
  - unfold processNewOutput. destruct file as [fileContent|]; [|exact Hw].
    destruct (drop _ fileContent) as [|c new]; [exact Hw|].
    destruct (trim _); [exact Hw|].
    match goal with |- context [blockLoop ?s ?w0 ?l] =>
      pose proof (blockLoop_numbered s w0 l Hw) as H;
      destruct (blockLoop s w0 l) as [[w2 log] rest] end.
    exact H.
  - exact Hw.
Qed.

Lemma runOps_invariants ops :
  forall w, storedById w -> numbered w ->
            storedById (runOps ops w) /\ numbered (runOps ops w).
Proof.
  induction ops as [|op ops IH]; intros w H1 H2; [now split|].
  apply IH; [now apply applyOp_storedById | now apply applyOp_numbered].
Qed.

Lemma storeOutput_handedOutFor p id o w :
  storedById w -> handedOutFor p id w -> handedOutFor p id (storeOutput o w).
Proof.
  intros Hst (Hlt & Hcb & Hv). unfold storeOutput.
  destruct (decide _); [|repeat split; assumption].
  destruct (cellCallbacks w !! cellId o) as [cb|] eqn:E; [|repeat split; assumption].
  repeat split; cbn [cellCallbacks settled nextPromise].
  - exact Hlt.
  - intros id' cb'. destruct (decide (cellId o = id')) as [->|Hne].
    + rewrite lookup_delete_eq. discriminate.
    + rewrite lookup_delete_ne by assumption. apply Hcb.
  - intros v. unfold resolve. destruct (settled w !! cb_promise cb) eqn:E0; [apply Hv|].
    destruct (decide (cb_promise cb = p)) as [Heq|Hne].
    + rewrite Heq, lookup_insert_eq. intros Hi; injection Hi as <-.
      apply filterOutputs_Forall. rewrite <- (Hcb _ _ E Heq).
      apply Forall_app. split; [|now constructor].
      destruct (cellOutputs w !! cellId o) as [l0|] eqn:E1; [|constructor].
      now apply Hst.
    + rewrite lookup_insert_ne by assumption. apply Hv.
Qed.

Lemma blockLoop_handedOutFor p id (s : str) :
  forall w log, storedById w -> handedOutFor p id w ->
                handedOutFor p id (fst (fst (blockLoop s w log))).
Proof.
  induction s as [s IH] using blockLoop_rect. intros w log Hst Hw.
  destruct (search blockRegex s) as [[i m]|] eqn:E.
  - rewrite (blockLoop_Some s _ _ _ _ E). apply (IH _ _ eq_refl).
    + now apply storeOutput_storedById.
    + now apply storeOutput_handedOutFor.
  - now rewrite (blockLoop_None s _ _ E).
Qed.

Lemma applyOp_handedOutFor p id op w :
  storedById w -> handedOutFor p id w -> handedOutFor p id (applyOp op w).
Proof.
  intros Hst Hw. destruct op as [|id2 yamlOptions|file|id2]; cbn [applyOp].
  - exact Hw.
  - destruct Hw as (Hlt & Hcb & Hv). unfold waitForCell.
    assert (handedOutFor p id
      {| lastPosition := lastPosition w; pendingContent := pendingContent w;
         cellOutputs := cellOutputs w;
         cellCallbacks := <[id2 := mkCallback (nextPromise w)
                                    (spread defaultYamlOptions yamlOptions)]> (cellCallbacks w);
         settled := settled w; nextPromise := S (nextPromise w) |}) as Hreg.
    { repeat split; cbn [cellCallbacks settled nextPromise].
      - lia.
      - intros id' cb. destruct (decide (id2 = id')) as [->|Hne].
        + rewrite lookup_insert_eq. intros E; injection E as <-. cbn. lia.
        + rewrite lookup_insert_ne by assumption. apply Hcb.
      - exact Hv. }
    destruct (cellOutputs w !! id2) as [existing|]; [|exact Hreg].
    destruct (existsb _ existing); [|exact Hreg].
    repeat split; cbn [fst cellCallbacks settled nextPromise].
    + lia.
    + exact Hcb.
    + intros v. unfold resolve. destruct (settled w !! nextPromise w); [apply Hv|].
      rewrite lookup_insert_ne by lia. apply Hv.
  - unfold processNewOutput. destruct file as [fileContent|]; [|exact Hw].
    destruct (drop _ fileContent) as [|c new]; [exact Hw|].
    destruct (trim _); [exact Hw|].
    match goal with |- context [blockLoop ?s ?w0 ?l] =>
      pose proof (blockLoop_handedOutFor p id s w0 l Hst Hw) as H;
      destruct (blockLoop s w0 l) as [[w2 log] rest] end.
    exact H.
  - exact Hw.
Qed.

Lemma runOps_handedOutFor p id ops :
  forall w, storedById w -> handedOutFor p id w -> handedOutFor p id (runOps ops w).
Proof.
  induction ops as [|op ops IH]; intros w Hst Hw; [exact Hw|].
  apply IH; [now apply applyOp_storedById | now apply applyOp_handedOutFor].
Qed.

Lemma waitForCell_handedOutFor id yamlOptions w :
  storedById w -> numbered w ->
  handedOutFor (snd (waitForCell id yamlOptions w)) id (fst (waitForCell id yamlOptions w)).
Proof.
  intros Hst [Hc Hs]. unfold waitForCell.
  destruct (cellOutputs w !! id) as [existing|] eqn:E.
  1: destruct (existsb _ existing).
  1: { repeat split; cbn [fst snd cellCallbacks settled nextPromise].
       - lia.
       - intros id' cb Hcb Hp. specialize (Hc _ _ Hcb). lia.
       - intros v. unfold resolve. destruct (settled w !! nextPromise w) eqn:E0.
         + specialize (Hs _ _ E0). lia.
         + rewrite lookup_insert_eq. intros Hi; injection Hi as <-.
           apply filterOutputs_Forall. now apply Hst. }
  all: repeat split; cbn [fst snd cellCallbacks settled nextPromise]; try lia.
  all: try (intros id' cb; destruct (decide (id = id')) as [->|Hne];
            [reflexivity | rewrite lookup_insert_ne by assumption;
                           intros Hcb Hp; specialize (Hc _ _ Hcb); lia]).
  all: intros v Hv; specialize (Hs _ _ Hv); lia.
Qed.

(** X3: Whatever was done to the watcher before and whatever is done after,
    the list delivered through the promise that [waitForCell id] returned
    holds only records written under [id]: outputs of other cells, and
    callbacks registered for other cells, never leak into it. *)
Theorem delivered_records_belong_to_the_cell
        (before later : list WatcherOp) (id : str) (yamlOptions : PartialYamlOptions)
        (outputs : list CellOutput) (o : CellOutput) :
  settled (runOps later (fst (waitForCell id yamlOptions (runOps before newWatcher))))
    !! snd (waitForCell id yamlOptions (runOps before newWatcher)) = Some outputs ->
  In o outputs ->
  cellId o = id.
Proof.
  assert (storedById newWatcher) as H1.
  { intros i l. cbn [cellOutputs newWatcher]. rewrite lookup_empty. discriminate. }
  assert (numbered newWatcher) as H2.
  { split; intros i l; cbn [cellCallbacks settled newWatcher];
      rewrite lookup_empty; discriminate. }
  destruct (runOps_invariants before newWatcher H1 H2) as [Hst Hnum].
  pose proof (waitForCell_handedOutFor id yamlOptions _ Hst Hnum) as Hw.
  assert (storedById (fst (waitForCell id yamlOptions (runOps before newWatcher)))) as Hst'.
  { exact (applyOp_storedById (OpWaitForCell id yamlOptions) _ Hst). }
  destruct (waitForCell id yamlOptions (runOps before newWatcher)) as [w p].
  cbn [fst snd] in *. intros Hp Ho.
  destruct (runOps_handedOutFor p id later w Hst' Hw) as (_ & _ & Hv).
  specialize (Hv _ Hp). rewrite Forall_forall in Hv. apply Hv.
  now apply list_elem_of_In.
Qed.

End Isolation.

Section Registration.
Import JS Regex OutputWatcher.

(** The loop body run on a list of records. *)
Definition storeAll (outputs : list CellOutput) (w : Watcher) : Watcher :=
  fold_left (fun w o => storeOutput o w) outputs w.

Definition isEnd (o : CellOutput) : bool := bool_decide (type o = lit "CELL_END").

(** The records of one cell, in file order. *)
Definition ofCell (id : str) (outputs : list CellOutput) : list CellOutput :=
  List.filter (fun o => bool_decide (cellId o = id)) outputs.

(** The records up to and including the first CELL_END. *)
Fixpoint upToEnd (l : list CellOutput) : option (list CellOutput) :=
  match l with
  | [] => None
  | o :: l' => if isEnd o then Some [o] else option_map (cons o) (upToEnd l')
  end.

Lemma blockLoop_stream_state (frames : list Frame) :
  Forall (fun f => wellFormed f = true) frames ->
  forall pre w log, pre = [] \/ pre = [LF] ->
    fst (fst (blockLoop (pre ++ stream frames) w log))
    = storeAll (map frameOutput frames) w.
Proof.
  induction 1 as [|f fs Hf Hfs IH]; intros pre w log Hpre.
  - cbn [stream map concat]. rewrite !app_nil_r.
    rewrite (blockLoop_None pre); [reflexivity|].
    destruct Hpre as [-> | ->]; apply search_block_nonhash; repeat constructor; discriminate.
  - cbn [stream map concat]. fold (stream fs).
    assert (exists i text,
               search blockRegex (pre ++ encodeFrame f ++ stream fs)
               = Some (i, mkMatch text (blockCaptures (f_type f) (f_id f) (f_content f))
                                  ([LF] ++ stream fs))) as (i & text & E).
    { destruct Hpre as [-> | ->]; [apply search_frame|apply search_LF_frame]; assumption. }
    rewrite (blockLoop_Some _ _ _ _ _ E). cbn [after]. rewrite blockOutput_frame.
    rewrite (IH [LF] _ _ (or_intror eq_refl)). reflexivity.
Qed.

(** One poll of a well-formed stream by a watcher at the start of the
    file stores its records one after the other. *)
Lemma single_read_state (frames : list Frame) (w : Watcher) :
  lastPosition w = 0%nat -> pendingContent w = [] ->
  Forall (fun f => wellFormed f = true) frames ->
  exists rest,
    fst (processNewOutput (Some (stream frames)) w)
    = withBuffer (length (stream frames)) rest (storeAll (map frameOutput frames) w).
Proof.
  intros Hpos Hp Hwf.
  assert (search blockRegex (pendingContent w) = None) as Hs.
  { rewrite Hp. cbn [search]. now rewrite matchAt_blockRegex. }
  rewrite (processNewOutput_blockLoop _ _ Hs), Hpos, Hp, drop_0.
  pose proof (blockLoop_stream_state frames Hwf [] w [] (or_introl eq_refl)) as H1.
  destruct (blockLoop ([] ++ stream frames) w []) as [[w1 log] rest].
  exists rest. cbn [fst] in *. now subst.
Qed.

Lemma storeAll_mono outputs : forall w q x,
  settled w !! q = Some x -> settled (storeAll outputs w) !! q = Some x.
Proof.
  induction outputs as [|o outputs IH]; intros w q x H; [exact H|].
  apply IH. now apply storeOutput_mono.
Qed.

(** The stored list of a cell grows by the records of that cell. *)
Lemma storeAll_cellOutputs (id : str) outputs : forall w,
  cellOutputs (storeAll outputs w) !! id
  = match ofCell id outputs with
    | [] => cellOutputs w !! id
    | l => Some (default [] (cellOutputs w !! id) ++ l)
    end.
Proof.
  induction outputs as [|o outputs IH]; intros w; [reflexivity|].
  cbn [storeAll fold_left]. fold (storeAll outputs (storeOutput o w)). rewrite IH.
  assert (cellOutputs (storeOutput o w)
          = <[cellId o := default [] (cellOutputs w !! cellId o) ++ [o]]> (cellOutputs w)) as ->.
  { unfold storeOutput. destruct (decide _); [|reflexivity].
    destruct (cellCallbacks w !! cellId o); reflexivity. }
  unfold ofCell. cbn [List.filter]. fold (ofCell id outputs).
  destruct (decide (cellId o = id)) as [<-|Hne].
  - rewrite bool_decide_eq_true_2 by reflexivity. rewrite lookup_insert_eq. cbn [from_option Datatypes.id].
    destruct (ofCell (cellId o) outputs); [reflexivity|].
    now rewrite <- app_assoc.
  - rewrite bool_decide_eq_false_2 by assumption. rewrite lookup_insert_ne by assumption.
    reflexivity.
Qed.

(** A registered callback whose promise is pending and is the callback's
    alone is called at the first CELL_END of its cell, with all records
    of the cell stored until then. *)
Lemma storeAll_pending (id : str) (cb : Callback) outputs : forall w,
  cellCallbacks w !! id = Some cb ->
  settled w !! cb_promise cb = None ->
  (forall id' cb', cellCallbacks w !! id' = Some cb' ->
                   cb_promise cb' = cb_promise cb -> id' = id) ->
  settled (storeAll outputs w) !! cb_promise cb
  = option_map
      (fun l => filterOutputs (default [] (cellOutputs w !! id) ++ l) (cb_options cb))
      (upToEnd (ofCell id outputs)).
Proof.
  induction outputs as [|o outputs IH]; intros w Hcb Hp Hown; [exact Hp|].
  cbn [storeAll fold_left]. fold (storeAll outputs (storeOutput o w)).
  unfold ofCell. cbn [List.filter]. fold (ofCell id outputs).
  destruct (decide (cellId o = id)) as [Hid|Hne].
  - rewrite bool_decide_eq_true_2 by assumption. cbn [upToEnd]. unfold isEnd.
    destruct (decide (type o = lit "CELL_END")) as [Hty|Hty].
    + rewrite bool_decide_eq_true_2 by assumption. cbn [option_map].
      apply storeAll_mono. unfold storeOutput.
      destruct (decide _) as [_|?]; [|contradiction].
      rewrite Hid, Hcb. cbn [settled]. unfold resolve. rewrite Hp.
      now rewrite lookup_insert_eq.
    + rewrite bool_decide_eq_false_2 by assumption.
      assert (storeOutput o w
              = mkWatcher (lastPosition w) (pendingContent w)
                  (<[id := default [] (cellOutputs w !! id) ++ [o]]> (cellOutputs w))
                  (cellCallbacks w) (settled w) (nextPromise w)) as ->.
      { unfold storeOutput. destruct (decide _) as [?|_]; [contradiction|].
        now rewrite Hid. }
      rewrite IH by assumption. cbn [cellOutputs]. rewrite lookup_insert_eq. cbn [from_option Datatypes.id].
      destruct (upToEnd (ofCell id outputs)) as [l|]; [|reflexivity].
      cbn [option_map]. now rewrite <- app_assoc.
  - rewrite bool_decide_eq_false_2 by assumption.
    assert (cellOutputs (storeOutput o w) !! id = cellOutputs w !! id) as Hout.
    { unfold storeOutput. destruct (decide _); [destruct (cellCallbacks w !! cellId o)|];
        cbn [cellOutputs]; now rewrite lookup_insert_ne. }
    rewrite <- Hout. apply IH.
    + unfold storeOutput. destruct (decide _); [|exact Hcb].
      destruct (cellCallbacks w !! cellId o); [|exact Hcb].
      cbn [cellCallbacks]. now rewrite lookup_delete_ne.
    + unfold storeOutput. destruct (decide _); [|exact Hp].
      destruct (cellCallbacks w !! cellId o) as [cb2|] eqn:E2; [|exact Hp].
      cbn [settled]. unfold resolve. destruct (settled w !! cb_promise cb2); [exact Hp|].
      rewrite lookup_insert_ne; [exact Hp|].
      intros Heq. apply Hne. now apply (Hown _ _ E2).
    + intros id' cb'. unfold storeOutput. destruct (decide _); [|apply Hown].
      destruct (cellCallbacks w !! cellId o); [|apply Hown].
      cbn [cellCallbacks]. destruct (decide (cellId o = id')) as [->|Hn].
      * rewrite lookup_delete_eq. discriminate.
      * rewrite lookup_delete_ne by assumption. apply Hown.
Qed.

Lemma storeAll_numbered outputs : forall w, numbered w -> numbered (storeAll outputs w).
Proof.
  induction outputs as [|o outputs IH]; intros w H; [exact H|].
  apply IH. now apply storeOutput_numbered.
Qed.

Lemma storeAll_nextPromise outputs : forall w,
  nextPromise (storeAll outputs w) = nextPromise w.
Proof.
  induction outputs as [|o outputs IH]; intros w; [reflexivity|].
  cbn [storeAll fold_left]. fold (storeAll outputs (storeOutput o w)). rewrite IH.
  unfold storeOutput. destruct (decide _); [destruct (cellCallbacks w !! cellId o)|];
    reflexivity.
Qed.

Lemma upToEnd_None (l : list CellOutput) : upToEnd l = None <-> existsb isEnd l = false.
Proof.
  induction l as [|o l IH]; [easy|]. cbn [upToEnd existsb].
  destruct (isEnd o); [easy|]. cbn [orb]. rewrite <- IH.
  destruct (upToEnd l); easy.
Qed.

(** The asynchronous path.  A cell registered before its records are read
    receives, at the poll that reads them, the records written under its
    id up to and including the first CELL_END, in file order and filtered
    by the policy given at registration; without a CELL_END the promise
    stays pending. *)
Lemma waitForCell_then_poll (w : Watcher) (id : str) (yamlOptions : PartialYamlOptions)
      (frames : list Frame) :
  numbered w -> lastPosition w = 0%nat -> pendingContent w = [] ->
  cellOutputs w !! id = None ->
  Forall (fun f => wellFormed f = true) frames ->
  settled (fst (processNewOutput (Some (stream frames)) (fst (waitForCell id yamlOptions w))))
    !! nextPromise w
  = option_map (fun l => filterOutputs l (spread defaultYamlOptions yamlOptions))
      (upToEnd (ofCell id (map frameOutput frames))).
Proof.
  intros [Hc Hs] Hpos Hpend Hnone Hwf. unfold waitForCell. rewrite Hnone. cbn [fst].
  match goal with |- context [processNewOutput _ ?w1] =>
    destruct (single_read_state frames w1 Hpos Hpend Hwf) as [rest ->];
    pose proof (storeAll_pending id (mkCallback (nextPromise w)
                 (spread defaultYamlOptions yamlOptions)) (map frameOutput frames) w1) as H
  end.
  cbn [cellCallbacks settled cellOutputs cb_promise cb_options] in H.
  rewrite Hnone in H. cbn [from_option Datatypes.id app] in H. unfold withBuffer. cbn [settled].
  apply H.
  - now rewrite lookup_insert_eq.
  - destruct (settled w !! nextPromise w) eqn:E; [|reflexivity].
    specialize (Hs _ _ E). lia.
  - intros id' cb'. destruct (decide (id = id')) as [->|Hne]; [reflexivity|].
    rewrite lookup_insert_ne by assumption. intros E Hp. specialize (Hc _ _ E). lia.
Qed.

(** The synchronous path.  A cell registered after its records were read
    is resolved at once when a CELL_END is among them, with every record
    stored under its id. *)
Lemma poll_then_waitForCell (w : Watcher) (id : str) (yamlOptions : PartialYamlOptions)
      (frames : list Frame) :
  numbered w -> lastPosition w = 0%nat -> pendingContent w = [] ->
  cellOutputs w !! id = None ->
  Forall (fun f => wellFormed f = true) frames ->
  let w1 := fst (processNewOutput (Some (stream frames)) w) in
  snd (waitForCell id yamlOptions w1) = nextPromise w
  /\ settled (fst (waitForCell id yamlOptions w1)) !! nextPromise w
     = if existsb isEnd (ofCell id (map frameOutput frames))
       then Some (filterOutputs (ofCell id (map frameOutput frames))
                    (spread defaultYamlOptions yamlOptions))
       else None.
Proof.
  intros Hnum Hpos Hpend Hnone Hwf w1.
  destruct (single_read_state frames w Hpos Hpend Hwf) as [rest Hw1]. fold w1 in Hw1.
  pose proof (storeAll_cellOutputs id (map frameOutput frames) w) as Hout.
  pose proof (storeAll_numbered (map frameOutput frames) w Hnum) as [_ Hs].
  rewrite storeAll_nextPromise in Hs.
  rewrite Hnone in Hout. cbn [from_option Datatypes.id app] in Hout.
  assert (settled w1 !! nextPromise w = None) as Hfresh.
  { rewrite Hw1. unfold withBuffer. cbn [settled].
    destruct (settled _ !! nextPromise w) eqn:E; [|reflexivity].
    specialize (Hs _ _ E). lia. }
  assert (nextPromise w1 = nextPromise w) as Hnext.
  { rewrite Hw1. unfold withBuffer. cbn [nextPromise]. apply storeAll_nextPromise. }
  assert (cellOutputs w1 !! id
          = match ofCell id (map frameOutput frames) with [] => None | l => Some l end) as Hout1.
  { rewrite Hw1. unfold withBuffer. cbn [cellOutputs]. exact Hout. }
  unfold waitForCell. rewrite Hout1, Hnext. unfold isEnd.
  destruct (ofCell id (map frameOutput frames)) as [|o l] eqn:El.
  - cbn [existsb fst snd settled]. split; [reflexivity|exact Hfresh].
  - destruct (existsb _ (o :: l)); cbn [fst snd settled].
    + split; [reflexivity|]. unfold resolve. rewrite Hfresh. now rewrite lookup_insert_eq.
    + split; [reflexivity|exact Hfresh].
Qed.

End Registration.

(** ** Chunk boundaries *)

Section ChunkBoundaries.
Import JS Regex OutputWatcher.

(** What is left pending after the frames of a stream: the line feed
    that closes the last frame. *)
Definition afterFrames (frames : list Frame) : str :=
  match frames with [] => [] | _ :: _ => [LF] end.

Lemma single_read_pending (frames : list Frame) (w : Watcher) :
  lastPosition w = 0%nat -> pendingContent w = [] ->
  Forall (fun f => wellFormed f = true) frames ->
  fst (processNewOutput (Some (stream frames)) w)
  = withBuffer (length (stream frames)) (afterFrames frames)
      (storeAll (map frameOutput frames) w).
Proof.
  intros Hpos Hp Hwf.
  assert (search blockRegex (pendingContent w) = None) as Hs.
  { rewrite Hp. cbn [search]. now rewrite matchAt_blockRegex. }
  rewrite (processNewOutput_blockLoop _ _ Hs), Hpos, Hp, drop_0.
  pose proof (blockLoop_stream_state frames Hwf [] w [] (or_introl eq_refl)) as H1.
  destruct (blockLoop_stream frames Hwf [] w [] (or_introl eq_refl)) as [_ H2].
  destruct (blockLoop ([] ++ stream frames) w []) as [[w1 log] rest].
  cbn [fst snd] in *. subst. now destruct frames.
Qed.

(** A frame whose end marker has not fully arrived is not parsed: the
    poll stores the complete frames before it and keeps the partial frame
    in [pendingContent]. *)
Lemma partial_frame_retained (frames : list Frame) (f : Frame) (n : nat) (w : Watcher) :
  lastPosition w = 0%nat -> pendingContent w = [] ->
  Forall (fun f => wellFormed f = true) frames -> wellFormed f = true ->
  (n < length (encodeFrame f) - 1)%nat ->
  fst (processNewOutput (Some (stream frames ++ take n (encodeFrame f))) w)
  = withBuffer (length (stream frames ++ take n (encodeFrame f)))
      (afterFrames frames ++ take n (encodeFrame f))
      (storeAll (map frameOutput frames) w).
Proof.
  intros Hpos Hp Hwf Hf Hn.
  assert (search blockRegex (pendingContent w) = None) as Hs.
  { rewrite Hp. cbn [search]. now rewrite matchAt_blockRegex. }
  rewrite (processNewOutput_blockLoop _ _ Hs), Hpos, Hp, drop_0. cbn [app].
  rewrite blockLoop_app.
  pose proof (blockLoop_stream_state frames Hwf [] w [] (or_introl eq_refl)) as H0.
  destruct (blockLoop_stream frames Hwf [] w [] (or_introl eq_refl)) as [_ H2].
  cbn [app] in H0, H2.
  destruct (blockLoop (stream frames) w []) as [[w1 log1] r1]. cbn [fst snd] in H0, H2.
  subst w1.
  assert (r1 = afterFrames frames) as -> by now destruct frames.
  (* no block completes inside the partial frame *)
  assert (search blockRegex (afterFrames frames ++ take n (encodeFrame f)) = None) as Hnone.
  { destruct (search blockRegex (afterFrames frames ++ take n (encodeFrame f)))
      as [[i m]|] eqn:E; [exfalso|reflexivity].
    apply (search_block_app _ (drop n (encodeFrame f))) in E.
    rewrite <- app_assoc, take_drop in E.
    assert (exists j text,
               search blockRegex (afterFrames frames ++ encodeFrame f ++ [])
               = Some (j, mkMatch text (blockCaptures (f_type f) (f_id f) (f_content f))
                                  [LF])) as (j & text & E').
    { destruct frames; [apply search_frame|apply search_LF_frame]; assumption. }
    rewrite app_nil_r in E'. rewrite E' in E. injection E as _ _ _ Ha.
    apply (f_equal length) in Ha.
    rewrite length_app, length_drop in Ha. cbn [length] in Ha. lia. }
  rewrite (blockLoop_None _ _ _ Hnone). reflexivity.
Qed.

(** C1, as the code has it: chunk-boundary invariance for reads that end
    between two characters.  For a well-formed record stream and any
    split of its bytes into successive appends such that the text of
    every read is the text of the read before followed by the text of
    the new bytes, polling after each append leaves the watcher as a
    single read of the whole stream does: every record is stored in
    [cellOutputs] under its id, once and in the order of the stream,
    whatever lines its content spans and however many frames a read
    holds; a callback that was waiting is resolved with the records of
    its cell up to the first CELL_END; the line feed after the last frame
    stays pending.  A read that ends inside a frame stores the frames
    before it and keeps the partial frame in [pendingContent]. *)
Theorem chunk_boundary_invariance (frames : list Frame) (chunks : list (list N))
        (w : Watcher) :
  lastPosition w = 0%nat -> pendingContent w = [] ->
  forallb wellFormed frames = true ->
  Node.utf8Decode (concat chunks) = stream frames ->
  wholeCharacters [] chunks = true ->
  let polled := fst (pollAll [] chunks w) in
  polled = fst (processNewOutput (Some (Node.utf8Decode (concat chunks))) w)
  /\ (forall id,
         cellOutputs polled !! id
         = match ofCell id (map frameOutput frames) with
           | [] => cellOutputs w !! id
           | l => Some (default [] (cellOutputs w !! id) ++ l)
           end)
  /\ (forall id cb,
         cellCallbacks w !! id = Some cb ->
         settled w !! cb_promise cb = None ->
         (forall id' cb', cellCallbacks w !! id' = Some cb' ->
                          cb_promise cb' = cb_promise cb -> id' = id) ->
         settled polled !! cb_promise cb
         = option_map
             (fun l => filterOutputs (default [] (cellOutputs w !! id) ++ l) (cb_options cb))
             (upToEnd (ofCell id (map frameOutput frames))))
  /\ pendingContent polled = afterFrames frames
  /\ (forall f n,
         wellFormed f = true -> (n < length (encodeFrame f) - 1)%nat ->
         let partial :=
           fst (processNewOutput (Some (stream frames ++ take n (encodeFrame f))) w) in
         cellOutputs partial = cellOutputs polled
         /\ settled partial = settled polled
         /\ pendingContent partial = afterFrames frames ++ take n (encodeFrame f)).
Proof.
  intros Hpos Hp Hwf Hc Hwhole polled.
  assert (Forall (fun f => wellFormed f = true) frames) as Hall.
  { apply Forall_forall. intros f Hf. rewrite forallb_forall in Hwf.
    apply Hwf. now apply list_elem_of_In. }
  assert (polled = withBuffer (length (stream frames)) (afterFrames frames)
                     (storeAll (map frameOutput frames) w)) as Hpolled.
  { unfold polled. rewrite (pollAll_single_read chunks w Hwhole Hpos Hp), Hc.
    now apply single_read_pending. }
  split; [|split; [|split; [|split]]].
  - unfold polled. now rewrite (pollAll_single_read chunks w Hwhole Hpos Hp).
  - intros id. rewrite Hpolled. cbn [withBuffer cellOutputs]. apply storeAll_cellOutputs.
  - intros id cb H1 H2 H3. rewrite Hpolled. cbn [withBuffer settled].
    now apply storeAll_pending.
  - now rewrite Hpolled.
  - intros f n Hf Hn. cbv zeta.
    rewrite (partial_frame_retained frames f n w Hpos Hp Hall Hf Hn), Hpolled.
    repeat split.
Qed.

End ChunkBoundaries.

(** Three frames of one cell, the second with a two-line content that
    holds a two-byte character, as bytes; cut in the middle of the first
    tag, right after the two-byte character and inside the last end
    marker; one poll sees no new bytes. *)
Definition sampleFrames : list Frame :=
  [ mkFrame (JS.lit "CELL_START") (JS.lit "c1") [];
    mkFrame (JS.lit "OUTPUT") (JS.lit "c1") (JS.lit "[1] 1" ++ [JS.LF; 233]);
    mkFrame (JS.lit "CELL_END") (JS.lit "c1") [] ].

Definition sampleBytes : list N :=
  JS.lit "###CELL_START:c1###" ++ [JS.LF; JS.LF] ++ JS.lit "###END###" ++ [JS.LF]
  ++ JS.lit "###OUTPUT:c1###" ++ [JS.LF] ++ JS.lit "[1] 1" ++ [JS.LF; 195; 169; JS.LF]
  ++ JS.lit "###END###" ++ [JS.LF]
  ++ JS.lit "###CELL_END:c1###" ++ [JS.LF; JS.LF] ++ JS.lit "###END###" ++ [JS.LF].

Definition sampleChunks : list (list N) :=
  [ take 7 sampleBytes;
    take 48 (drop 7 sampleBytes);
    [];
    take 35 (drop 55 sampleBytes);
    drop 90 sampleBytes ].

(** The same bytes, cut between the two bytes of the character. *)
Definition sampleChunksCut : list (list N) :=
  [ take 54 sampleBytes; drop 54 sampleBytes ].

Lemma chunk_boundary_invariance_witness :
  OutputWatcher.cellOutputs (fst (pollAll [] sampleChunks OutputWatcher.newWatcher))
    !! JS.lit "c1"
  = Some (map frameOutput sampleFrames)
  /\ OutputWatcher.pendingContent (fst (pollAll [] sampleChunks OutputWatcher.newWatcher))
     = [JS.LF].
Proof.
  destruct (chunk_boundary_invariance sampleFrames sampleChunks OutputWatcher.newWatcher)
    as (_ & H2 & _ & H4 & _); try reflexivity.
  split; [exact (H2 (JS.lit "c1"))|exact H4].
Defined.

(** The claim as written, for any split of the bytes, fails: a read that
    ends inside a multi-byte character decodes its first byte as U+FFFD,
    and the next read, sliced at the length of that text, skips the
    character.  The record stored has U+FFFD where one read of the whole
    file has the character. *)
Lemma read_ending_inside_character :
  Node.utf8Decode sampleBytes = stream sampleFrames
  /\ forallb wellFormed sampleFrames = true
  /\ concat sampleChunksCut = sampleBytes
  /\ OutputWatcher.cellOutputs
       (fst (OutputWatcher.processNewOutput (Some (Node.utf8Decode sampleBytes))
               OutputWatcher.newWatcher)) !! JS.lit "c1"
     = Some [ OutputWatcher.mkCellOutput (JS.lit "CELL_START") [] (JS.lit "c1");
              OutputWatcher.mkCellOutput (JS.lit "OUTPUT")
                (JS.lit "[1] 1" ++ [JS.LF; 233]) (JS.lit "c1");
              OutputWatcher.mkCellOutput (JS.lit "CELL_END") [] (JS.lit "c1") ]
  /\ OutputWatcher.cellOutputs
       (fst (pollAll [] sampleChunksCut OutputWatcher.newWatcher)) !! JS.lit "c1"
     = Some [ OutputWatcher.mkCellOutput (JS.lit "CELL_START") [] (JS.lit "c1");
              OutputWatcher.mkCellOutput (JS.lit "OUTPUT")
                (JS.lit "[1] 1" ++ [JS.LF; 65533]) (JS.lit "c1");
              OutputWatcher.mkCellOutput (JS.lit "CELL_END") [] (JS.lit "c1") ]
  /\ fst (pollAll [] sampleChunksCut OutputWatcher.newWatcher)
     <> fst (OutputWatcher.processNewOutput (Some (Node.utf8Decode (concat sampleChunksCut)))
               OutputWatcher.newWatcher).
Proof.
  repeat split; try (vm_compute; reflexivity).
  intros E. apply (f_equal (fun w => OutputWatcher.cellOutputs w !! JS.lit "c1")) in E.
  vm_compute in E. discriminate.
Qed.

Section CellRun.
Import JS Regex OutputWatcher QuartoNotebookController.

Lemma reachable_numbered (ops : list WatcherOp) : numbered (runOps ops newWatcher).
Proof.
  apply runOps_invariants.
  - intros i l. cbn [cellOutputs newWatcher]. rewrite lookup_empty. discriminate.
  - split; intros i l; cbn [cellCallbacks settled newWatcher];
      rewrite lookup_empty; discriminate.
Qed.

Lemma cleared_start_numbered (id : str) (w : Watcher) :
  numbered w -> numbered (clearCellOutput id (start w)).
Proof. intros H. exact H. Qed.

(** X4: a cell registered on a freshly started watcher is resolved by the
    poll that reads its records, with exactly the records written under
    its id up to and including the first CELL_END, in file order and
    filtered by the policy; records of other cells in the same file do
    not matter.  Without a CELL_END of the cell the promise stays
    pending. *)
Theorem registered_cell_receives_its_records
        (ops : list WatcherOp) (id : str) (yamlOptions : PartialYamlOptions)
        (frames : list Frame) :
  Forall (fun f => wellFormed f = true) frames ->
  let w := clearCellOutput id (start (runOps ops newWatcher)) in
  settled (fst (processNewOutput (Some (stream frames)) (fst (waitForCell id yamlOptions w))))
    !! snd (waitForCell id yamlOptions w)
  = option_map (fun l => filterOutputs l (spread defaultYamlOptions yamlOptions))
      (upToEnd (ofCell id (map frameOutput frames))).
Proof.
  intros Hwf w.
  assert (snd (waitForCell id yamlOptions w) = nextPromise w) as ->.
  { unfold waitForCell. destruct (cellOutputs w !! id) as [e|]; [destruct (existsb _ e)|];
      reflexivity. }
  apply waitForCell_then_poll; try reflexivity; [|apply lookup_delete_eq|exact Hwf].
  apply cleared_start_numbered, reachable_numbered.
Qed.

(** X5: when CELL_END is the last record a cell writes, it does not matter
    whether the cell is registered before or after the poll that reads
    its records: both orders hand out the same promise and settle it
    with the same list, or leave it pending alike. *)
Theorem registration_order_is_irrelevant
        (ops : list WatcherOp) (id : str) (yamlOptions : PartialYamlOptions)
        (frames : list Frame) :
  Forall (fun f => wellFormed f = true) frames ->
  (forall l, upToEnd (ofCell id (map frameOutput frames)) = Some l ->
             l = ofCell id (map frameOutput frames)) ->
  let w := clearCellOutput id (start (runOps ops newWatcher)) in
  let before := waitForCell id yamlOptions w in
  let later := waitForCell id yamlOptions (fst (processNewOutput (Some (stream frames)) w)) in
  snd before = snd later
  /\ settled (fst (processNewOutput (Some (stream frames)) (fst before))) !! snd before
     = settled (fst later) !! snd later.
Proof.
  intros Hwf Hlast w before later.
  assert (numbered w) as Hnum by apply cleared_start_numbered, reachable_numbered.
  pose proof (waitForCell_then_poll w id yamlOptions frames Hnum eq_refl eq_refl
                (lookup_delete_eq _ _) Hwf) as Ha.
  fold before in Ha.
  destruct (poll_then_waitForCell w id yamlOptions frames Hnum eq_refl eq_refl
              (lookup_delete_eq _ _) Hwf) as [Hp Hb].
  fold later in Hp, Hb.
  assert (snd before = nextPromise w) as Hpa.
  { unfold before, waitForCell. destruct (cellOutputs w !! id) as [e|];
      [destruct (existsb _ e)|]; reflexivity. }
  split; [congruence|]. rewrite Hpa, Ha, Hp, Hb.
  destruct (upToEnd (ofCell id (map frameOutput frames))) as [l|] eqn:E.
  - rewrite (Hlast l eq_refl).
    destruct (existsb isEnd _) eqn:Ex; [reflexivity|].
    apply upToEnd_None in Ex. congruence.
  - apply upToEnd_None in E. now rewrite E.
Qed.

Lemma spread_allOptions (o : YamlOptions) : spread defaultYamlOptions (allOptions o) = o.
Proof. now destruct o. Qed.

(** X6: one cell, end to end.  In a new terminal whose setup completes,
    when the first poll after the command was sent finds the cell's
    records closed by CELL_END, the execution ends successfully; its
    outputs are the notebook conversions of the cell's records up to
    CELL_END filtered by the document's options; exactly one evaluation
    command was added to the terminal; later events change nothing. *)
Theorem executeSingleCell_completes
        (outputDir : str) (env : SetupEnv) (now : N) (rnd code : str)
        (yamlOptions : YamlOptions) (frames : list Frame) (records : list CellOutput)
        (later : list Event) (ops : list WatcherOp) (c : Controller) (fs : FS) :
  outputWatcher c = runOps ops newWatcher ->
  terminalCreated env = true ->
  snd (ensureRSetup outputDir env c) = SetupReturned ->
  Forall (fun f => wellFormed f = true) frames ->
  upToEnd (ofCell (cellIdOf now rnd) (map frameOutput frames)) = Some records ->
  let '(c', execution, fs') :=
    executeSingleCell outputDir env now rnd code yamlOptions
      (Poll (Some (stream frames)) :: later) c fs in
  execution
  = mkExecution (S (executionOrder c))
      (fst (cellOutputsToNotebookOutput (filterOutputs records yamlOptions) fs))
      (Some true)
  /\ fs' = fs
  /\ terminalInput c'
     = terminalInput (fst (ensureRSetup outputDir env c))
       ++ [evalCommand code (cellIdOf now rnd)]
  /\ rSetupSourced c' = true.
Proof.
  intros Hc Hnew Hret Hwf Hrec.
  pose proof (waitForCell_then_poll
                (clearCellOutput (cellIdOf now rnd) (start (runOps ops newWatcher)))
                (cellIdOf now rnd) (allOptions yamlOptions) frames
                (cleared_start_numbered _ _ (reachable_numbered ops)) eq_refl eq_refl
                (lookup_delete_eq _ _) Hwf) as Hreg.
  rewrite Hrec, spread_allOptions in Hreg. cbn [option_map] in Hreg.
  unfold executeSingleCell.
  assert (outputWatcher (fst (ensureRSetup outputDir env c)) = start (runOps ops newWatcher)
          /\ rSetupSourced (fst (ensureRSetup outputDir env c)) = true) as [Hw Hs].
  { revert Hret. unfold ensureRSetup. rewrite Hnew. cbn [andb].
    destruct (waitReady _ _ _) as [outcome sent']. cbn [fst snd outputWatcher rSetupSourced].
    intros ->. now rewrite Hc. }
  destruct (ensureRSetup outputDir env c) as [c1 outcome]. cbn [fst snd] in *. subst outcome.
  cbn [outputWatcher terminalInput rSetupSourced]. rewrite Hw.
  set (w := clearCellOutput (cellIdOf now rnd) (start (runOps ops newWatcher))) in *.
  assert (settled (fst (waitForCell (cellIdOf now rnd) (allOptions yamlOptions) w))
            !! snd (waitForCell (cellIdOf now rnd) (allOptions yamlOptions) w) = None) as Hfresh.
  { assert (numbered w) as [_ Hn] by apply cleared_start_numbered, reachable_numbered.
    unfold waitForCell. replace (cellOutputs w !! cellIdOf now rnd) with (@None (list CellOutput))
      by (symmetry; apply lookup_delete_eq).
    cbn [fst snd settled]. destruct (settled w !! nextPromise w) eqn:E; [|reflexivity].
    specialize (Hn _ _ E). lia. }
  assert (snd (waitForCell (cellIdOf now rnd) (allOptions yamlOptions) w) = nextPromise w)
    as Hp.
  { unfold waitForCell. destruct (cellOutputs w !! cellIdOf now rnd) as [e|];
      [destruct (existsb _ e)|]; reflexivity. }
  rewrite <- Hp in Hreg.
  destruct (waitForCell (cellIdOf now rnd) (allOptions yamlOptions) w) as [w2 p].
  cbn [fst snd] in *. cbn [race]. rewrite Hfresh.
  destruct later as [|e later]; cbn [race]; rewrite Hreg.
  all: pose proof (cellOutputsToNotebookOutput_keeps_files
                     (filterOutputs records yamlOptions) fs) as Hfs.
  all: destruct (cellOutputsToNotebookOutput (filterOutputs records yamlOptions) fs)
         as [nb fs2]; cbn [fst snd] in *; subst fs2.
  all: repeat split; assumption.
Qed.

End CellRun.

Section Conversion.
Import JS Regex OutputWatcher QuartoNotebookController.

Lemma cellOutputsToNotebookOutput_app (a b : list CellOutput) (fs : FS) :
  fst (cellOutputsToNotebookOutput (a ++ b) fs)
  = fst (cellOutputsToNotebookOutput a fs) ++ fst (cellOutputsToNotebookOutput b fs).
Proof.
  induction a as [|o a IH]; [reflexivity|].
  cbn [app cellOutputsToNotebookOutput].
  assert (snd (notebookOutputOf o fs) = fs) as H.
  { pose proof (cellOutputsToNotebookOutput_keeps_files [o] fs) as H.
    cbn [cellOutputsToNotebookOutput] in H.
    destruct (notebookOutputOf o fs) as [here fs1]. exact H. }
  destruct (notebookOutputOf o fs) as [here fs1]. cbn [snd] in H. subst fs1.
  destruct (cellOutputsToNotebookOutput (a ++ b) fs) as [m1 f1].
  destruct (cellOutputsToNotebookOutput a fs) as [m2 f2].
  cbn [fst] in *. rewrite IH. apply app_assoc.
Qed.

(** X7: a PLOT record whose file cannot be read is dropped without a
    trace: the notebook outputs are those of the other records, in the
    same order, and no error output takes its place. *)
Theorem unreadable_plot_is_dropped (a b : list CellOutput) (o : CellOutput) (fs : FS) :
  type o = lit "PLOT" -> fs !! content o = None ->
  cellOutputsToNotebookOutput (a ++ o :: b) fs = cellOutputsToNotebookOutput (a ++ b) fs.
Proof.
  intros Hty Hfs. apply injective_projections.
  - rewrite !cellOutputsToNotebookOutput_app. f_equal.
    cbn [cellOutputsToNotebookOutput]. unfold notebookOutputOf. rewrite Hty, Hfs.
    rewrite !bool_decide_eq_false_2 by (intros E; vm_compute in E; discriminate).
    rewrite bool_decide_eq_true_2 by reflexivity. cbn [orb].
    now destruct (cellOutputsToNotebookOutput b fs).
  - now rewrite !cellOutputsToNotebookOutput_keeps_files.
Qed.

(** ** The race of completion against the timer *)

(** X8: a cell whose completion the polls have seen is never reported as
    timed out: if the promise is settled after the polls that precede the
    timer, the race yields the settled list, whatever fires later. *)
Theorem completion_beats_timeout (files : list (option str)) (rest : list Event)
        (p : nat) (w : Watcher) (outputs : list CellOutput) :
  settled (pollFiles files w) !! p = Some outputs ->
  snd (race (map Poll files ++ rest) p w) = Some (Resolved outputs).
Proof.
  revert w. induction files as [|file files IH]; intros w H.
  - cbn [map app pollFiles fold_left] in *. destruct rest; cbn [race]; now rewrite H.
  - cbn [map app]. cbn [race].
    destruct (settled w !! p) as [v|] eqn:E.
    + cbn [snd]. pose proof (pollFiles_mono (file :: files) p v w E). congruence.
    + apply IH. exact H.
Qed.

(** ** Setting up the session *)

Lemma waitReady_sent (outputDir : str) (ps : list ReadyPoll) :
  forall sent outcome sent',
    waitReady outputDir ps sent = (outcome, sent') ->
    exists k, sent' = sent ++ repeat (sourceCommand outputDir) k
      /\ (forall message, outcome = SetupThrew message ->
            (1 <= k)%nat
            /\ message = lit "Timeout waiting for R setup to complete. Make sure R is running in the terminal."
            /\ exists p, In p ps /\ readyExists p = false
                         /\ setupTimeout < elapsed p /\ readyAfterRetry p = false).
Proof.
  induction ps as [|p ps IH]; intros sent outcome sent'; cbn [waitReady].
  - intros E; injection E as <- <-. exists 0%nat. split; [now rewrite app_nil_r|discriminate].
  - destruct (readyExists p) eqn:Er.
    { intros E; injection E as <- <-. exists 0%nat.
      split; [now rewrite app_nil_r|discriminate]. }
    destruct (setupTimeout <? elapsed p) eqn:Et.
    + destruct (readyAfterRetry p) eqn:Ea.
      * intros E. destruct (IH _ _ _ E) as (k & -> & Hk). exists (S k). split.
        { now rewrite <- app_assoc. }
        intros message Hm. destruct (Hk message Hm) as (_ & Hmsg & q & Hin & Hq).
        split; [lia|]. split; [exact Hmsg|]. exists q. split; [now right|exact Hq].
      * intros E; injection E as <- <-. exists 1%nat. split; [reflexivity|].
        intros message Hm; injection Hm as <-. split; [lia|]. split; [reflexivity|].
        exists p. apply N.ltb_lt in Et. repeat split; try assumption. now left.
    + intros E. destruct (IH _ _ _ E) as (k & -> & Hk). exists k. split; [reflexivity|].
      intros message Hm. destruct (Hk message Hm) as (Hk1 & Hmsg & q & Hin & Hq).
      split; [exact Hk1|]. split; [exact Hmsg|]. exists q. split; [now right|exact Hq].
Qed.

(** X9: the setup fails only past its deadline and after one more try.
    When [ensureRSetup] throws, some turn of its waiting loop found the
    ready file missing more than 30 s after the script was sourced and
    still missing after the script was sourced again; the script was
    sent at least twice and nothing else was sent; the controller is left
    marked as not set up, so the next cell sets up again. *)
Theorem setup_fails_only_past_deadline (outputDir : str) (env : SetupEnv) (c : Controller)
        (message : str) :
  snd (ensureRSetup outputDir env c) = SetupThrew message ->
  let c' := fst (ensureRSetup outputDir env c) in
  message = lit "Timeout waiting for R setup to complete. Make sure R is running in the terminal."
  /\ rSetupSourced c' = false
  /\ (exists k, (2 <= k)%nat
                /\ terminalInput c' = terminalInput c ++ repeat (sourceCommand outputDir) k)
  /\ exists p, In p (polls env) /\ readyExists p = false
               /\ 30000 < elapsed p /\ readyAfterRetry p = false.
Proof.
  unfold ensureRSetup.
  destruct (if _ && negb (readyAtEntry env) then false else _); [discriminate|].
  destruct (waitReady _ _ _) as [outcome sent'] eqn:E. cbn [fst snd].
  intros ->. cbn [rSetupSourced terminalInput].
  destruct (waitReady_sent _ _ _ _ _ E) as (k & -> & Hk).
  destruct (Hk message eq_refl) as (Hk1 & Hmsg & p & Hp).
  repeat split; try assumption.
  - exists (S k). split; [lia|]. now rewrite <- app_assoc.
  - exists p. exact Hp.
Qed.

End Conversion.

Section IdsAndEscaping.
Import JS Regex OutputWatcher QuartoNotebookController.

(** ** Cell ids *)

Lemma string_of_uint_digits (d : Decimal.uint) :
  Forall (fun c => isDigit c = true) (lit (NilEmpty.string_of_uint d)).
Proof.
  induction d; cbn [NilEmpty.string_of_uint]; [constructor|..];
    (constructor; [reflexivity|assumption]).
Qed.

Lemma toString_digits (n : N) : Forall (fun c => isDigit c = true) (toString n).
Proof. apply string_of_uint_digits. Qed.

Lemma split_at_separator (x : N) (a b c d : str) :
  Forall (fun y => y <> x) a -> Forall (fun y => y <> x) c ->
  a ++ x :: b = c ++ x :: d -> a = c /\ b = d.
Proof.
  revert c. induction a as [|y a IH]; intros [|z c] Ha Hc E; cbn [app] in E.
  - injection E as ->. now split.
  - injection E as E _. apply Forall_cons in Hc as [Hz _]. congruence.
  - injection E as E _. apply Forall_cons in Ha as [Hy _]. congruence.
  - injection E as -> E. apply Forall_cons in Ha as [_ Ha]. apply Forall_cons in Hc as [_ Hc].
    destruct (IH c Ha Hc E) as [-> ->]. now split.
Qed.

(** X10: two cell ids are equal only when both the clock reading and the
    random digits are: the id loses nothing of either. *)
Theorem cellIdOf_injective (now1 now2 : N) (rnd1 rnd2 : str) :
  cellIdOf now1 rnd1 = cellIdOf now2 rnd2 <-> now1 = now2 /\ rnd1 = rnd2.
Proof.
  split; [|now intros [-> ->]].
  unfold cellIdOf. intros E. apply app_inv_head in E.
  change (lit "_" ++ rnd1) with (95 :: rnd1) in E.
  change (lit "_" ++ rnd2) with (95 :: rnd2) in E.
  apply split_at_separator in E as [E1 E2].
  - split; [now apply toString_inj|exact E2].
  - eapply Forall_impl; [apply toString_digits|]. intros c Hc ->. discriminate.
  - eapply Forall_impl; [apply toString_digits|]. intros c Hc ->. discriminate.
Qed.





(** ** Escaping the code *)

(** A left inverse of the escaping, which shows that it loses nothing:
    the text up to the first quote that no backslash escapes, with an
    escaped backslash, an escaped quote and the escape for a line feed
    decoded, and what follows that quote.  This is how a double-quoted
    string literal of R is read, as far as these three escapes go. *)
Fixpoint readRString (s : str) : option (str * str) :=
  match s with
  | [] => None
  | c :: t =>
      if c =? QUOTE then Some ([], t)
      else if c =? BACKSLASH then
        match t with
        | [] => None
        | e :: t' =>
            option_map (fun r => ((if e =? 110 then LF else e) :: fst r, snd r))
                       (readRString t')
        end
      else option_map (fun r => (c :: fst r, snd r)) (readRString t)
  end.

(** What [escapeCode] writes for one code unit. *)
Definition escapeUnit (c : N) : str :=
  if c =? BACKSLASH then [BACKSLASH; BACKSLASH]
  else if c =? QUOTE then [BACKSLASH; QUOTE]
  else if c =? LF then [BACKSLASH; 110]
  else [c].

Lemma escapeCode_cons (c : N) (code : str) :
  escapeCode (c :: code) = escapeUnit c ++ escapeCode code.
Proof.
  unfold escapeCode, replaceUnit, escapeUnit. cbn [flat_map].
  destruct (N.eqb_spec c BACKSLASH) as [->|H1].
  - reflexivity.
  - cbn [app flat_map]. destruct (N.eqb_spec c QUOTE) as [->|H2].
    + reflexivity.
    + cbn [app flat_map]. destruct (N.eqb_spec c LF) as [->|H3]; reflexivity.
Qed.

Lemma escapeCode_round_trip (code rest : str) :
  readRString (escapeCode code ++ QUOTE :: rest) = Some (code, rest).
Proof.
  induction code as [|c code IH].
  - reflexivity.
  - rewrite escapeCode_cons. unfold escapeUnit.
    destruct (N.eqb_spec c BACKSLASH) as [->|H1]; [cbn; now rewrite IH|].
    destruct (N.eqb_spec c QUOTE) as [->|H2]; [cbn; now rewrite IH|].
    destruct (N.eqb_spec c LF) as [->|H3]; [cbn; now rewrite IH|].
    cbn [app readRString].
    destruct (N.eqb_spec c QUOTE); [contradiction|].
    destruct (N.eqb_spec c BACKSLASH); [contradiction|].
    now rewrite IH.
Qed.

(** X12: the command sent for a cell determines the code and the id: the
    escaping loses nothing of the code, and no quote of the code can end
    the string literal early, so two cells get the same command only when
    they have the same code and the same id. *)
Theorem evalCommand_injective (code code' id id' : str) :
  evalCommand code id = evalCommand code' id' <-> code = code' /\ id = id'.
Proof.
  split; [|now intros [-> ->]].
  unfold evalCommand. intros E.
  apply app_inv_head in E. apply (app_inv_head [QUOTE]) in E. cbn [app] in E.
  apply (f_equal readRString) in E. rewrite !escapeCode_round_trip in E.
  injection E as -> E. split; [reflexivity|].
  now apply app_inv_tail in E.
Qed.


End IdsAndEscaping.

(** * Further properties of the direct-scrape channel *)

Section ScrapeParsing.
Import JS Regex RPseudoterminalSimple.

Lemma plotLoop_Some (buffer : str) (lastIndex : nat) (outputs : list OutputData)
      (fs : FS) (i : nat) (m : Match) :
  search plotRegex (drop lastIndex buffer) = Some (i, m) ->
  plotLoop buffer lastIndex outputs fs
  = plotLoop (removeFirst (matched m) buffer) (lastIndex + i + length (matched m))
             (fst (readPlot (trim (group 1 m)) outputs fs))
             (snd (readPlot (trim (group 1 m)) outputs fs)).
Proof.
  intros H. funelim (plotLoop buffer lastIndex outputs fs).
  - rewrite e in H1. injection H1 as <- <-. reflexivity.
  - congruence.
Qed.

Lemma plotLoop_None (buffer : str) (lastIndex : nat) (outputs : list OutputData)
      (fs : FS) :
  search plotRegex (drop lastIndex buffer) = None ->
  plotLoop buffer lastIndex outputs fs = (buffer, outputs, fs).
Proof.
  intros H. funelim (plotLoop buffer lastIndex outputs fs).
  - congruence.
  - reflexivity.
Qed.

Lemma htmlLoop_Some (buffer : str) (lastIndex : nat) (outputs : list OutputData)
      (i : nat) (m : Match) :
  search htmlRegex (drop lastIndex buffer) = Some (i, m) ->
  htmlLoop buffer lastIndex outputs
  = htmlLoop (removeFirst (matched m) buffer) (lastIndex + i + length (matched m))
             (outputs ++ [mkOutputData html (trim (group 1 m)) (Some (lit "text/html"))]).
Proof.
  intros H. funelim (htmlLoop buffer lastIndex outputs).
  - rewrite e in H1. injection H1 as <- <-. reflexivity.
  - congruence.
Qed.

Lemma htmlLoop_None (buffer : str) (lastIndex : nat) (outputs : list OutputData) :
  search htmlRegex (drop lastIndex buffer) = None ->
  htmlLoop buffer lastIndex outputs = (buffer, outputs).
Proof.
  intros H. funelim (htmlLoop buffer lastIndex outputs).
  - congruence.
  - reflexivity.
Qed.

(** The image output made of the bytes of a plot file. *)
Definition imageOf (bytes : list N) : OutputData :=
  mkOutputData image (base64 bytes) (Some (lit "image/png")).

(** What the plot loop does to the outputs and to the files: it appends
    image outputs only, and a file it deleted is among them. *)
Lemma plotLoop_spec (n : nat) :
  forall (buffer : str) (lastIndex : nat) (outputs : list OutputData) (fs : FS),
    length buffer = n ->
    exists images,
      snd (fst (plotLoop buffer lastIndex outputs fs)) = outputs ++ images
      /\ Forall (fun o => type o = image) images
      /\ forall path,
           snd (plotLoop buffer lastIndex outputs fs) !! path = fs !! path
           \/ (snd (plotLoop buffer lastIndex outputs fs) !! path = None
               /\ exists bytes, fs !! path = Some bytes /\ In (imageOf bytes) images).
Proof.
  induction n as [n IH] using lt_wf_ind. intros buffer lastIndex outputs fs Hn.
  destruct (search plotRegex (drop lastIndex buffer)) as [[i m]|] eqn:E.
  - rewrite (plotLoop_Some _ _ _ _ _ _ E).
    pose proof (removeFirst_match_shorter HASH (lit "##QUARTO_PLOT###") _ _ _ _ _ E) as Hlt.
    set (buffer' := removeFirst (matched m) buffer) in *.
    set (path0 := trim (group 1 m)).
    unfold readPlot. destruct (fs !! path0) as [bytes|] eqn:Ef; cbn [fst snd].
    + destruct (IH (length buffer') ltac:(lia) buffer'
                  (lastIndex + i + length (matched m))%nat
                  (outputs ++ [imageOf bytes]) (delete path0 fs) eq_refl)
        as (images & H1 & H2 & H3).
      exists (imageOf bytes :: images). fold (imageOf bytes). rewrite H1. split; [|split].
      * now rewrite <- app_assoc.
      * constructor; [reflexivity|exact H2].
      * intros path. destruct (decide (path = path0)) as [->|Hne].
        -- right. destruct (H3 path0) as [H|[_ (b & Hb & _)]].
           ++ rewrite lookup_delete_eq in H. split; [exact H|].
              exists bytes. split; [exact Ef|now left].
           ++ rewrite lookup_delete_eq in Hb. discriminate.
        -- destruct (H3 path) as [H|[H (b & Hb & Hin)]].
           ++ left. now rewrite lookup_delete_ne in H.
           ++ right. split; [exact H|]. rewrite lookup_delete_ne in Hb by congruence.
              exists b. split; [exact Hb|now right].
    + apply (IH (length buffer')); [lia|reflexivity].
  - rewrite (plotLoop_None _ _ _ _ E). exists []. cbn [fst snd].
    split; [now rewrite app_nil_r|]. split; [constructor|]. intros path. now left.
Qed.

Lemma htmlLoop_spec (n : nat) :
  forall (buffer : str) (lastIndex : nat) (outputs : list OutputData),
    length buffer = n ->
    exists htmls,
      snd (htmlLoop buffer lastIndex outputs) = outputs ++ htmls
      /\ Forall (fun o => type o = html) htmls.
Proof.
  induction n as [n IH] using lt_wf_ind. intros buffer lastIndex outputs Hn.
  destruct (search htmlRegex (drop lastIndex buffer)) as [[i m]|] eqn:E.
  - rewrite (htmlLoop_Some _ _ _ _ _ E).
    pose proof (removeFirst_match_shorter HASH (lit "##QUARTO_HTML_START###") _ _ _ _ _ E)
      as Hlt.
    destruct (IH (length (removeFirst (matched m) buffer)) ltac:(lia)
                (removeFirst (matched m) buffer) (lastIndex + i + length (matched m))%nat
                (outputs ++ [mkOutputData html (trim (group 1 m)) (Some (lit "text/html"))])
                eq_refl) as (htmls & H1 & H2).
    eexists (_ :: htmls). rewrite H1, <- app_assoc. split; [reflexivity|].
    constructor; [reflexivity|exact H2].
  - rewrite (htmlLoop_None _ _ _ E). exists []. cbn [snd].
    split; [now rewrite app_nil_r|constructor].
Qed.

Lemma remainingText_spec (buffer : str) :
  (length (remainingText buffer) <= 1)%nat
  /\ Forall (fun o => (type o = text \/ type o = error) /\ content o <> [])
            (remainingText buffer).
Proof.
  unfold remainingText. destruct buffer as [|c buffer]; [split; [cbn; lia|constructor]|].
  destruct (_ || _).
  - split; [cbn; lia|]. constructor; [|constructor]. split; [now right|discriminate].
  - destruct (List.filter _ _) as [|l ls] eqn:E; [split; [cbn; lia|constructor]|].
    split; [cbn; lia|]. constructor; [|constructor]. split; [now left|].
    cbn [content].
    assert (In l (l :: ls)) as Hin by now left.
    rewrite <- E in Hin. apply filter_In in Hin as [_ Hl].
    rewrite !andb_true_iff, !negb_true_iff, !bool_decide_eq_false in Hl.
    destruct Hl as [_ Hl]. destruct l as [|x l]; [now exfalso; apply Hl|].
    destruct ls; discriminate.
Qed.

(** X14: the outputs of a request come in a fixed order, not in the order
    R printed them: what was there before, then every image, then every
    HTML fragment, then at most one block for all the text that is left,
    which is an error block or a text block and is never empty. *)
Theorem parseOutputBuffer_order (outputBuffer : str) (currentOutputs : list OutputData)
        (fs : FS) :
  exists images htmls rest,
    fst (parseOutputBuffer outputBuffer currentOutputs fs)
    = currentOutputs ++ images ++ htmls ++ rest
    /\ Forall (fun o => type o = image) images
    /\ Forall (fun o => type o = html) htmls
    /\ (length rest <= 1)%nat
    /\ Forall (fun o => (type o = text \/ type o = error) /\ content o <> []) rest.
Proof.
  unfold parseOutputBuffer.
  match goal with |- context [plotLoop ?b 0 currentOutputs fs] =>
    destruct (plotLoop_spec (length b) b 0 currentOutputs fs eq_refl)
      as (images & H1 & H2 & _);
    destruct (plotLoop b 0 currentOutputs fs) as [[b1 o1] fs1] end.
  cbn [fst snd] in H1. subst o1.
  destruct (htmlLoop_spec (length b1) b1 0 (currentOutputs ++ images) eq_refl)
    as (htmls & H3 & H4).
  destruct (htmlLoop b1 0 (currentOutputs ++ images)) as [b2 o2]. cbn [snd] in H3. subst o2.
  exists images, htmls, (remainingText (trim b2)). cbn [fst].
  destruct (remainingText_spec (trim b2)) as [H5 H6].
  repeat split; try assumption. now rewrite <- !app_assoc.
Qed.

(** X15: parsing never creates or changes a file, and it deletes a file
    only after putting its bytes, base64-encoded, into the outputs of the
    request as a PNG image. *)
Theorem plot_file_deleted_only_when_delivered (outputBuffer : str)
        (currentOutputs : list OutputData) (fs : FS) (path : str) :
  let '(outputs, fs') := parseOutputBuffer outputBuffer currentOutputs fs in
  fs' !! path = fs !! path
  \/ (fs' !! path = None
      /\ exists bytes, fs !! path = Some bytes
           /\ In (mkOutputData image (base64 bytes) (Some (lit "image/png"))) outputs).
Proof.
  unfold parseOutputBuffer.
  match goal with |- context [plotLoop ?b 0 currentOutputs fs] =>
    destruct (plotLoop_spec (length b) b 0 currentOutputs fs eq_refl)
      as (images & H1 & _ & H3);
    destruct (plotLoop b 0 currentOutputs fs) as [[b1 o1] fs1] end.
  cbn [fst snd] in H1, H3. subst o1.
  destruct (htmlLoop_spec (length b1) b1 0 (currentOutputs ++ images) eq_refl)
    as (htmls & H4 & _).
  destruct (htmlLoop b1 0 (currentOutputs ++ images)) as [b2 o2]. cbn [snd] in H4. subst o2.
  destruct (H3 path) as [H|[H (bytes & Hb & Hin)]]; [now left|right].
  split; [exact H|]. exists bytes. split; [exact Hb|].
  apply in_or_app. left. apply in_or_app. left. apply in_or_app. now right.
Qed.

End ScrapeParsing.

(** ** Plain printed lines *)

Section PlainLines.
Import JS Regex RPseudoterminalSimple.


















End PlainLines.

(** ** A timer fires during a request *)

Section TimerDelivery.
Import JS Regex RPseudoterminalSimple.

(** Events that leave a running request running: output of the session
    and input typed by the user. *)
Definition passive (e : Event) : bool :=
  match e with
  | Stdout _ | Stderr _ | HandleInput _ => true
  | _ => false
  end.

Definition outputOf (e : Event) : str :=
  match e with
  | Stdout chunk | Stderr chunk => chunk
  | _ => []
  end.

(** The output that a run of events brings. *)
Definition buffered (events : list Event) : str := flat_map outputOf events.

Lemma appendBuffer_nil (st : Pty) : appendBuffer [] st = st.
Proof. unfold appendBuffer. rewrite app_nil_r. now destruct st. Qed.

(** While the end marker has not shown up, passive events only fill the
    buffer. *)
Lemma run_passive (events : list Event) :
  forall st fs marker,
    forallb passive events = true ->
    isExecuting st = true -> currentEndMarker st = Some marker ->
    includes marker (outputBuffer st ++ buffered events) = false ->
    run events (st, fs) = (appendBuffer (buffered events) st, fs).
Proof.
  unfold run. induction events as [|e events IH]; intros st fs marker Hpass Hex Hm Hinc.
  - cbn. now rewrite appendBuffer_nil.
  - cbn [forallb] in Hpass. apply andb_true_iff in Hpass as [He Hpass].
    cbn [fold_left buffered flat_map] in *. fold (buffered events) in *.
    assert (step e (st, fs) = (appendBuffer (outputOf e) st, fs)) as ->.
    { destruct e as [| |chunk|chunk|data| |]; try discriminate He; cbn [step outputOf] in *.
      - unfold onStdout. rewrite Hex.
        unfold checkForCommandEnd. cbn [appendBuffer currentEndMarker outputBuffer].
        rewrite Hm. rewrite app_assoc in Hinc. apply includes_app_false in Hinc.
        rewrite Hinc, andb_false_r. reflexivity.
      - unfold onStderr. now rewrite Hex.
      - unfold handleInput. rewrite Hex, andb_false_r. now rewrite appendBuffer_nil. }
    rewrite (IH (appendBuffer (outputOf e) st) fs marker); try assumption.
    + unfold appendBuffer. cbn. now rewrite <- app_assoc.
    + cbn [appendBuffer outputBuffer]. now rewrite <- app_assoc.
Qed.


Lemma resumeAll_executing now (ws : list (nat * str)) :
  forall st,
    ws <> [] ->
    let st' := fold_left (fun s '(p, code) => executeBody now code p s) ws st in
    isExecuting st' = true /\ (1 <= timers st')%nat /\ currentOutputs st' = []
    /\ exists p code, In (p, code) ws /\ pendingResolve st' = Some p.
Proof.
  induction ws as [|[p code] ws IH]; intros st Hne; [congruence|].
  cbn [fold_left]. destruct ws as [|w ws].
  - cbn [fold_left executeBody isExecuting timers currentOutputs pendingResolve].
    repeat split; [lia|]. exists p, code. split; [now left|reflexivity].
  - destruct (IH (executeBody now code p st)) as (H1 & H2 & H3 & q & c & Hin & H4);
      [discriminate|].
    repeat split; try assumption. exists q, c. split; [now right|exact H4].
Qed.










End TimerDelivery.


(** ** The session over time *)

Section ScrapeSession.
Import JS Regex RPseudoterminalSimple.




(** Output of the session between two requests. *)
Definition isOutput (e : Event) : bool :=
  match e with Stdout _ | Stderr _ => true | _ => false end.

(** Output that arrives while no request executes is dropped. *)
Lemma run_idle (events : list Event) (st : Pty) (fs : FS) :
  forallb isOutput events = true -> isExecuting st = false ->
  run events (st, fs) = (st, fs).
Proof.
  unfold run. induction events as [|e events IH]; intros Hev Hex; [reflexivity|].
  cbn [forallb] in Hev. apply andb_true_iff in Hev as [He Hev]. cbn [fold_left].
  assert (step e (st, fs) = (st, fs)) as ->.
  { destruct e; try discriminate He; cbn [step]; unfold onStdout, onStderr; now rewrite Hex. }
  now apply IH.
Qed.

(** X17: The end marker completes the request.  The stdout chunk that brings
    the end marker of the running request into the buffer resolves the
    request at once with what [parseOutputBuffer] makes of everything
    buffered, marker chunk included; output that arrives afterwards is
    dropped; the 3 s timer of the request stays armed. *)
Theorem end_marker_completes_request
        (history : list Event) (fs0 : FS) (st : Pty) (fs : FS)
        (now : N) (code : str) (events : list Event) (chunk : str) (later : list Event) :
  run history (newPty, fs0) = (st, fs) ->
  isReady st = true -> hasStdin st = true ->
  forallb passive events = true ->
  includes (endMarkerOf now) (buffered events) = false ->
  includes (endMarkerOf now) (buffered events ++ chunk) = true ->
  forallb isOutput later = true ->
  let s2 := run (ExecuteCode now code :: events ++ Stdout chunk :: later) (st, fs) in
  settled (fst s2) !! nextPromise st
  = Some (fst (parseOutputBuffer (buffered events ++ chunk) [] fs))
  /\ snd s2 = snd (parseOutputBuffer (buffered events ++ chunk) [] fs)
  /\ isExecuting (fst s2) = false
  /\ outputBuffer (fst s2) = []
  /\ timers (fst s2) = S (timers st).
Proof.
  intros Hrun Hready Hstdin Hpass Hinc Hmark Hlater s2.
  destruct (reachable_fresh _ _ _ _ Hrun) as [_ Hfresh].
  assert (run (ExecuteCode now code :: events ++ [Stdout chunk]) (st, fs)
          = onStdout chunk (appendBuffer (buffered events) (executeCode now code st)) fs)
    as E.
  { unfold run. cbn [fold_left step]. rewrite fold_left_app.
    fold (run events (executeCode now code st, fs)).
    rewrite (run_passive events _ fs (endMarkerOf now)).
    - reflexivity.
    - exact Hpass.
    - now rewrite executeCode_ready.
    - now rewrite executeCode_ready.
    - rewrite executeCode_ready by assumption. exact Hinc. }
  assert (s2 = run later (run (ExecuteCode now code :: events ++ [Stdout chunk]) (st, fs)))
    as ->.
  { unfold s2, run.
    change (ExecuteCode now code :: events ++ Stdout chunk :: later)
      with ((ExecuteCode now code :: events) ++ [Stdout chunk] ++ later).
    change (ExecuteCode now code :: events ++ [Stdout chunk])
      with ((ExecuteCode now code :: events) ++ [Stdout chunk]).
    rewrite !fold_left_app. reflexivity. }
  rewrite E. rewrite executeCode_ready by assumption.
  assert (endMarkerOf now <> []) as Hne by discriminate.
  unfold onStdout, checkForCommandEnd.
  cbn [appendBuffer isExecuting currentEndMarker outputBuffer app].
  rewrite bool_decide_eq_false_2 by exact Hne. rewrite Hmark. cbn [negb andb].
  unfold finishExecution.
  cbn [appendBuffer app isExecuting negb outputBuffer currentOutputs pendingResolve settled
       hasStdin stdin isReady currentEndMarker waiting timers nextPromise].
  destruct (parseOutputBuffer (buffered events ++ chunk) [] fs) as [outputs fs'] eqn:P.
  cbv beta iota zeta.
  rewrite run_idle by (assumption || reflexivity).
  cbn [fst snd settled isExecuting outputBuffer timers].
  rewrite Hfresh. repeat split. apply lookup_insert_eq.
Qed.

(** The calls made while the session is not ready, with the promises
    they get. *)
Fixpoint queued (n : nat) (calls : list (N * str)) : list (nat * str) :=
  match calls with
  | [] => []
  | (_, code) :: cs => (n, code) :: queued (S n) cs
  end.

Definition call (c : N * str) : Event := ExecuteCode (fst c) (snd c).

Lemma executeCode_waiting now code st :
  isReady st = false ->
  executeCode now code st
  = {| hasStdin := hasStdin st; stdin := stdin st; outputBuffer := outputBuffer st;
       isExecuting := isExecuting st; pendingResolve := pendingResolve st;
       currentOutputs := currentOutputs st; isReady := false;
       currentEndMarker := currentEndMarker st;
       waiting := waiting st ++ [(nextPromise st, code)];
       timers := timers st; settled := settled st; nextPromise := S (nextPromise st) |}.
Proof. intros Hr. unfold executeCode. now rewrite Hr. Qed.

Lemma run_calls_before_ready (calls : list (N * str)) :
  forall st fs,
    isReady st = false ->
    let st' := fst (run (map call calls) (st, fs)) in
    waiting st' = waiting st ++ queued (nextPromise st) calls
    /\ nextPromise st' = (nextPromise st + length calls)%nat
    /\ isReady st' = false /\ settled st' = settled st.
Proof.
  unfold run. induction calls as [|[now code] calls IH]; intros st fs Hr; cbn [map fold_left].
  - cbn. rewrite app_nil_r. repeat split; [lia|exact Hr].
  - cbn [call fst snd step]. rewrite (executeCode_waiting now code st Hr).
    match goal with |- context [fold_left _ _ (?s1, fs)] =>
      destruct (IH s1 fs eq_refl) as (H1 & H2 & H3 & H4) end.
    cbn [waiting nextPromise settled] in H1, H2, H4.
    rewrite H1, H2, H3, H4. cbn [queued length]. rewrite <- app_assoc.
    repeat split. lia.
Qed.

Lemma resumeAll_last now (ws : list (nat * str)) (p : nat) (code : str) (st : Pty) :
  pendingResolve
    (fold_left (fun s '(p, code) => executeBody now code p s) (ws ++ [(p, code)]) st)
  = Some p.
Proof. rewrite fold_left_app. reflexivity. Qed.

Lemma queued_last (calls : list (N * str)) :
  forall n, calls <> [] ->
  exists ws code, queued n calls = ws ++ [((n + length calls - 1)%nat, code)].
Proof.
  induction calls as [|[now code] calls IH]; intros n Hne; [congruence|].
  destruct calls as [|c calls].
  - exists [], code. cbn [queued app length].
    replace (n + 1 - 1)%nat with n by lia. reflexivity.
  - destruct (IH (S n)) as (ws & code' & E); [discriminate|].
    exists ((n, code) :: ws), code'.
    change (queued n ((now, code) :: c :: calls)) with ((n, code) :: queued (S n) (c :: calls)).
    rewrite E. cbn [app length].
    replace (S n + S (length calls) - 1)%nat with (n + S (S (length calls)) - 1)%nat by lia.
    reflexivity.
Qed.

(** X18: Calls made before the session is ready all start when it becomes
    ready, one after the other, and each takes the resolver from the one
    before: the last call holds it, and the promise of every earlier call
    is never resolved, whatever happens later. *)
Theorem calls_before_ready_lose_all_but_last
        (history : list Event) (fs0 : FS) (st : Pty) (fs : FS)
        (calls : list (N * str)) (t : N) (k : nat) (later : list Event) (fs' : FS) :
  run history (newPty, fs0) = (st, fs) ->
  isReady st = false ->
  (S k < length calls)%nat ->
  let st' := fst (run (map call calls ++ [ReadyTimer t]) (st, fs)) in
  pendingResolve st' = Some (nextPromise st + length calls - 1)%nat
  /\ isExecuting st' = true
  /\ settled (fst (run later (st', fs'))) !! (nextPromise st + k)%nat = None.
Proof.
  intros Hrun Hr Hk st'.
  destruct (reachable_fresh _ _ _ _ Hrun) as [(_ & _ & Hs) _].
  destruct (run_calls_before_ready calls st fs Hr) as (W1 & W2 & W3 & W4).
  assert (st' = markReady t (fst (run (map call calls) (st, fs)))) as Est.
  { unfold st', run. rewrite fold_left_app. cbn [fold_left].
    destruct (fold_left _ (map call calls) (st, fs)) as [s1 f1]. reflexivity. }
  set (s1 := fst (run (map call calls) (st, fs))) in *.
  destruct (queued_last calls (nextPromise st)) as (ws & code & Eq);
    [destruct calls; [cbn in Hk; lia|discriminate]|].
  assert (pendingResolve st' = Some (nextPromise st + length calls - 1)%nat) as Hp.
  { rewrite Est. unfold markReady. rewrite W1, Eq, app_assoc. apply resumeAll_last. }
  assert (isExecuting st' = true /\ waiting st' = [] /\ nextPromise st' = nextPromise s1
          /\ settled st' = settled s1) as (Hex & Hw & Hn & Hset).
  { rewrite Est. unfold markReady.
    match goal with |- context [fold_left ?f ?l ?s0] =>
      destruct (resumeAll_fields t l s0) as (F1 & F2 & F3 & _);
      destruct (resumeAll_executing t l s0) as (E1 & _)
    end.
    - rewrite W1, Eq. destruct (waiting st); destruct ws; discriminate.
    - cbn [nextPromise waiting settled] in F1, F2, F3. repeat split; assumption. }
  split; [exact Hp|]. split; [exact Hex|].
  rewrite (run_orphan later (nextPromise st + k) st' fs').
  - rewrite Hset, W4. destruct (settled st !! (nextPromise st + k)%nat) eqn:E; [|reflexivity].
    specialize (Hs _ _ E). lia.
  - unfold orphan. rewrite Hp, Hw, Hn, W2. repeat split.
    + intros E; injection E as E. lia.
    + intros c [].
    + lia.
Qed.

End ScrapeSession.

(** * Worked instances *)

Section Instances.
Import JS Regex OutputWatcher QuartoNotebookController.

(** A log in which the records of two cells alternate. *)
Definition mixedFrames : list Frame :=
  [ mkFrame (lit "CELL_START") (lit "c1") [];
    mkFrame (lit "OUTPUT") (lit "c2") (lit "[1] 2");
    mkFrame (lit "WARNING") (lit "c1") (lit "NAs introduced by coercion");
    mkFrame (lit "OUTPUT") (lit "c1") (lit "[1] NA");
    mkFrame (lit "CELL_END") (lit "c1") [];
    mkFrame (lit "OUTPUT") (lit "c2") (lit "[1] 3") ].

Definition noOptions : PartialYamlOptions :=
  {| echo_opt := None; message_opt := None; warning_opt := None; error_opt := None |}.

Definition deliveredToC1 : list CellOutput :=
  [ mkCellOutput (lit "WARNING") (lit "NAs introduced by coercion") (lit "c1");
    mkCellOutput (lit "OUTPUT") (lit "[1] NA") (lit "c1") ].


Lemma delivered_records_belong_to_the_cell_witness :
  cellId (mkCellOutput (lit "OUTPUT") (lit "[1] NA") (lit "c1")) = lit "c1".
Proof.
  apply (delivered_records_belong_to_the_cell
           [OpStart] [OpProcessNewOutput (Some (stream mixedFrames))]
           (lit "c1") noOptions deliveredToC1).
  - vm_compute. reflexivity.
  - right. now left.
Defined.

Lemma registered_cell_receives_its_records_witness :
  let w := clearCellOutput (lit "c1") (start (runOps [] newWatcher)) in
  settled (fst (processNewOutput (Some (stream mixedFrames))
                  (fst (waitForCell (lit "c1") noOptions w))))
    !! snd (waitForCell (lit "c1") noOptions w)
  = Some deliveredToC1.
Proof.
  intros w. unfold w.
  rewrite (registered_cell_receives_its_records [] (lit "c1") noOptions mixedFrames).
  - vm_compute. reflexivity.
  - repeat constructor.
Defined.

Lemma registration_order_is_irrelevant_witness :
  let w := clearCellOutput (lit "c1") (start (runOps [] newWatcher)) in
  settled (fst (processNewOutput (Some (stream mixedFrames))
                  (fst (waitForCell (lit "c1") noOptions w))))
    !! snd (waitForCell (lit "c1") noOptions w)
  = settled (fst (waitForCell (lit "c1") noOptions
                    (fst (processNewOutput (Some (stream mixedFrames)) w))))
      !! snd (waitForCell (lit "c1") noOptions
                (fst (processNewOutput (Some (stream mixedFrames)) w))).
Proof.
  intros w.
  apply (registration_order_is_irrelevant [] (lit "c1") noOptions mixedFrames).
  - repeat constructor.
  - intros l H. vm_compute in H. injection H as <-. vm_compute. reflexivity.
Defined.

(** The first cell of a session, whose log is complete at the first
    poll. *)
Definition sampleCellFrames : list Frame :=
  [ mkFrame (lit "CELL_START") sampleId [];
    mkFrame (lit "OUTPUT") sampleId (lit "[1] 1");
    mkFrame (lit "CELL_END") sampleId [] ].

Lemma executeSingleCell_completes_witness :
  let '(c', execution, fs') :=
    executeSingleCell sampleDir sampleEnv 1700000000000 (lit "k3x9q2m1z")
      (lit "x <- 1; print(x)") defaultYamlOptions
      [Poll (Some (stream sampleCellFrames)); Timeout] newController ∅ in
  execution
  = mkExecution 1 [mkNotebookCellOutput [ItemText (lit "[1] 1") (lit "text/plain")]]
      (Some true)
  /\ fs' = ∅.
Proof.
  pose proof (executeSingleCell_completes sampleDir sampleEnv 1700000000000
                (lit "k3x9q2m1z") (lit "x <- 1; print(x)") defaultYamlOptions
                sampleCellFrames (map frameOutput sampleCellFrames) [Timeout] []
                newController ∅) as H.
  destruct (executeSingleCell _ _ _ _ _ _ _ _ _) as [[c' execution] fs'].
  destruct H as (H1 & H2 & _); try reflexivity.
  - repeat constructor.
  - split; [|exact H2]. rewrite H1. vm_compute. reflexivity.
Defined.

Lemma unreadable_plot_is_dropped_witness :
  cellOutputsToNotebookOutput
    [ mkCellOutput (lit "OUTPUT") (lit "[1] 1") (lit "c1");
      mkCellOutput (lit "PLOT") (lit "/tmp/quarto-inline/plots/gone.png") (lit "c1") ] ∅
  = cellOutputsToNotebookOutput [ mkCellOutput (lit "OUTPUT") (lit "[1] 1") (lit "c1") ] ∅.
Proof.
  apply (unreadable_plot_is_dropped
           [mkCellOutput (lit "OUTPUT") (lit "[1] 1") (lit "c1")] []); reflexivity.
Defined.

Lemma completion_beats_timeout_witness :
  snd (race (map Poll [Some (stream mixedFrames)] ++ [Timeout]) 0
         (fst (waitForCell (lit "c1") noOptions newWatcher)))
  = Some (Resolved deliveredToC1).
Proof. apply completion_beats_timeout. vm_compute. reflexivity. Defined.

(** The ready file never shows up: the loop passes the deadline, sources
    the script again and gives up. *)
Definition stuckEnv : SetupEnv :=
  {| terminalCreated := true; terminalExited := false; readyAtEntry := false;
     polls := [ mkReadyPoll false 100 false; mkReadyPoll false 30100 false ] |}.

Lemma setup_fails_only_past_deadline_witness :
  rSetupSourced (fst (ensureRSetup sampleDir stuckEnv newController)) = false
  /\ exists p, In p (polls stuckEnv) /\ readyExists p = false
               /\ 30000 < elapsed p /\ readyAfterRetry p = false.
Proof.
  destruct (setup_fails_only_past_deadline sampleDir stuckEnv newController
              (lit "Timeout waiting for R setup to complete. Make sure R is running in the terminal."))
    as (_ & H2 & _ & H4); [reflexivity|].
  split; [exact H2|exact H4].
Defined.



End Instances.

Section SessionInstances.
Import JS Regex RPseudoterminalSimple.

Definition readySession : Pty := fst (run [Open; ReadyTimer 1500] (newPty, ∅)).

Definition endEcho (now : N) : str :=
  lit "> " ++ endMarkerOf now ++ lit " <- TRUE" ++ [LF].


Lemma end_marker_completes_request_witness :
  let s2 := run (ExecuteCode 2000 (lit "1")
                 :: [Stdout (lit "[1] 1" ++ [LF])]
                 ++ Stdout (endEcho 2000) :: [Stdout (lit "> ")]) (readySession, ∅) in
  settled (fst s2) !! 0%nat = Some [mkOutputData text (lit "[1] 1") None]
  /\ isExecuting (fst s2) = false
  /\ timers (fst s2) = 1%nat.
Proof.
  intros s2.
  destruct (end_marker_completes_request [Open; ReadyTimer 1500] ∅ readySession ∅
              2000 (lit "1") [Stdout (lit "[1] 1" ++ [LF])] (endEcho 2000)
              [Stdout (lit "> ")]) as (H1 & _ & H3 & _ & H5); try reflexivity.
  fold s2 in H1, H3, H5. split; [|split; [exact H3|exact H5]].
  etransitivity; [exact H1|]. vm_compute. reflexivity.
Defined.

Lemma calls_before_ready_lose_all_but_last_witness :
  let st' := fst (run (map call [(100, lit "1"); (200, lit "2")] ++ [ReadyTimer 1500])
                    (fst (run [Open] (newPty, ∅)), ∅)) in
  pendingResolve st' = Some 1%nat
  /\ settled (fst (run [Stdout (endEcho 1500); ExecTimer; ExecTimer] (st', ∅))) !! 0%nat
     = None.
Proof.
  intros st'.
  destruct (calls_before_ready_lose_all_but_last [Open] ∅ (fst (run [Open] (newPty, ∅))) ∅
              [(100, lit "1"); (200, lit "2")] 1500 0
              [Stdout (endEcho 1500); ExecTimer; ExecTimer] ∅)
    as (H1 & _ & H3); try reflexivity.
  - cbn [length]. lia.
  - split; [exact H1|exact H3].
Defined.

End SessionInstances.
